(** * A shallow embedding of the Scheme interpreter's evaluator and parser

    The development follows [evaluation.cpp] and [parser.cpp].  Values are
    heap objects reached through shared pointers, so the embedding keeps an
    explicit store: object identity ([eq?]), mutation of pairs and of
    environment cells are all visible in it.  Machine integers are [int]
    (32 bits, two's complement) and are modelled as [Z] with the wrap-around
    written out. *)

From stdpp Require Import base option list strings gmap.
From Stdlib Require Import ZArith Lia Znumtheory.

#[local] Set Warnings "-register-all".
#[local] Open Scope Z_scope.

(** ** Machine integers *)

Definition INT_MAX : Z := 2147483647.
Definition INT_MIN : Z := -2147483648.

(** The value of an [int] expression whose mathematical value is [z]. *)
Definition wrap (z : Z) : Z := (z + 2147483648) mod 4294967296 - 2147483648.

(** [long long] is 64 bits wide. *)
Definition wrap64 (z : Z) : Z :=
  (z + 9223372036854775808) mod 18446744073709551616 - 9223372036854775808.

Definition in_int (z : Z) : Prop := INT_MIN <= z <= INT_MAX.

(** An [int] whose negation is an [int] too. *)
Definition in_sym (z : Z) : Prop := - INT_MAX <= z <= INT_MAX.

(** ** Results of a computation *)

Inductive Res (A : Type) : Type :=
| Ret (a : A)              (* normal return *)
| Raise (msg : string)     (* throw RuntimeError(msg) *)
| Undef                    (* a null or dangling pointer is dereferenced *)
| Timeout.                 (* the computation does not end within the fuel *)
Arguments Ret {A} a.
Arguments Raise {A} msg.
Arguments Undef {A}.
Arguments Timeout {A}.

(** ** Syntax, expressions, values *)

Definition loc := nat.

(** Modelled from the spec: [Value] (value.hpp), a shared pointer to a
    [ValueBase]; [None] is [nullptr]. *)
Definition Value := option loc.

(** Modelled from the spec: [Assoc] (value.hpp), the chain of bindings.
    Every binding owns a mutable cell of the store; the chain itself is
    immutable, [extend] makes a new head. *)
Definition Assoc := list (string * loc).

(** Modelled from the spec: the syntax classes of [syntax.hpp], under the
    names the parser and [syntaxToValue] cast to. *)
Inductive Syntax : Type :=
| Number (n : Z)
| RationalSyntax (numerator denominator : Z)
| SymbolSyntax (s : string)
| StringSyntax (s : string)
| TrueSyntax
| FalseSyntax
| List (stxs : list Syntax).

Inductive UnaryOp :=
| Car | Cdr | Not | IsBoolean | IsFixnum | IsNull | IsPair | IsProcedure
| IsSymbol | IsList | IsString | Display.

Inductive BinaryOp :=
| Plus | Minus | Mult | Div | Modulo | Expt
| Less | LessEq | Equal | GreaterEq | Greater
| Cons | SetCar | SetCdr | IsEq.

Inductive VariadicOp :=
| PlusVar | MinusVar | MultVar | DivVar
| LessVar | LessEqVar | EqualVar | GreaterEqVar | GreaterVar
| ListFunc.

(** Modelled from the spec: the expression classes of [expr.hpp], with the
    fields their [eval] methods read.  The subclasses of [Unary], [Binary]
    and [Variadic] differ in their [evalRator] only and are told apart by
    the operator tag. *)
Inductive Expr : Type :=
| Fixnum (n : Z)
| RationalNum (numerator denominator : Z)
| StringExpr (s : string)
| True_
| False_
| MakeVoid
| Exit
| Var (x : string)
| Unary (op : UnaryOp) (rand : Expr)
| Binary (op : BinaryOp) (rand1 rand2 : Expr)
| Variadic (op : VariadicOp) (rands : list Expr)
| AndVar (rands : list Expr)
| OrVar (rands : list Expr)
| Begin (es : list Expr)
| Quote (s : Syntax)
| If (cond conseq alter : Expr)
| Cond (clauses : list (list Expr))
| Lambda (x : list string) (e : Expr)
| Apply (rator : Expr) (rand : list Expr)
| Define (var : string) (e : Expr)
| Let (bind : list (string * Expr)) (body : Expr)
| Letrec (bind : list (string * Expr)) (body : Expr)
| Set_ (var : string) (e : Expr).

(** Modelled from the spec: the value classes of [value.hpp], with the
    fields the evaluator reads. *)
Inductive ValueBase : Type :=
| Integer (n : Z)
| Rational (numerator denominator : Z)
| Boolean (b : bool)
| String_ (s : string)
| Symbol (s : string)
| Null
| Void
| Terminate
| Pair (car cdr : Value)
| Procedure (parameters : list string) (e : Expr) (env : Assoc).

(** What [display] sends to the output stream: raw characters, or a value
    handed to the printer [show]. *)
Inductive Output :=
| Written (s : string)
| Shown (v : loc).

Record Store := mkStore {
  objs : list ValueBase;     (* the value objects, by address *)
  cells : list Value;        (* the cells of the environment bindings *)
  out : list Output          (* std::cout *)
}.

Definition empty_store : Store := mkStore [] [] [].

(** ** The store monad *)

Definition H (A : Type) : Type := Store -> Res A * Store.

Definition retH {A} (a : A) : H A := fun s => (Ret a, s).

Definition bindH {A B} (m : H A) (k : A -> H B) : H B :=
  fun s =>
    match m s with
    | (Ret a, s') => k a s'
    | (Raise msg, s') => (Raise msg, s')
    | (Undef, s') => (Undef, s')
    | (Timeout, s') => (Timeout, s')
    end.

Definition throw {A} (msg : string) : H A := fun s => (Raise msg, s).
Definition undef {A} : H A := fun s => (Undef, s).
Definition timeout {A} : H A := fun s => (Timeout, s).

Notation "x <- m ;; k" := (bindH m (fun x => k))
  (at level 100, m at next level, right associativity).

(** [new T(...)]: the fresh object gets the next address. *)
Definition alloc (o : ValueBase) : H Value :=
  fun s => (Ret (Some (length (objs s))),
            mkStore (objs s ++ [o]) (cells s) (out s)).

(** [*v.get()] *)
Definition deref (v : Value) : H ValueBase :=
  fun s =>
    match v with
    | Some l =>
        match objs s !! l with
        | Some o => (Ret o, s)
        | None => (Undef, s)
        end
    | None => (Undef, s)
    end.

(** Assignment to the fields of the object at [l]. *)
Definition store_obj (l : loc) (o : ValueBase) : H unit :=
  fun s => (Ret tt, mkStore (<[l:=o]> (objs s)) (cells s) (out s)).

Definition print (o : Output) : H unit :=
  fun s => (Ret tt, mkStore (objs s) (cells s) (out s ++ [o])).

(** Modelled from the spec: the constructor functions of [value.hpp]; each
    makes a fresh object of its class from its arguments. *)
Definition IntegerV (n : Z) : H Value := alloc (Integer n).
Definition RationalV (p q : Z) : H Value := alloc (Rational p q).
Definition BooleanV (b : bool) : H Value := alloc (Boolean b).
Definition StringV (s : string) : H Value := alloc (String_ s).
Definition SymbolV (s : string) : H Value := alloc (Symbol s).
Definition NullV : H Value := alloc Null.
Definition VoidV : H Value := alloc Void.
Definition TerminateV : H Value := alloc Terminate.
Definition PairV (a d : Value) : H Value := alloc (Pair a d).
Definition ProcedureV (ps : list string) (e : Expr) (env : Assoc) : H Value :=
  alloc (Procedure ps e env).

(** ** The environment *)

(** The innermost cell bound to [x]. *)
Fixpoint lookup_cell (x : string) (env : Assoc) : option loc :=
  match env with
  | [] => None
  | (y, c) :: rest => if String.eqb x y then Some c else lookup_cell x rest
  end.

(** Modelled from the spec: [find] (value.cpp) returns the content of the
    innermost cell bound to the name, or the null pointer when there is
    none. *)
Definition find (x : string) (env : Assoc) : H Value :=
  fun s =>
    match lookup_cell x env with
    | Some c =>
        match cells s !! c with
        | Some v => (Ret v, s)
        | None => (Undef, s)
        end
    | None => (Ret None, s)
    end.

(** Modelled from the spec: [extend] (value.cpp) prepends a binding with a fresh cell
    and leaves the environment it extends intact. *)
Definition extend (x : string) (v : Value) (env : Assoc) : H Assoc :=
  fun s => (Ret ((x, length (cells s)) :: env),
            mkStore (objs s) (cells s ++ [v]) (out s)).

(** Modelled from the spec: [modify] (value.cpp) overwrites the innermost cell bound to
    the name; without such a cell nothing happens. *)
Definition modify (x : string) (v : Value) (env : Assoc) : H unit :=
  fun s =>
    match lookup_cell x env with
    | Some c => (Ret tt, mkStore (objs s) (<[c:=v]> (cells s)) (out s))
    | None => (Ret tt, s)
    end.

(** ** Arithmetic on values *)

(** Modelled from the spec: [gcd] (expr.cpp), the greatest common divisor
    of two [int]s, zero for two zeros. *)
Definition gcd (a b : Z) : Z := wrap (Z.gcd a b).

(** The block that ends every rational case of the four helpers: reduce by
    the gcd, move the sign to the numerator, return an Integer for
    denominator 1. *)
Definition normalize (num den : Z) : H Value :=
  let g := gcd num den in
  let num := if g =? 0 then num else wrap (Z.quot num g) in
  let den := if g =? 0 then den else wrap (Z.quot den g) in
  let num' := if den <? 0 then wrap (- num) else num in
  let den' := if den <? 0 then wrap (- den) else den in
  if den' =? 1 then IntegerV num' else RationalV num' den'.

Definition addValues (v1 v2 : Value) : H Value :=
  o1 <- deref v1 ;; o2 <- deref v2 ;;
  match o1, o2 with
  | Integer n1, Integer n2 => IntegerV (wrap (n1 + n2))
  | Rational p1 q1, Rational p2 q2 =>
      normalize (wrap (wrap (p1 * q2) + wrap (p2 * q1))) (wrap (q1 * q2))
  | Integer n1, Rational p2 q2 =>
      normalize (wrap (wrap (n1 * q2) + p2)) q2
  | Rational p1 q1, Integer n2 =>
      normalize (wrap (p1 + wrap (n2 * q1))) q1
  | _, _ => throw "Wrong typename in addition"
  end.

Definition subtractValues (v1 v2 : Value) : H Value :=
  o1 <- deref v1 ;; o2 <- deref v2 ;;
  match o1, o2 with
  | Integer n1, Integer n2 => IntegerV (wrap (n1 - n2))
  | Rational p1 q1, Rational p2 q2 =>
      normalize (wrap (wrap (p1 * q2) - wrap (p2 * q1))) (wrap (q1 * q2))
  | Integer n1, Rational p2 q2 =>
      normalize (wrap (wrap (n1 * q2) - p2)) q2
  | Rational p1 q1, Integer n2 =>
      normalize (wrap (p1 - wrap (n2 * q1))) q1
  | _, _ => throw "Wrong typename in subtraction"
  end.

Definition multiplyValues (v1 v2 : Value) : H Value :=
  o1 <- deref v1 ;; o2 <- deref v2 ;;
  match o1, o2 with
  | Integer n1, Integer n2 => IntegerV (wrap (n1 * n2))
  | Rational p1 q1, Rational p2 q2 =>
      normalize (wrap (p1 * p2)) (wrap (q1 * q2))
  | Integer n1, Rational p2 q2 => normalize (wrap (n1 * p2)) q2
  | Rational p1 q1, Integer n2 => normalize (wrap (p1 * n2)) q1
  | _, _ => throw "Wrong typename in multiplication"
  end.

Definition divideValues (v1 v2 : Value) : H Value :=
  o1 <- deref v1 ;; o2 <- deref v2 ;;
  match o1, o2 with
  | Integer n1, Integer n2 =>
      if n2 =? 0 then throw "Division by zero" else normalize n1 n2
  | Rational p1 q1, Rational p2 q2 =>
      if p2 =? 0 then throw "Division by zero"
      else normalize (wrap (p1 * q2)) (wrap (q1 * p2))
  | Integer n1, Rational p2 q2 =>
      if p2 =? 0 then throw "Division by zero"
      else normalize (wrap (n1 * q2)) p2
  | Rational p1 q1, Integer n2 =>
      if n2 =? 0 then throw "Division by zero"
      else normalize p1 (wrap (q1 * n2))
  | _, _ => throw "Wrong typename in division"
  end.

Definition Modulo_evalRator (rand1 rand2 : Value) : H Value :=
  o1 <- deref rand1 ;; o2 <- deref rand2 ;;
  match o1, o2 with
  | Integer dividend, Integer divisor =>
      if divisor =? 0 then throw "Division by zero"
      else IntegerV (wrap (Z.rem dividend divisor))
  | _, _ => throw "modulo is only defined for integers"
  end.

(** [for (i = 1; i < args.size(); ++i) result = f(result, args[i])] *)
Fixpoint fold_args (f : Value -> Value -> H Value) (result : Value)
    (rest : list Value) : H Value :=
  match rest with
  | [] => retH result
  | a :: rest' => r <- f result a ;; fold_args f r rest'
  end.

Definition PlusVar_evalRator (args : list Value) : H Value :=
  match args with
  | [] => IntegerV 0
  | a0 :: rest => fold_args addValues a0 rest
  end.

Definition MinusVar_evalRator (args : list Value) : H Value :=
  match args with
  | [] => throw "Wrong number of arguments for -"
  | [a0] =>
      o <- deref a0 ;;
      match o with
      | Integer n => IntegerV (wrap (- n))
      | Rational p q => RationalV (wrap (- p)) q
      | _ => throw "Wrong typename"
      end
  | a0 :: rest => fold_args subtractValues a0 rest
  end.

Definition MultVar_evalRator (args : list Value) : H Value :=
  match args with
  | [] => IntegerV 1
  | a0 :: rest => fold_args multiplyValues a0 rest
  end.

Definition DivVar_evalRator (args : list Value) : H Value :=
  match args with
  | [] => throw "Wrong number of arguments for /"
  | [a0] => one <- IntegerV 1 ;; divideValues one a0
  | a0 :: rest => fold_args divideValues a0 rest
  end.

Definition liftR {A} (r : Res A) : H A := fun s => (r, s).

Definition out_of_int (z : Z) : bool := (z >? INT_MAX) || (z <? INT_MIN).

(** The [while (exp > 0)] loop of [expt]; [result] and [b] are [long long].
    An [int] exponent is exhausted after at most 31 halvings. *)
Fixpoint expt_loop (n : nat) (result b exp : Z) : Res Z :=
  match n with
  | O => Timeout
  | S n' =>
      if exp >? 0 then
        let result' := if Z.rem exp 2 =? 1 then wrap64 (result * b) else result in
        if (Z.rem exp 2 =? 1) && out_of_int result'
        then Raise "Integer overflow in expt"
        else
          let b' := wrap64 (b * b) in
          if out_of_int b' && (exp >? 1)
          then Raise "Integer overflow in expt"
          else expt_loop n' result' b' (Z.quot exp 2)
      else Ret result
  end.

Definition Expt_evalRator (rand1 rand2 : Value) : H Value :=
  o1 <- deref rand1 ;; o2 <- deref rand2 ;;
  match o1, o2 with
  | Integer base, Integer exponent =>
      if exponent <? 0
      then throw "Negative exponent not supported for integers"
      else if (base =? 0) && (exponent =? 0)
      then throw "0^0 is undefined"
      else result <- liftR (expt_loop 32 1 base exponent) ;;
           IntegerV (wrap result)
  | _, _ => throw "Wrong typename"
  end.

Definition cmp (left right : Z) : Z :=
  if left <? right then -1 else if left >? right then 1 else 0.

Definition compareNumericValues (v1 v2 : Value) : H Z :=
  o1 <- deref v1 ;; o2 <- deref v2 ;;
  match o1, o2 with
  | Integer n1, Integer n2 => retH (cmp n1 n2)
  | Rational p1 q1, Integer n2 => retH (cmp p1 (wrap (n2 * q1)))
  | Integer n1, Rational p2 q2 => retH (cmp (wrap (n1 * q2)) p2)
  | Rational p1 q1, Rational p2 q2 =>
      retH (cmp (wrap (p1 * q2)) (wrap (p2 * q1)))
  | _, _ => throw "Wrong typename in numeric comparison"
  end.

Definition compare_with (test : Z -> bool) (rand1 rand2 : Value) : H Value :=
  c <- compareNumericValues rand1 rand2 ;; BooleanV (test c).

(** The loop of the variadic comparisons: [bad] is the outcome of
    [compareNumericValues] on adjacent arguments that makes the answer #f. *)
Fixpoint compare_chain (bad : Z -> bool) (args : list Value) : H Value :=
  match args with
  | a :: ((b :: _) as rest) =>
      c <- compareNumericValues a b ;;
      if bad c then BooleanV false else compare_chain bad rest
  | _ => BooleanV true
  end.

(** [for (i = size - 1; i >= 0; --i) result = PairV(args[i], result)] *)
Fixpoint cons_all (rev_args : list Value) (result : Value) : H Value :=
  match rev_args with
  | [] => retH result
  | a :: rest => r <- PairV a result ;; cons_all rest r
  end.

Definition ListFunc_evalRator (args : list Value) : H Value :=
  result <- NullV ;; cons_all (rev args) result.

(** [while (curr->v_type == V_PAIR) curr = cdr]: a chain of pairs longer
    than the number of objects is cyclic, and the loop never ends on it. *)
Fixpoint list_walk (n : nat) (curr : Value) : H Value :=
  o <- deref curr ;;
  match o with
  | Pair _ d =>
      match n with
      | O => timeout
      | S n' => list_walk n' d
      end
  | Null => BooleanV true
  | _ => BooleanV false
  end.

Definition IsList_evalRator (rand : Value) : H Value :=
  o <- deref rand ;;
  match o with
  | Null => BooleanV true
  | Pair _ _ => fun s => list_walk (length (objs s)) rand s
  | _ => BooleanV false
  end.

Definition Car_evalRator (rand : Value) : H Value :=
  o <- deref rand ;;
  match o with
  | Pair a _ => retH a
  | _ => throw "car: argument must be a pair"
  end.

Definition Cdr_evalRator (rand : Value) : H Value :=
  o <- deref rand ;;
  match o with
  | Pair _ d => retH d
  | _ => throw "cdr: argument must be a pair"
  end.

Definition SetCar_evalRator (rand1 rand2 : Value) : H Value :=
  o <- deref rand1 ;;
  match o, rand1 with
  | Pair _ d, Some l => _ <- store_obj l (Pair rand2 d) ;; VoidV
  | _, _ => throw "set-car!: first argument must be a pair"
  end.

Definition SetCdr_evalRator (rand1 rand2 : Value) : H Value :=
  o <- deref rand1 ;;
  match o, rand1 with
  | Pair a _, Some l => _ <- store_obj l (Pair a rand2) ;; VoidV
  | _, _ => throw "set-cdr!: first argument must be a pair"
  end.

Definition same_object (v1 v2 : Value) : bool :=
  match v1, v2 with
  | Some l1, Some l2 => Nat.eqb l1 l2
  | None, None => true
  | _, _ => false
  end.

Definition IsEq_evalRator (rand1 rand2 : Value) : H Value :=
  o1 <- deref rand1 ;; o2 <- deref rand2 ;;
  match o1, o2 with
  | Integer n1, Integer n2 => BooleanV (n1 =? n2)
  | Boolean b1, Boolean b2 => BooleanV (Bool.eqb b1 b2)
  | Symbol s1, Symbol s2 => BooleanV (String.eqb s1 s2)
  | Null, Null => BooleanV true
  | Void, Void => BooleanV true
  | _, _ => BooleanV (same_object rand1 rand2)
  end.

Definition is_false (o : ValueBase) : bool :=
  match o with
  | Boolean false => true
  | _ => false
  end.

Definition Not_evalRator (rand : Value) : H Value :=
  o <- deref rand ;; BooleanV (is_false o).

Definition type_test (test : ValueBase -> bool) (rand : Value) : H Value :=
  o <- deref rand ;; BooleanV (test o).

Definition Display_evalRator (rand : Value) : H Value :=
  o <- deref rand ;;
  match o, rand with
  | String_ s, _ => _ <- print (Written s) ;; VoidV
  | _, Some l => _ <- print (Shown l) ;; VoidV
  | _, None => undef
  end.

Definition Unary_evalRator (op : UnaryOp) (rand : Value) : H Value :=
  match op with
  | Car => Car_evalRator rand
  | Cdr => Cdr_evalRator rand
  | Not => Not_evalRator rand
  | IsBoolean => type_test (fun o => match o with Boolean _ => true | _ => false end) rand
  | IsFixnum => type_test (fun o => match o with Integer _ => true | _ => false end) rand
  | IsNull => type_test (fun o => match o with Null => true | _ => false end) rand
  | IsPair => type_test (fun o => match o with Pair _ _ => true | _ => false end) rand
  | IsProcedure => type_test (fun o => match o with Procedure _ _ _ => true | _ => false end) rand
  | IsSymbol => type_test (fun o => match o with Symbol _ => true | _ => false end) rand
  | IsList => IsList_evalRator rand
  | IsString => type_test (fun o => match o with String_ _ => true | _ => false end) rand
  | Display => Display_evalRator rand
  end.

Definition Binary_evalRator (op : BinaryOp) (rand1 rand2 : Value) : H Value :=
  match op with
  | Plus => addValues rand1 rand2
  | Minus => subtractValues rand1 rand2
  | Mult => multiplyValues rand1 rand2
  | Div => divideValues rand1 rand2
  | Modulo => Modulo_evalRator rand1 rand2
  | Expt => Expt_evalRator rand1 rand2
  | Less => compare_with (fun c => c <? 0) rand1 rand2
  | LessEq => compare_with (fun c => c <=? 0) rand1 rand2
  | Equal => compare_with (fun c => c =? 0) rand1 rand2
  | GreaterEq => compare_with (fun c => c >=? 0) rand1 rand2
  | Greater => compare_with (fun c => c >? 0) rand1 rand2
  | Cons => PairV rand1 rand2
  | SetCar => SetCar_evalRator rand1 rand2
  | SetCdr => SetCdr_evalRator rand1 rand2
  | IsEq => IsEq_evalRator rand1 rand2
  end.

Definition Variadic_evalRator (op : VariadicOp) (args : list Value) : H Value :=
  match op with
  | PlusVar => PlusVar_evalRator args
  | MinusVar => MinusVar_evalRator args
  | MultVar => MultVar_evalRator args
  | DivVar => DivVar_evalRator args
  | LessVar => compare_chain (fun c => c >=? 0) args
  | LessEqVar => compare_chain (fun c => c >? 0) args
  | EqualVar => compare_chain (fun c => negb (c =? 0)) args
  | GreaterEqVar => compare_chain (fun c => c <? 0) args
  | GreaterVar => compare_chain (fun c => c <=? 0) args
  | ListFunc => ListFunc_evalRator args
  end.

(** [syntaxToValue]: the elements of a list are converted from the last to
    the first, each consed onto the chain built so far. *)
Fixpoint syntaxToValue (s : Syntax) : H Value :=
  match s with
  | Number n => IntegerV n
  | RationalSyntax p q => RationalV p q
  | TrueSyntax => BooleanV true
  | FalseSyntax => BooleanV false
  | SymbolSyntax x => SymbolV x
  | StringSyntax x => StringV x
  | List stxs =>
      (fix chain (l : list Syntax) : H Value :=
         match l with
         | [] => NullV
         | x :: rest =>
             result <- chain rest ;;
             v <- syntaxToValue x ;;
             PairV v result
         end) stxs
  end.

(** ** The evaluator monad

    [eval] takes its environment by reference ([Assoc &e]): [define] may
    rebind the caller's variable.  An evaluation therefore runs against the
    current content of that variable and returns its new content together
    with the store. *)

Definition E (A : Type) : Type := Assoc -> Store -> Res A * Assoc * Store.

Definition retE {A} (a : A) : E A := fun e s => (Ret a, e, s).

Definition bindE {A B} (m : E A) (k : A -> E B) : E B :=
  fun e s =>
    match m e s with
    | (Ret a, e', s') => k a e' s'
    | (Raise msg, e', s') => (Raise msg, e', s')
    | (Undef, e', s') => (Undef, e', s')
    | (Timeout, e', s') => (Timeout, e', s')
    end.

Notation "x <~ m ;; k" := (bindE m (fun x => k))
  (at level 100, m at next level, right associativity).

Definition liftH {A} (m : H A) : E A :=
  fun e s => let (r, s') := m s in (r, e, s').

Definition throwE {A} (msg : string) : E A := fun e s => (Raise msg, e, s).
Definition get_env : E Assoc := fun e s => (Ret e, e, s).
Definition set_env (e' : Assoc) : E unit := fun _ s => (Ret tt, e', s).

(** Runs [m] on a local variable initialised to [local]; the caller's own
    variable is untouched. *)
Definition in_env {A} (local : Assoc) (m : E A) : E A :=
  fun e s => match m local s with (r, _, s') => (r, e, s') end.

Definition is_else (ex : Expr) : bool :=
  match ex with
  | Var x => String.eqb x "else"
  | _ => false
  end.

(** [for (i = 0; i < n; ++i) env = extend(names[i], vals[i], env)] *)
Fixpoint extend_all (names : list string) (vals : list Value) (env : Assoc)
    : H Assoc :=
  match names, vals with
  | x :: names', v :: vals' => env' <- extend x v env ;; extend_all names' vals' env'
  | _, _ => retH env
  end.

(** Modelled from the spec: the tags of [Def.hpp] that the parser
    dispatches on. *)
Inductive ExprType :=
| E_PLUS | E_MINUS | E_MUL | E_DIV | E_MODULO | E_EXPT
| E_LT | E_LE | E_EQ | E_GE | E_GT
| E_CONS | E_CAR | E_CDR | E_LIST | E_SETCAR | E_SETCDR
| E_NOT | E_AND | E_OR
| E_EQQ | E_BOOLQ | E_INTQ | E_NULLQ | E_PAIRQ | E_PROCQ | E_SYMBOLQ
| E_LISTQ | E_STRINGQ
| E_VOID | E_EXIT | E_DISPLAY
| E_BEGIN | E_QUOTE | E_IF | E_COND | E_LAMBDA | E_DEFINE | E_LET
| E_LETREC | E_SET.

(** ** The parser *)

Definition bindR {A B} (r : Res A) (k : A -> Res B) : Res B :=
  match r with
  | Ret a => k a
  | Raise msg => Raise msg
  | Undef => Undef
  | Timeout => Timeout
  end.

Notation "x <-- r ;; k" := (bindR r (fun x => k))
  (at level 100, r at next level, right associativity).

(** [for (i = ...) out.push_back(stxs[i].parse(env))] *)
Definition parse_all (parse : Syntax -> Res Expr) : list Syntax -> Res (list Expr) :=
  fix go (l : list Syntax) : Res (list Expr) :=
    match l with
    | [] => Ret []
    | x :: rest => e <-- parse x ;; es <-- go rest ;; Ret (e :: es)
    end.

(** The parameter lists of [lambda] and of the [define] shorthand. *)
Fixpoint parse_params (msg : string) (l : list Syntax) : Res (list string) :=
  match l with
  | [] => Ret []
  | SymbolSyntax x :: rest => xs <-- parse_params msg rest ;; Ret (x :: xs)
  | _ :: _ => Raise msg
  end.

(** The binding lists of [let] and [letrec]. *)
Definition parse_bindings (parse : Syntax -> Res Expr) (who : string)
    : list Syntax -> Res (list (string * Expr)) :=
  fix go (l : list Syntax) : Res (list (string * Expr)) :=
    match l with
    | [] => Ret []
    | List [SymbolSyntax x; rhs] :: rest =>
        e <-- parse rhs ;; bs <-- go rest ;; Ret ((x, e) :: bs)
    | List [_; _] :: _ => Raise (who ++ " variable must be a symbol")
    | _ :: _ => Raise (who ++ " binding must be a pair")
    end.

(** The clauses of [cond]. *)
Definition parse_clauses (parse : Syntax -> Res Expr)
    : list Syntax -> Res (list (list Expr)) :=
  fix go (l : list Syntax) : Res (list (list Expr)) :=
    match l with
    | [] => Ret []
    | List clause_list :: rest =>
        clause <-- parse_all parse clause_list ;;
        clauses <-- go rest ;;
        Ret (clause :: clauses)
    | _ :: _ => Raise "cond clause must be a list"
    end.

Definition binary_or_variadic (b : BinaryOp) (v : VariadicOp)
    (parameters : list Expr) : Res Expr :=
  match parameters with
  | [p0; p1] => Ret (Binary b p0 p1)
  | _ => Ret (Variadic v parameters)
  end.

Definition binary_exact (b : BinaryOp) (name : string)
    (parameters : list Expr) : Res Expr :=
  match parameters with
  | [p0; p1] => Ret (Binary b p0 p1)
  | _ => Raise ("Wrong number of arguments for " ++ name)
  end.

Definition unary_exact (u : UnaryOp) (name : string)
    (parameters : list Expr) : Res Expr :=
  match parameters with
  | [p0] => Ret (Unary u p0)
  | _ => Raise ("Wrong number of arguments for " ++ name)
  end.

Definition nullary_exact (ex : Expr) (name : string)
    (parameters : list Expr) : Res Expr :=
  match parameters with
  | [] => Ret ex
  | _ => Raise ("Wrong number of arguments for " ++ name)
  end.

(** The chain of [if (op_type == ...)] of the primitive branch. *)
Definition parse_primitive (op : string) (op_type : ExprType)
    (parameters : list Expr) : Res Expr :=
  match op_type with
  | E_PLUS => binary_or_variadic Plus PlusVar parameters
  | E_MINUS => binary_or_variadic Minus MinusVar parameters
  | E_MUL => binary_or_variadic Mult MultVar parameters
  | E_DIV => binary_or_variadic Div DivVar parameters
  | E_MODULO => binary_exact Modulo "modulo" parameters
  | E_EXPT => binary_exact Expt "expt" parameters
  | E_LT => binary_or_variadic Less LessVar parameters
  | E_LE => binary_or_variadic LessEq LessEqVar parameters
  | E_EQ => binary_or_variadic Equal EqualVar parameters
  | E_GE => binary_or_variadic GreaterEq GreaterEqVar parameters
  | E_GT => binary_or_variadic Greater GreaterVar parameters
  | E_CONS => binary_exact Cons "cons" parameters
  | E_CAR => unary_exact Car "car" parameters
  | E_CDR => unary_exact Cdr "cdr" parameters
  | E_LIST => Ret (Variadic ListFunc parameters)
  | E_SETCAR => binary_exact SetCar "set-car!" parameters
  | E_SETCDR => binary_exact SetCdr "set-cdr!" parameters
  | E_NOT => unary_exact Not "not" parameters
  | E_AND => Ret (AndVar parameters)
  | E_OR => Ret (OrVar parameters)
  | E_EQQ => binary_exact IsEq "eq?" parameters
  | E_BOOLQ => unary_exact IsBoolean "boolean?" parameters
  | E_INTQ => unary_exact IsFixnum "number?" parameters
  | E_NULLQ => unary_exact IsNull "null?" parameters
  | E_PAIRQ => unary_exact IsPair "pair?" parameters
  | E_PROCQ => unary_exact IsProcedure "procedure?" parameters
  | E_SYMBOLQ => unary_exact IsSymbol "symbol?" parameters
  | E_LISTQ => unary_exact IsList "list?" parameters
  | E_STRINGQ => unary_exact IsString "string?" parameters
  | E_VOID => nullary_exact MakeVoid "void" parameters
  | E_EXIT => nullary_exact Exit "exit" parameters
  | E_DISPLAY => unary_exact Display "display" parameters
  | _ => Raise ("Unknown primitive: " ++ op)
  end.

Section Evaluator.

(** The two tables of [Def.cpp], [std::map<std::string, ExprType>]. *)
Variable primitives : gmap string ExprType.
Variable reserved_words : gmap string ExprType.

(** [m.count(x) != 0] *)
Definition count (m : gmap string ExprType) (x : string) : bool :=
  match m !! x with
  | Some _ => true
  | None => false
  end.

Section Eval_with.

(** [ev] stands for the virtual call [expr->eval(e)]. *)
Variable ev : Expr -> E Value.

(** [for (expr : rands) args.push_back(expr->eval(e))] *)
Fixpoint eval_args (rands : list Expr) : E (list Value) :=
  match rands with
  | [] => retE []
  | expr :: rest =>
      v <~ ev expr ;; vs <~ eval_args rest ;; retE (v :: vs)
  end.

(** [for (expr : es) result = expr->eval(e); return result] *)
Fixpoint eval_body (result : Value) (es : list Expr) : E Value :=
  match es with
  | [] => retE result
  | expr :: rest => r <~ ev expr ;; eval_body r rest
  end.

Definition Begin_eval (es : list Expr) : E Value :=
  match es with
  | [] => liftH VoidV
  | _ => result <~ liftH VoidV ;; eval_body result es
  end.

Fixpoint and_loop (result : Value) (rands : list Expr) : E Value :=
  match rands with
  | [] => retE result
  | expr :: rest =>
      r <~ ev expr ;;
      o <~ liftH (deref r) ;;
      if is_false o then liftH (BooleanV false) else and_loop r rest
  end.

Definition AndVar_eval (rands : list Expr) : E Value :=
  match rands with
  | [] => liftH (BooleanV true)
  | _ => result <~ liftH (BooleanV true) ;; and_loop result rands
  end.

Fixpoint or_loop (rands : list Expr) : E Value :=
  match rands with
  | [] => liftH (BooleanV false)
  | expr :: rest =>
      result <~ ev expr ;;
      o <~ liftH (deref result) ;;
      if is_false o then or_loop rest else retE result
  end.

Definition OrVar_eval (rands : list Expr) : E Value := or_loop rands.

Definition If_eval (cond conseq alter : Expr) : E Value :=
  cond_val <~ ev cond ;;
  o <~ liftH (deref cond_val) ;;
  if is_false o then ev alter else ev conseq.

(** The tail of a taken clause:
    [result = VoidV(); for (i = 1; ...) result = clause[i]->eval(env)] *)
Definition clause_body (rest : list Expr) : E Value :=
  result <~ liftH VoidV ;; eval_body result rest.

Fixpoint Cond_eval (clauses : list (list Expr)) : E Value :=
  match clauses with
  | [] => liftH VoidV
  | [] :: more => Cond_eval more
  | (test :: rest) :: more =>
      if is_else test then clause_body rest
      else
        cond_val <~ ev test ;;
        o <~ liftH (deref cond_val) ;;
        if is_false o then Cond_eval more
        else
          match rest with
          | [] => retE cond_val
          | _ => clause_body rest
          end
  end.

Definition Var_eval (x : string) : E Value :=
  e <~ get_env ;;
  matched_value <~ liftH (find x e) ;;
  match matched_value with
  | None =>
      if count primitives x
      then liftH (ProcedureV [] (Var x) e)
      else throwE ("Undefined variable: " ++ x)
  | Some _ => retE matched_value
  end.

(** [Apply::eval].  The test for a [Begin] body in the source guards an
    empty block and is left out. *)
Definition Apply_eval (rator : Expr) (rand : list Expr) : E Value :=
  rator_val <~ ev rator ;;
  o <~ liftH (deref rator_val) ;;
  match o with
  | Procedure parameters body env =>
      args <~ eval_args rand ;;
      if negb (Nat.eqb (length args) (length parameters))
      then throwE "Wrong number of arguments"
      else
        param_env <~ liftH (extend_all parameters args env) ;;
        in_env param_env (ev body)
  | _ => throwE "Attempt to apply a non-procedure"
  end.

Definition Define_eval (var : string) (e : Expr) : E Value :=
  if count primitives var || count reserved_words var
  then throwE ("Cannot redefine primitive or reserved word: " ++ var)
  else
    val <~ ev e ;;
    env <~ get_env ;;
    existing <~ liftH (find var env) ;;
    _ <~ match existing with
         | Some _ => liftH (modify var val env)
         | None => env' <~ liftH (extend var val env) ;; set_env env'
         end ;;
    liftH VoidV.

Definition Let_eval (bind : list (string * Expr)) (body : Expr) : E Value :=
  vals <~ eval_args (map snd bind) ;;
  env <~ get_env ;;
  new_env <~ liftH (extend_all (map fst bind) vals env) ;;
  in_env new_env (ev body).

(** [for (binding : bind) new_env = extend(binding.first, nullptr, new_env)] *)
Fixpoint letrec_placeholders (bind : list (string * Expr)) (new_env : Assoc)
    : H Assoc :=
  match bind with
  | [] => retH new_env
  | binding :: rest =>
      env' <- extend (fst binding) None new_env ;;
      letrec_placeholders rest env'
  end.

(** [for (binding : bind) { val = binding.second->eval(new_env);
    modify(binding.first, val, new_env); }] *)
Fixpoint letrec_assign (bind : list (string * Expr)) : E unit :=
  match bind with
  | [] => retE tt
  | binding :: rest =>
      val <~ ev (snd binding) ;;
      new_env <~ get_env ;;
      _ <~ liftH (modify (fst binding) val new_env) ;;
      letrec_assign rest
  end.

Definition Letrec_eval (bind : list (string * Expr)) (body : Expr) : E Value :=
  env <~ get_env ;;
  new_env <~ liftH (letrec_placeholders bind env) ;;
  in_env new_env (_ <~ letrec_assign bind ;; ev body).

Definition Set_eval (var : string) (e : Expr) : E Value :=
  val <~ ev e ;;
  env <~ get_env ;;
  existing <~ liftH (find var env) ;;
  match existing with
  | None => throwE ("Undefined variable in set!: " ++ var)
  | Some _ => _ <~ liftH (modify var val env) ;; liftH VoidV
  end.

(** One level of the virtual dispatch [expr->eval(e)]. *)
Definition eval_node (ex : Expr) : E Value :=
  match ex with
  | Fixnum n => liftH (IntegerV n)
  | RationalNum p q => liftH (RationalV p q)
  | StringExpr s => liftH (StringV s)
  | True_ => liftH (BooleanV true)
  | False_ => liftH (BooleanV false)
  | MakeVoid => liftH VoidV
  | Exit => liftH TerminateV
  | Var x => Var_eval x
  | Unary op rand =>
      v <~ ev rand ;; liftH (Unary_evalRator op v)
  | Binary op rand1 rand2 =>
      v1 <~ ev rand1 ;; v2 <~ ev rand2 ;; liftH (Binary_evalRator op v1 v2)
  | Variadic op rands =>
      args <~ eval_args rands ;; liftH (Variadic_evalRator op args)
  | AndVar rands => AndVar_eval rands
  | OrVar rands => OrVar_eval rands
  | Begin es => Begin_eval es
  | Quote s => liftH (syntaxToValue s)
  | If cond conseq alter => If_eval cond conseq alter
  | Cond clauses => Cond_eval clauses
  | Lambda x e => env <~ get_env ;; liftH (ProcedureV x e env)
  | Apply rator rand => Apply_eval rator rand
  | Define var e => Define_eval var e
  | Let bind body => Let_eval bind body
  | Letrec bind body => Letrec_eval bind body
  | Set_ var e => Set_eval var e
  end.

End Eval_with.

(** [eval]: the recursion of the virtual calls, cut off after [fuel]
    nested calls.  The operands of a [Binary] node are evaluated from left
    to right (C++ leaves the order open). *)
Fixpoint eval (fuel : nat) (ex : Expr) {struct fuel} : E Value :=
  match fuel with
  | O => fun e s => (Timeout, e, s)
  | S fuel' => eval_node (eval fuel') ex
  end.

End Evaluator.

Section Parser.

Variable primitives : gmap string ExprType.
Variable reserved_words : gmap string ExprType.

(** The [switch] of the reserved-word branch, on the elements [tl] that
    follow the head symbol [op]. *)
Definition parse_reserved (parse : Syntax -> Res Expr) (op : string)
    (word : ExprType) (tl : list Syntax) : Res Expr :=
  match word with
  | E_BEGIN => exprs <-- parse_all parse tl ;; Ret (Begin exprs)
  | E_QUOTE =>
      match tl with
      | [datum] => Ret (Quote datum)
      | _ => Raise "Wrong number of arguments for quote"
      end
  | E_IF =>
      match tl with
      | [c; t; e] =>
          c' <-- parse c ;; t' <-- parse t ;; e' <-- parse e ;;
          Ret (If c' t' e')
      | _ => Raise "Wrong number of arguments for if"
      end
  | E_COND => clauses <-- parse_clauses parse tl ;; Ret (Cond clauses)
  | E_LAMBDA =>
      match tl with
      | List params_list :: ((_ :: _) as body) =>
          params <-- parse_params "lambda parameter must be a symbol" params_list ;;
          body_exprs <-- parse_all parse body ;;
          Ret (Lambda params (Begin body_exprs))
      | _ :: _ :: _ => Raise "lambda parameters must be a list"
      | _ => Raise "Wrong number of arguments for lambda"
      end
  | E_DEFINE =>
      match tl with
      | SymbolSyntax var_sym :: ((_ :: _) as body) =>
          body_exprs <-- parse_all parse body ;;
          Ret (Define var_sym (Begin body_exprs))
      | List (SymbolSyntax func_name :: ps) :: ((_ :: _) as body) =>
          params <-- parse_params "Function parameter must be a symbol" ps ;;
          body_exprs <-- parse_all parse body ;;
          Ret (Define func_name (Lambda params (Begin body_exprs)))
      | List (_ :: _) :: _ :: _ => Raise "Function name must be a symbol"
      | _ :: _ :: _ => Raise "Invalid define syntax"
      | _ => Raise "Wrong number of arguments for define"
      end
  | E_LET =>
      match tl with
      | List bindings_list :: ((_ :: _) as body) =>
          bindings <-- parse_bindings parse "let" bindings_list ;;
          body_exprs <-- parse_all parse body ;;
          Ret (Let bindings (Begin body_exprs))
      | _ :: _ :: _ => Raise "let bindings must be a list"
      | _ => Raise "Wrong number of arguments for let"
      end
  | E_LETREC =>
      match tl with
      | List bindings_list :: ((_ :: _) as body) =>
          bindings <-- parse_bindings parse "letrec" bindings_list ;;
          body_exprs <-- parse_all parse body ;;
          Ret (Letrec bindings (Begin body_exprs))
      | _ :: _ :: _ => Raise "letrec bindings must be a list"
      | _ => Raise "Wrong number of arguments for letrec"
      end
  | E_SET =>
      match tl with
      | [SymbolSyntax var_sym; e] => e' <-- parse e ;; Ret (Set_ var_sym e')
      | [_; _] => Raise "set! variable must be a symbol"
      | _ => Raise "Wrong number of arguments for set!"
      end
  | _ => Raise ("Unknown reserved word: " ++ op)
  end.

(** [find(op, env).get() != nullptr] *)
Definition bound (op : string) (env : Assoc) (s : Store) : Res bool :=
  match fst (find op env s) with
  | Ret (Some _) => Ret true
  | Ret None => Ret false
  | Raise msg => Raise msg
  | Undef => Undef
  | Timeout => Timeout
  end.

(** [Syntax::parse].  The parser reads the environment and never changes
    it.  Where several sub-parses are arguments of one constructor call
    they are taken from left to right. *)
Fixpoint parse (s : Store) (env : Assoc) (stx : Syntax) {struct stx} : Res Expr :=
  match stx with
  | Number n => Ret (Fixnum n)
  | RationalSyntax p q => Ret (RationalNum p q)
  | SymbolSyntax x => Ret (Var x)
  | StringSyntax x => Ret (StringExpr x)
  | TrueSyntax => Ret True_
  | FalseSyntax => Ret False_
  | List [] => Ret (Quote (List []))
  | List (hd :: tl) =>
      let apply :=
        parameters <-- parse_all (parse s env) tl ;;
        rator <-- parse s env hd ;;
        Ret (Apply rator parameters) in
      match hd with
      | SymbolSyntax op =>
          is_bound <-- bound op env s ;;
          if (is_bound : bool) then apply
          else
            match primitives !! op with
            | Some op_type =>
                parameters <-- parse_all (parse s env) tl ;;
                parse_primitive op op_type parameters
            | None =>
                match reserved_words !! op with
                | Some word => parse_reserved (parse s env) op word tl
                | None => apply
                end
            end
      | _ => apply
      end
  end.

End Parser.

(** ** Vocabulary of the specification *)

(** An Integer [n] stands for the fraction [n/1]. *)
Definition frac (o : ValueBase) : option (Z * Z) :=
  match o with
  | Integer n => Some (n, 1)
  | Rational p q => Some (p, q)
  | _ => None
  end.

(** The numeric fields of an object are [int]s. *)
Definition int_fields (o : ValueBase) : Prop :=
  match o with
  | Integer n => in_int n
  | Rational p q => in_int p /\ in_int q
  | _ => True
  end.

(** The invariant of Rational values. *)
Definition normalized (o : ValueBase) : Prop :=
  match o with
  | Rational p q => 1 < q /\ Z.gcd (Z.abs p) q = 1
  | _ => True
  end.

(** The fraction [num/den] divided through by the gcd, with the sign moved
    to the numerator. *)
Definition reduced (num den : Z) : Z * Z :=
  let g := Z.gcd num den in
  if den / g <? 0 then (- (num / g), - (den / g)) else (num / g, den / g).

(** The same with the numerator negated as an [int]. *)
Definition reduced32 (num den : Z) : Z * Z :=
  let g := Z.gcd num den in
  if den / g <? 0 then (wrap (- (num / g)), - (den / g)) else (num / g, den / g).

(** A fraction with denominator 1 is an Integer. *)
Definition number (pq : Z * Z) : ValueBase :=
  if snd pq =? 1 then Integer (fst pq) else Rational (fst pq) (snd pq).

(** The outcome of [expt] on the exact power [p]. *)
Definition power_result (p : Z) : Res Z :=
  if out_of_int p then Raise "Integer overflow in expt" else Ret p.

(** A left fold of a binary operation over the arguments that follow the
    first. *)
Definition left_fold (f : Value -> Value -> H Value) (a0 : Value)
    (rest : list Value) : H Value :=
  fold_left (fun acc x => r <- acc ;; f r x) rest (retH a0).

(** Modelled from the spec: the tables [primitives] and [reserved_words]
    of [Def.cpp], with the names of the specification.  [and] and [or] stand
    in the primitive table, where the parser handles their tags. *)
Definition sample_primitives : gmap string ExprType :=
  list_to_map
    [("+"%string, E_PLUS); ("-"%string, E_MINUS); ("*"%string, E_MUL);
     ("/"%string, E_DIV); ("modulo"%string, E_MODULO); ("expt"%string, E_EXPT);
     ("<"%string, E_LT); ("<="%string, E_LE); ("="%string, E_EQ);
     (">="%string, E_GE); (">"%string, E_GT);
     ("cons"%string, E_CONS); ("car"%string, E_CAR); ("cdr"%string, E_CDR);
     ("list"%string, E_LIST); ("set-car!"%string, E_SETCAR);
     ("set-cdr!"%string, E_SETCDR);
     ("not"%string, E_NOT); ("and"%string, E_AND); ("or"%string, E_OR);
     ("eq?"%string, E_EQQ); ("boolean?"%string, E_BOOLQ);
     ("number?"%string, E_INTQ); ("null?"%string, E_NULLQ);
     ("pair?"%string, E_PAIRQ); ("procedure?"%string, E_PROCQ);
     ("symbol?"%string, E_SYMBOLQ); ("list?"%string, E_LISTQ);
     ("string?"%string, E_STRINGQ);
     ("void"%string, E_VOID); ("exit"%string, E_EXIT);
     ("display"%string, E_DISPLAY)].

(** Modelled from the spec: the table [reserved_words] of [Def.cpp]. *)
Definition sample_reserved_words : gmap string ExprType :=
  list_to_map
    [("begin"%string, E_BEGIN); ("quote"%string, E_QUOTE); ("if"%string, E_IF);
     ("cond"%string, E_COND); ("lambda"%string, E_LAMBDA);
     ("define"%string, E_DEFINE); ("let"%string, E_LET);
     ("letrec"%string, E_LETREC); ("set!"%string, E_SET)].

(** The arities of the primitives. *)
Inductive Arity :=
| Exactly (n : nat)
| AnyNumber
| TwoOrVariadic
| NotPrimitive.

Definition arity_of (t : ExprType) : Arity :=
  match t with
  | E_MODULO | E_EXPT | E_CONS | E_SETCAR | E_SETCDR | E_EQQ => Exactly 2
  | E_CAR | E_CDR | E_NOT | E_BOOLQ | E_INTQ | E_NULLQ | E_PAIRQ | E_PROCQ
  | E_SYMBOLQ | E_LISTQ | E_STRINGQ | E_DISPLAY => Exactly 1
  | E_VOID | E_EXIT => Exactly 0
  | E_LIST | E_AND | E_OR => AnyNumber
  | E_PLUS | E_MINUS | E_MUL | E_DIV
  | E_LT | E_LE | E_EQ | E_GE | E_GT => TwoOrVariadic
  | _ => NotPrimitive
  end.

(** The binary and the variadic node of an arithmetic or comparison
    operator. *)
Definition nodes_of (t : ExprType) : option (BinaryOp * VariadicOp) :=
  match t with
  | E_PLUS => Some (Plus, PlusVar)
  | E_MINUS => Some (Minus, MinusVar)
  | E_MUL => Some (Mult, MultVar)
  | E_DIV => Some (Div, DivVar)
  | E_LT => Some (Less, LessVar)
  | E_LE => Some (LessEq, LessEqVar)
  | E_EQ => Some (Equal, EqualVar)
  | E_GE => Some (GreaterEq, GreaterEqVar)
  | E_GT => Some (Greater, GreaterVar)
  | _ => None
  end.

(** What the parser owes for a primitive of tag [t] applied to the parsed
    arguments [parameters]. *)
Definition arity_outcome (op : string) (t : ExprType) (parameters : list Expr)
    (result : Res Expr) : Prop :=
  match arity_of t with
  | Exactly 2 =>
      match parameters with
      | [p0; p1] => exists b, result = Ret (Binary b p0 p1)
      | _ => exists msg, result = Raise msg
      end
  | Exactly 1 =>
      match parameters with
      | [p0] => exists u, result = Ret (Unary u p0)
      | _ => exists msg, result = Raise msg
      end
  | Exactly _ =>
      match parameters with
      | [] => result = Ret MakeVoid \/ result = Ret Exit
      | _ => exists msg, result = Raise msg
      end
  | AnyNumber =>
      result = Ret (Variadic ListFunc parameters) \/
      result = Ret (AndVar parameters) \/ result = Ret (OrVar parameters)
  | TwoOrVariadic =>
      exists b v, nodes_of t = Some (b, v) /\
        match parameters with
        | [p0; p1] => result = Ret (Binary b p0 p1)
        | _ => result = Ret (Variadic v parameters)
        end
  | NotPrimitive => result = Raise ("Unknown primitive: " ++ op)
  end.

(** [run ev falsy es e s vs e' s']: the expressions [es] are evaluated from
    left to right, from the environment [e] and the store [s]; each returns
    a value, which is #f when [falsy] holds and anything but #f otherwise;
    [vs] are the values and [e'], [s'] what the last evaluation leaves. *)
Inductive run (ev : Expr -> E Value) (falsy : bool)
  : list Expr -> Assoc -> Store -> list Value -> Assoc -> Store -> Prop :=
| run_nil e s : run ev falsy [] e s [] e s
| run_cons x rest e s v o e1 s1 vs e2 s2 :
    ev x e s = (Ret v, e1, s1) ->
    deref v s1 = (Ret o, s1) ->
    is_false o = falsy ->
    run ev falsy rest e1 s1 vs e2 s2 ->
    run ev falsy (x :: rest) e s (v :: vs) e2 s2.

(** [skipped ev clauses e s e' s']: every clause of [clauses] is passed
    over, from the environment [e] and the store [s] to [e'] and [s']: it
    is empty, or its test is not the variable else and evaluates to #f. *)
Inductive skipped (ev : Expr -> E Value)
  : list (list Expr) -> Assoc -> Store -> Assoc -> Store -> Prop :=
| skipped_nil e s : skipped ev [] e s e s
| skipped_empty more e s e' s' :
    skipped ev more e s e' s' -> skipped ev ([] :: more) e s e' s'
| skipped_false test rest more e s v e1 s1 e' s' :
    is_else test = false ->
    ev test e s = (Ret v, e1, s1) ->
    deref v s1 = (Ret (Boolean false), s1) ->
    skipped ev more e1 s1 e' s' ->
    skipped ev ((test :: rest) :: more) e s e' s'.

(** The bindings [extend] makes for [names], one after the other, in a store
    [s]: each name gets the next fresh cell, the last name is innermost. *)
Definition fresh_bindings (names : list string) (s : Store) : Assoc :=
  rev (zip names (seq (length (cells s)) (length names))).

(** [assigned ev bind env s env' s']: the right-hand sides of [bind] are
    evaluated in turn in the current environment, starting with [env] and
    [s], and each result is written by [modify] into the cell of its name. *)
Inductive assigned (ev : Expr -> E Value)
  : list (string * Expr) -> Assoc -> Store -> Assoc -> Store -> Prop :=
| assigned_nil env s : assigned ev [] env s env s
| assigned_cons x rhs rest env s v env1 s1 env' s' :
    ev rhs env s = (Ret v, env1, s1) ->
    assigned ev rest env1 (snd (modify x v env1 s1)) env' s' ->
    assigned ev ((x, rhs) :: rest) env s env' s'.

(** The bindings of a [letrec] all of whose right-hand sides are lambdas,
    from the list of (name, (parameters, body)). *)
Definition lambda_bindings (defs : list (string * (list string * Expr)))
    : list (string * Expr) :=
  map (fun d => (fst d, Lambda (fst (snd d)) (snd (snd d)))) defs.

(** The closures of these lambdas over the environment [env]. *)
Definition closures (env : Assoc) (defs : list (string * (list string * Expr)))
    : list ValueBase :=
  map (fun d => Procedure (fst (snd d)) (snd (snd d)) env) defs.

(** The pointers to [n] objects allocated one after the other from
    address [base]. *)
Definition pointers (base n : nat) : list Value :=
  map (fun i => Some (base + i)%nat) (seq 0 n).

(** (letrec ((even? (lambda (n) (if (= n 0) #t (odd? (- n 1)))))
             (odd? (lambda (n) (if (= n 0) #f (even? (- n 1))))))
      (even? 10)), as the parser builds it. *)
Definition even_odd_defs : list (string * (list string * Expr)) :=
  [("even?"%string,
    (["n"%string],
     Begin [If (Binary Equal (Var "n") (Fixnum 0)) True_
              (Apply (Var "odd?") [Binary Minus (Var "n") (Fixnum 1)])]));
   ("odd?"%string,
    (["n"%string],
     Begin [If (Binary Equal (Var "n") (Fixnum 0)) False_
              (Apply (Var "even?") [Binary Minus (Var "n") (Fixnum 1)])]))].

Definition even_odd_program : Expr :=
  Letrec (lambda_bindings even_odd_defs)
    (Begin [Apply (Var "even?") [Fixnum 10]]).

(** ** Vocabulary of the further properties *)

(** The relation a variadic comparison tests, on the outcome of
    [compareNumericValues]. *)
Definition holds (op : VariadicOp) (c : Z) : bool :=
  match op with
  | LessVar => c <? 0
  | LessEqVar => c <=? 0
  | EqualVar => c =? 0
  | GreaterEqVar => 0 <=? c
  | GreaterVar => 0 <? c
  | _ => false
  end.

(** The variadic nodes of the five comparisons. *)
Definition is_comparison (op : VariadicOp) : bool :=
  match op with
  | LessVar | LessEqVar | EqualVar | GreaterEqVar | GreaterVar => true
  | _ => false
  end.

(** The pairs of neighbours of a list. *)
Definition adjacent {A} (l : list A) : list (A * A) := zip l (tail l).

(** The sign of [a/b - c/d] for positive denominators. *)
Definition cross (xy : (Z * Z) * (Z * Z)) : Z :=
  Z.sgn (fst (fst xy) * snd (snd xy) - fst (snd xy) * snd (fst xy)).

(** The two cross products of a pair of fractions are [int]s. *)
Definition cross_in_int (xy : (Z * Z) * (Z * Z)) : Prop :=
  in_int (fst (fst xy) * snd (snd xy)) /\ in_int (fst (snd xy) * snd (fst xy)).

(** [v] points to a number that stands for the fraction [f]. *)
Definition points_to_frac (s : Store) (v : Value) (f : Z * Z) : Prop :=
  exists o, deref v s = (Ret o, s) /\ frac o = Some f.

(** [chain s v vs o]: in the store [s] the pointer [v] heads a chain of
    pairs whose cars are [vs], and the cdr of the last pair (or [v] itself
    when [vs] is empty) points to the object [o], which is no pair. *)
Inductive chain (s : Store) : Value -> list Value -> ValueBase -> Prop :=
| chain_end v o :
    deref v s = (Ret o, s) -> (forall a d, o <> Pair a d) -> chain s v [] o
| chain_pair v a d vs o :
    deref v s = (Ret (Pair a d), s) -> chain s d vs o ->
    chain s v (a :: vs) o.

(** [s'] has the objects of [s] at their addresses, and maybe more; cells
    and output are those of [s]. *)
Definition grows (s s' : Store) : Prop :=
  (exists new, objs s' = objs s ++ new) /\ cells s' = cells s /\ out s' = out s.

(** [datum s stx v]: the object [v] points to in [s] has the shape of the
    datum [stx]. *)
Fixpoint datum (s : Store) (stx : Syntax) (v : Value) {struct stx} : Prop :=
  match stx with
  | Number n => deref v s = (Ret (Integer n), s)
  | RationalSyntax p q => deref v s = (Ret (Rational p q), s)
  | SymbolSyntax x => deref v s = (Ret (Symbol x), s)
  | StringSyntax x => deref v s = (Ret (String_ x), s)
  | TrueSyntax => deref v s = (Ret (Boolean true), s)
  | FalseSyntax => deref v s = (Ret (Boolean false), s)
  | List stxs =>
      (fix elements (l : list Syntax) (v : Value) : Prop :=
         match l with
         | [] => deref v s = (Ret Null, s)
         | x :: rest =>
             exists a d, deref v s = (Ret (Pair a d), s) /\
                         datum s x a /\ elements rest d
         end) stxs v
  end.

(** The empty list. *)
Definition is_null (o : ValueBase) : bool :=
  match o with
  | Null => true
  | _ => false
  end.

(** The reserved words that count their operands: the name in the error
    message, the number of operands, and whether more are accepted. *)
Definition operands_of (word : ExprType) : option (string * nat * bool) :=
  match word with
  | E_QUOTE => Some ("quote"%string, 1%nat, false)
  | E_IF => Some ("if"%string, 3%nat, false)
  | E_SET => Some ("set!"%string, 2%nat, false)
  | E_LAMBDA => Some ("lambda"%string, 2%nat, true)
  | E_DEFINE => Some ("define"%string, 2%nat, true)
  | E_LET => Some ("let"%string, 2%nat, true)
  | E_LETREC => Some ("letrec"%string, 2%nat, true)
  | _ => None
  end.


(** The object [o'] found where [o] was: a pair may have got other
    fields, any other object is the same. *)
Definition same_kind (o o' : ValueBase) : Prop :=
  match o with
  | Pair _ _ => exists a d, o' = Pair a d
  | _ => o' = o
  end.

(** [frame s s']: every object of [s] is still at its address in [s'],
    with its content unless it is a pair; no cell has been removed; the
    output of [s] is the beginning of that of [s']. *)
Definition frame (s s' : Store) : Prop :=
  (forall l o, objs s !! l = Some o ->
     exists o', objs s' !! l = Some o' /\ same_kind o o') /\
  (length (cells s) <= length (cells s'))%nat /\
  (exists more, out s' = out s ++ more).

(** A computation that, from any store, ends in a store framed by it;
    for the store monad and for the evaluator monad. *)
Definition Hinv {A} (m : H A) : Prop := forall s, frame s (snd (m s)).
Definition Einv {A} (m : E A) : Prop := forall e s, frame s (snd (m e s)).

(** A pointer to a live object. *)
Definition valid (s : Store) (v : Value) : Prop :=
  exists l, v = Some l /\ (l < length (objs s))%nat.

(** Every binding of the environment has its cell. *)
Definition wf_env (s : Store) (e : Assoc) : Prop :=
  Forall (fun xc => (snd xc < length (cells s))%nat) e.

(** The pointers an object holds are live. *)
Definition wf_obj (s : Store) (o : ValueBase) : Prop :=
  match o with
  | Pair a d => valid s a /\ valid s d
  | Procedure _ _ env => wf_env s env
  | _ => True
  end.

(** A cell holds the null pointer (a [letrec] variable without its value)
    or a live object. *)
Definition wf_cell (s : Store) (v : Value) : Prop := v = None \/ valid s v.

(** A store without dangling pointers. *)
Definition wf (s : Store) : Prop :=
  Forall (wf_obj s) (objs s) /\ Forall (wf_cell s) (cells s).

(** [m] run from [s] keeps the frame and the well-formedness of the
    store, does not touch a dead pointer, and what it returns has [P]. *)
Definition Hok {A} (P : Store -> A -> Prop) (m : H A) (s : Store) : Prop :=
  frame s (snd (m s)) /\ wf (snd (m s)) /\
  match fst (m s) with
  | Ret a => P (snd (m s)) a
  | Undef => False
  | _ => True
  end.

(** The same for the evaluator monad, run from the environment [e]: the
    environment it leaves has its cells as well. *)
Definition Eok {A} (P : Store -> A -> Prop) (m : E A) (e : Assoc) (s : Store)
    : Prop :=
  frame s (snd (m e s)) /\ wf (snd (m e s)) /\
  wf_env (snd (m e s)) (snd (fst (m e s))) /\
  match fst (fst (m e s)) with
  | Ret a => P (snd (m e s)) a
  | Undef => False
  | _ => True
  end.

(** [evaluated ev es e s vs e' s']: the expressions [es] are evaluated one
    after the other from left to right, the first from the environment [e]
    and the store [s], each next one from what its predecessor left; every
    one returns a value; [vs] are the values in the order of [es], and [e'],
    [s'] are what the last evaluation leaves. *)
Inductive evaluated (ev : Expr -> E Value)
  : list Expr -> Assoc -> Store -> list Value -> Assoc -> Store -> Prop :=
| evaluated_nil e s : evaluated ev [] e s [] e s
| evaluated_cons x rest e s v e1 s1 vs e2 s2 :
    ev x e s = (Ret v, e1, s1) ->
    evaluated ev rest e1 s1 vs e2 s2 ->
    evaluated ev (x :: rest) e s (v :: vs) e2 s2.

(** The type predicates, in the order boolean?, number?, null?, pair?,
    procedure?, symbol?, string?. *)
Definition type_predicates : list UnaryOp :=
  [IsBoolean; IsFixnum; IsNull; IsPair; IsProcedure; IsSymbol; IsString].

(** The objects no type predicate recognises. *)
Definition untyped (o : ValueBase) : bool :=
  match o with
  | Rational _ _ | Void | Terminate => true
  | _ => false
  end.

(** * Properties *)

(** ** Machine integers *)

Lemma wrap_id z : in_int z -> wrap z = z.
Proof.
  unfold in_int, INT_MIN, INT_MAX, wrap. intros Hz.
  rewrite Z.mod_small; lia.
Qed.

Lemma wrap_range z : in_int (wrap z).
Proof.
  unfold in_int, INT_MIN, INT_MAX, wrap.
  pose proof (Z.mod_pos_bound (z + 2147483648) 4294967296). lia.
Qed.

Lemma in_sym_int z : in_sym z -> in_int z.
Proof. unfold in_sym, in_int, INT_MIN, INT_MAX. lia. Qed.

Lemma wrap_sym z : in_sym z -> wrap z = z.
Proof. intros Hz. now apply wrap_id, in_sym_int. Qed.

Lemma abs_wrap_opp z : in_int z -> Z.abs (wrap (- z)) = Z.abs z.
Proof.
  intros Hz. destruct (Z.eq_dec z INT_MIN) as [->|Hne].
  - reflexivity.
  - rewrite wrap_id; [apply Z.abs_opp|].
    unfold in_int, INT_MIN, INT_MAX in *. lia.
Qed.

Lemma wrap64_id z :
  - 9223372036854775808 <= z < 9223372036854775808 -> wrap64 z = z.
Proof. unfold wrap64. intros Hz. rewrite Z.mod_small; lia. Qed.

Lemma out_of_int_false z : out_of_int z = false <-> in_int z.
Proof. unfold out_of_int, in_int. rewrite orb_false_iff. lia. Qed.

Lemma out_of_int_true z : out_of_int z = true <-> ~ in_int z.
Proof. unfold out_of_int, in_int. rewrite orb_true_iff. lia. Qed.

Lemma in_int_abs z : in_int z -> Z.abs z <= 2147483648.
Proof. unfold in_int, INT_MIN, INT_MAX. lia. Qed.

(** The product of two [int]s fits a [long long]. *)
Lemma wrap64_mul a b :
  Z.abs a <= 2147483648 -> Z.abs b <= 2147483648 -> wrap64 (a * b) = a * b.
Proof.
  intros Ha Hb. apply wrap64_id.
  assert (Z.abs (a * b) <= 2147483648 * 2147483648).
  { rewrite Z.abs_mul. apply Z.mul_le_mono_nonneg; lia. }
  lia.
Qed.

(** ** Exponentiation by squaring *)

Lemma sq_pow_ge_1 b k : b <> 0 -> 0 <= k -> 1 <= (b * b) ^ k.
Proof.
  intros Hb Hk. assert (1 <= b * b) by nia.
  replace 1 with (1 ^ k) by apply Z.pow_1_l, Hk.
  apply Z.pow_le_mono_l. lia.
Qed.

Lemma sq_pow_ge_sq b k : b <> 0 -> 1 <= k -> b * b <= (b * b) ^ k.
Proof.
  intros Hb Hk. assert (1 <= b * b) by nia.
  replace (b * b) with ((b * b) ^ 1) at 1 by apply Z.pow_1_r.
  apply Z.pow_le_mono_r; lia.
Qed.

(** No [int] squares to 2^31: a square that leaves the [int] range
    exceeds 2^31. *)
Lemma sq_not_2_31 b : in_int (b * b) \/ 2147483648 < b * b.
Proof.
  unfold in_int, INT_MIN, INT_MAX.
  destruct (Z_le_gt_dec (Z.abs b) 46340).
  - left. nia.
  - right. nia.
Qed.

Lemma pow_split b k r :
  0 <= k -> 0 <= r -> b ^ (2 * k + r) = b ^ r * (b * b) ^ k.
Proof.
  intros Hk Hr. rewrite Z.pow_add_r, Z.pow_mul_r by lia.
  rewrite Z.pow_2_r. ring.
Qed.

Lemma power_result_out p :
  ~ in_int p -> power_result p = Raise "Integer overflow in expt".
Proof.
  intros Hp. unfold power_result. apply out_of_int_true in Hp. now rewrite Hp.
Qed.

Lemma power_result_in p : in_int p -> power_result p = Ret p.
Proof.
  intros Hp. unfold power_result. apply out_of_int_false in Hp. now rewrite Hp.
Qed.

Lemma expt_loop_S n result b exp :
  expt_loop (S n) result b exp =
    if exp >? 0 then
      let result' := if Z.rem exp 2 =? 1 then wrap64 (result * b) else result in
      if (Z.rem exp 2 =? 1) && out_of_int result'
      then Raise "Integer overflow in expt"
      else
        let b' := wrap64 (b * b) in
        if out_of_int b' && (exp >? 1)
        then Raise "Integer overflow in expt"
        else expt_loop n result' b' (Z.quot exp 2)
    else Ret result.
Proof. reflexivity. Qed.

Section Expt_loop.

Variable n : nat.

(** The loop is right for exponents of [n] bits. *)
Hypothesis IH : forall result b exp,
  0 <= exp < 2 ^ Z.of_nat n -> in_int result ->
  (0 < exp -> in_int b) -> (result <> 0 \/ b = 0) ->
  expt_loop (S n) result b exp = power_result (result * b ^ exp).

(** The second half of a round, once [result] has absorbed the low bit
    of [exp]: [b] is squared and the loop goes on with [k = exp / 2]. *)
Lemma expt_round x b k exp :
  0 <= k < 2 ^ Z.of_nat n -> (1 <= k <-> 1 < exp) ->
  in_int x -> in_int b -> (x <> 0 \/ b = 0) ->
  (if out_of_int (b * b) && (exp >? 1)
   then Raise "Integer overflow in expt"
   else expt_loop (S n) x (b * b) k) = power_result (x * (b * b) ^ k).
Proof.
  intros Hk Hke Hx Hb Hnz.
  destruct (out_of_int (b * b) && (exp >? 1)) eqn:Hov.
  - apply andb_true_iff in Hov as [Hbb Hexp].
    apply out_of_int_true in Hbb.
    assert (Hk1 : 1 <= k) by (apply Hke; lia).
    assert (Hb0 : b <> 0).
    { intros ->. apply Hbb. unfold in_int, INT_MIN, INT_MAX. lia. }
    assert (Hx0 : x <> 0) by (destruct Hnz; congruence).
    pose proof (sq_pow_ge_sq b k Hb0 Hk1) as Hge.
    destruct (sq_not_2_31 b) as [|Hbig]; [contradiction|].
    symmetry. apply power_result_out. unfold in_int, INT_MIN, INT_MAX. nia.
  - apply IH; try lia; try assumption.
    intros Hk0. apply andb_false_iff in Hov as [Hbb|Hexp].
    + now apply out_of_int_false.
    + assert (1 < exp) by (apply Hke; lia). lia.
Qed.

End Expt_loop.

Lemma expt_loop_spec n : forall result b exp,
  0 <= exp < 2 ^ Z.of_nat n ->
  in_int result ->
  (0 < exp -> in_int b) ->
  (result <> 0 \/ b = 0) ->
  expt_loop (S n) result b exp = power_result (result * b ^ exp).
Proof.
  induction n as [|n IH]; intros result b exp Hexp Hres Hb Hnz.
  - assert (exp = 0) by (simpl in Hexp; lia). subst exp.
    simpl. rewrite Z.mul_1_r. symmetry. now apply power_result_in.
  - rewrite expt_loop_S. cbv zeta. destruct (exp >? 0) eqn:Hpos.
    2:{ assert (exp = 0) by lia. subst exp.
        rewrite Z.pow_0_r, Z.mul_1_r. symmetry. now apply power_result_in. }
    assert (Hexp0 : 0 < exp) by lia. specialize (Hb Hexp0).
    set (k := Z.quot exp 2).
    assert (Hk : 0 <= k /\ exp = 2 * k + Z.rem exp 2 /\ 0 <= Z.rem exp 2 < 2).
    { unfold k. pose proof (Z.quot_rem' exp 2).
      pose proof (Z.rem_bound_pos exp 2). pose proof (Z.quot_pos exp 2). lia. }
    destruct Hk as (Hk0 & Hk1 & Hk2).
    assert (Hk3 : k < 2 ^ Z.of_nat n).
    { rewrite Nat2Z.inj_succ, Z.pow_succ_r in Hexp by lia. lia. }
    rewrite (wrap64_mul b b) by now apply in_int_abs.
    rewrite (wrap64_mul result b) by now apply in_int_abs.
    assert (Hpw : b ^ exp = b ^ Z.rem exp 2 * (b * b) ^ k).
    { rewrite <- pow_split by lia. now rewrite <- Hk1. }
    rewrite Hpw.
    destruct (Z.rem exp 2 =? 1) eqn:Hodd.
    + assert (Hr : Z.rem exp 2 = 1) by lia. rewrite Hr, Z.pow_1_r.
      cbn [andb]. destruct (out_of_int (result * b)) eqn:Hov.
      * apply out_of_int_true in Hov.
        assert (Hb0 : b <> 0).
        { intros ->. apply Hov. unfold in_int, INT_MIN, INT_MAX. lia. }
        pose proof (sq_pow_ge_1 b k Hb0 Hk0).
        symmetry. apply power_result_out.
        unfold in_int, INT_MIN, INT_MAX in *. nia.
      * apply out_of_int_false in Hov.
        rewrite Z.mul_assoc.
        apply expt_round; try assumption; try lia.
    + assert (Hr : Z.rem exp 2 = 0) by lia. rewrite Hr, Z.pow_0_r, Z.mul_1_l.
      cbn [andb].
      apply expt_round; try assumption; lia.
Qed.

(** C5. [expt] takes two Integers (anything else raises "Wrong typename").
    A negative exponent raises an error, 0^0 raises "0^0 is undefined", a
    power outside the 32-bit signed range raises "Integer overflow in
    expt", and every other call returns a fresh Integer holding the exact
    power [base ^ exponent]. *)
Theorem Expt_evalRator_spec (s : Store) (rand1 rand2 : Value)
    (o1 o2 : ValueBase) :
  deref rand1 s = (Ret o1, s) -> deref rand2 s = (Ret o2, s) ->
  int_fields o1 -> int_fields o2 ->
  Expt_evalRator rand1 rand2 s =
    match o1, o2 with
    | Integer base, Integer exponent =>
        if exponent <? 0
        then (Raise "Negative exponent not supported for integers", s)
        else if (base =? 0) && (exponent =? 0)
        then (Raise "0^0 is undefined", s)
        else if out_of_int (base ^ exponent)
        then (Raise "Integer overflow in expt", s)
        else alloc (Integer (base ^ exponent)) s
    | _, _ => (Raise "Wrong typename", s)
    end.
Proof.
  intros H1 H2 Hf1 Hf2. unfold Expt_evalRator, bindH. rewrite H1, H2.
  destruct o1 as [base| | | | | | | | |]; try reflexivity;
    destruct o2 as [exponent| | | | | | | | |]; try reflexivity.
  cbn in Hf1, Hf2.
  destruct (exponent <? 0) eqn:Hneg; [reflexivity|].
  destruct ((base =? 0) && (exponent =? 0)) eqn:Hzero; [reflexivity|].
  unfold liftR. change 32%nat with (S 31).
  rewrite expt_loop_spec.
  - rewrite Z.mul_1_l. unfold power_result.
    destruct (out_of_int (base ^ exponent)) eqn:Hov; [reflexivity|].
    apply out_of_int_false in Hov. unfold IntegerV. now rewrite wrap_id.
  - unfold in_int, INT_MIN, INT_MAX in Hf2. simpl. lia.
  - unfold in_int, INT_MIN, INT_MAX. lia.
  - auto.
  - left. lia.
Qed.

(** (expt 2 10) is 1024. *)
Lemma Expt_evalRator_spec_witness :
  Expt_evalRator (Some 0%nat) (Some 1%nat) (mkStore [Integer 2; Integer 10] [] [])
  = (Ret (Some 2%nat), mkStore [Integer 2; Integer 10; Integer 1024] [] []).
Proof.
  rewrite (Expt_evalRator_spec _ _ _ (Integer 2) (Integer 10));
    [reflexivity | reflexivity | reflexivity
    | unfold int_fields, in_int, INT_MIN, INT_MAX; lia
    | unfold int_fields, in_int, INT_MIN, INT_MAX; lia].
Defined.

(** ** Normalization *)

Lemma gcd_quotients num den :
  den <> 0 ->
  let g := Z.gcd num den in
  0 < g /\ g <= Z.abs den /\ num = num / g * g /\ den = den / g * g /\
  Z.gcd (num / g) (den / g) = 1 /\ den / g <> 0 /\
  Z.abs (num / g) <= Z.abs num /\ Z.abs (den / g) <= Z.abs den.
Proof.
  intros Hden g.
  assert (Hg0 : 0 < g).
  { pose proof (Z.gcd_nonneg num den) as Hge.
    destruct (Z.eq_dec g 0) as [Hg|]; [|unfold g in *; lia].
    apply Z.gcd_eq_0_r in Hg. contradiction. }
  destruct (Z.gcd_divide_l num den) as [a Ha].
  destruct (Z.gcd_divide_r num den) as [b Hb].
  fold g in Ha, Hb.
  assert (Hna : num / g = a) by (rewrite Ha at 1; apply Z.div_mul; lia).
  assert (Hdb : den / g = b) by (rewrite Hb at 1; apply Z.div_mul; lia).
  rewrite Hna, Hdb.
  assert (Hb0 : b <> 0) by (intros ->; lia).
  repeat split; try assumption.
  - rewrite Hb at 1. rewrite Z.abs_mul. rewrite (Z.abs_eq g) by lia. nia.
  - rewrite <- Hna, <- Hdb. apply Z.gcd_div_gcd; [lia|reflexivity].
  - rewrite Ha at 1. rewrite Z.abs_mul. rewrite (Z.abs_eq g) by lia. nia.
  - rewrite Hb at 1. rewrite Z.abs_mul. rewrite (Z.abs_eq g) by lia. nia.
Qed.

Lemma normalize_run num den s :
  in_int num -> in_sym den -> den <> 0 ->
  normalize num den s = alloc (number (reduced32 num den)) s.
Proof.
  intros Hnum Hden Hnz.
  destruct (gcd_quotients num den Hnz) as (Hg0 & Hgle & Ha & Hb & Hco & Hb0 & Hale & Hble).
  unfold normalize, gcd, reduced32, number.
  set (g := Z.gcd num den) in *.
  assert (Hwg : wrap g = g).
  { apply wrap_id. unfold in_sym, in_int, INT_MIN, INT_MAX in *. lia. }
  rewrite Hwg.
  assert (Hg : (g =? 0) = false) by lia. rewrite Hg.
  assert (Hq1 : Z.quot num g = num / g).
  { rewrite Ha at 1. apply Z.quot_mul. lia. }
  assert (Hq2 : Z.quot den g = den / g).
  { rewrite Hb at 1. apply Z.quot_mul. lia. }
  rewrite Hq1, Hq2.
  assert (Hwa : wrap (num / g) = num / g).
  { apply wrap_id. unfold in_int, INT_MIN, INT_MAX in *. lia. }
  assert (Hwb : wrap (den / g) = den / g).
  { apply wrap_id. unfold in_sym, in_int, INT_MIN, INT_MAX in *. lia. }
  rewrite Hwa, Hwb.
  destruct (den / g <? 0) eqn:Hneg; cbn [fst snd].
  - assert (Hwn : wrap (- (den / g)) = - (den / g)).
    { apply wrap_id. unfold in_sym, in_int, INT_MIN, INT_MAX in *. lia. }
    rewrite Hwn. destruct (- (den / g) =? 1); reflexivity.
  - destruct (den / g =? 1); reflexivity.
Qed.

Lemma reduced32_normalized num den :
  in_int num -> den <> 0 -> normalized (number (reduced32 num den)).
Proof.
  intros Hnum Hnz.
  destruct (gcd_quotients num den Hnz) as (Hg0 & Hgle & Ha & Hb & Hco & Hb0 & Hale & Hble).
  unfold reduced32, number.
  set (g := Z.gcd num den) in *.
  assert (Hia : in_int (num / g)).
  { unfold in_int, INT_MIN, INT_MAX in *. lia. }
  destruct (den / g <? 0) eqn:Hneg; cbn [fst snd].
  - destruct (- (den / g) =? 1) eqn:H1; cbn; [exact I|].
    split; [lia|].
    rewrite abs_wrap_opp by assumption.
    rewrite Z.gcd_abs_l, Z.gcd_opp_r. exact Hco.
  - destruct (den / g =? 1) eqn:H1; cbn; [exact I|].
    split; [lia|]. rewrite Z.gcd_abs_l. exact Hco.
Qed.

Lemma reduced32_exact num den :
  in_sym num -> den <> 0 -> reduced32 num den = reduced num den.
Proof.
  intros Hnum Hnz.
  destruct (gcd_quotients num den Hnz) as (Hg0 & Hgle & Ha & Hb & Hco & Hb0 & Hale & Hble).
  unfold reduced32, reduced.
  destruct (_ <? 0); [|reflexivity].
  rewrite wrap_id; [reflexivity|].
  unfold in_sym, in_int, INT_MIN, INT_MAX in *. lia.
Qed.

(** [reduced] is the fraction [num/den] in lowest terms with a positive
    denominator. *)
Lemma reduced_spec num den :
  den <> 0 ->
  0 < snd (reduced num den) /\
  Z.gcd (fst (reduced num den)) (snd (reduced num den)) = 1 /\
  fst (reduced num den) * den = snd (reduced num den) * num.
Proof.
  intros Hnz.
  destruct (gcd_quotients num den Hnz) as (Hg0 & Hgle & Ha & Hb & Hco & Hb0 & Hale & Hble).
  unfold reduced. set (g := Z.gcd num den) in *.
  destruct (den / g <? 0) eqn:Hneg; cbn [fst snd].
  - split; [lia|]. split.
    + now rewrite Z.gcd_opp_l, Z.gcd_opp_r.
    + rewrite Hb at 1. rewrite Ha at 2. ring.
  - split; [lia|]. split; [exact Hco|].
    rewrite Hb at 1. rewrite Ha at 2. ring.
Qed.

(** [normalize] always returns a fresh object. *)
Lemma normalize_total num den s : exists o, normalize num den s = alloc o s.
Proof.
  unfold normalize. cbv zeta.
  match goal with |- context [if ?c =? 1 then _ else _] => destruct (c =? 1) end;
    eexists; reflexivity.
Qed.

Lemma wrap_add_l x y : wrap (wrap x + y) = wrap (x + y).
Proof.
  unfold wrap.
  replace ((x + 2147483648) mod 4294967296 - 2147483648 + y + 2147483648)
    with ((x + 2147483648) mod 4294967296 + y) by ring.
  rewrite Zplus_mod_idemp_l.
  now replace (x + 2147483648 + y) with (x + y + 2147483648) by ring.
Qed.

Lemma wrap_add_r x y : wrap (x + wrap y) = wrap (x + y).
Proof. now rewrite Z.add_comm, wrap_add_l, Z.add_comm. Qed.

Lemma wrap_opp z : wrap (- wrap z) = wrap (- z).
Proof.
  unfold wrap.
  replace (- ((z + 2147483648) mod 4294967296 - 2147483648) + 2147483648)
    with (4294967296 - (z + 2147483648) mod 4294967296) by ring.
  rewrite Zminus_mod_idemp_r.
  now replace (4294967296 - (z + 2147483648)) with (- z + 2147483648) by ring.
Qed.

Lemma wrap_sub_l x y : wrap (wrap x - y) = wrap (x - y).
Proof. unfold Z.sub. apply wrap_add_l. Qed.

Lemma wrap_sub_r x y : wrap (x - wrap y) = wrap (x - y).
Proof.
  unfold Z.sub. rewrite <- wrap_add_r, wrap_opp, wrap_add_r. reflexivity.
Qed.

Lemma normalize_integer x s : in_int x -> normalize x 1 s = IntegerV x s.
Proof.
  intros Hx. unfold normalize, gcd. rewrite Z.gcd_1_r.
  change (wrap 1) with 1. cbn [Z.eqb]. rewrite !Z.quot_1_r.
  change (wrap 1) with 1. cbn. now rewrite wrap_id.
Qed.

Section Arithmetic.

Variables (s : Store) (v1 v2 : Value) (o1 o2 : ValueBase) (a b c d : Z).
Hypothesis H1 : deref v1 s = (Ret o1, s).
Hypothesis H2 : deref v2 s = (Ret o2, s).
Hypothesis F1 : frac o1 = Some (a, b).
Hypothesis F2 : frac o2 = Some (c, d).
Hypothesis I1 : int_fields o1.
Hypothesis I2 : int_fields o2.

Ltac numeric_cases :=
  rewrite H1, H2;
  destruct o1; try discriminate; destruct o2; try discriminate;
  cbn in F1, F2, I1, I2;
  injection F1 as <- <-; injection F2 as <- <-;
  rewrite ?Z.mul_1_r, ?Z.mul_1_l.

Lemma addValues_run :
  addValues v1 v2 s = normalize (wrap (a * d + c * b)) (wrap (b * d)) s.
Proof.
  unfold addValues, bindH. numeric_cases.
  - change (wrap 1) with 1. symmetry. apply normalize_integer, wrap_range.
  - now rewrite wrap_add_l, (wrap_id denominator).
  - now rewrite wrap_add_r, (wrap_id denominator).
  - now rewrite wrap_add_l, wrap_add_r.
Qed.

Lemma subtractValues_run :
  subtractValues v1 v2 s = normalize (wrap (a * d - c * b)) (wrap (b * d)) s.
Proof.
  unfold subtractValues, bindH. numeric_cases.
  - change (wrap 1) with 1. symmetry. apply normalize_integer, wrap_range.
  - now rewrite wrap_sub_l, (wrap_id denominator).
  - now rewrite wrap_sub_r, (wrap_id denominator).
  - now rewrite wrap_sub_l, wrap_sub_r.
Qed.

Lemma multiplyValues_run :
  multiplyValues v1 v2 s = normalize (wrap (a * c)) (wrap (b * d)) s.
Proof.
  unfold multiplyValues, bindH. numeric_cases.
  - change (wrap 1) with 1. symmetry. apply normalize_integer, wrap_range.
  - now rewrite (wrap_id denominator).
  - now rewrite (wrap_id denominator).
  - reflexivity.
Qed.

Lemma divideValues_run :
  divideValues v1 v2 s =
    if c =? 0 then (Raise "Division by zero", s)
    else normalize (wrap (a * d)) (wrap (b * c)) s.
Proof.
  unfold divideValues, bindH. numeric_cases;
    destruct (_ =? 0); try reflexivity.
  - now rewrite !wrap_id.
  - now rewrite (wrap_id numerator).
  - now rewrite (wrap_id numerator).
Qed.

End Arithmetic.

(** Division within the symmetric range returns the reduced quotient. *)
Lemma divideValues_exact s v1 v2 o1 o2 a b c d :
  deref v1 s = (Ret o1, s) -> deref v2 s = (Ret o2, s) ->
  frac o1 = Some (a, b) -> frac o2 = Some (c, d) ->
  int_fields o1 -> int_fields o2 ->
  c <> 0 -> b <> 0 -> in_sym (a * d) -> in_sym (b * c) ->
  divideValues v1 v2 s = alloc (number (reduced (a * d) (b * c))) s.
Proof.
  intros H1 H2 F1 F2 I1 I2 Hc Hb Hnum Hden.
  rewrite (divideValues_run s v1 v2 o1 o2 a b c d) by assumption.
  assert (Hbc : b * c <> 0) by nia.
  apply Z.eqb_neq in Hc. rewrite Hc.
  rewrite (wrap_sym (a * d)), (wrap_sym (b * c)) by assumption.
  rewrite normalize_run; [|now apply in_sym_int|assumption|assumption].
  now rewrite reduced32_exact.
Qed.

(** C3, within the [int] range.  Binary division of Integer or Rational
    operands raises "Division by zero" exactly when the numerator of the
    divisor is 0.  When the numerator [a * d] and the denominator [b * c] of the
    quotient lie in the symmetric 32-bit range, it returns the quotient in
    normal form: divided through by the gcd, with a positive denominator,
    and as an Integer when that denominator is 1. *)
Theorem divideValues_spec (s : Store) (v1 v2 : Value) (o1 o2 : ValueBase)
    (a b c d : Z) :
  deref v1 s = (Ret o1, s) -> deref v2 s = (Ret o2, s) ->
  frac o1 = Some (a, b) -> frac o2 = Some (c, d) ->
  int_fields o1 -> int_fields o2 ->
  (c = 0 -> divideValues v1 v2 s = (Raise "Division by zero", s)) /\
  (c <> 0 -> exists o, divideValues v1 v2 s = alloc o s) /\
  (c <> 0 -> b <> 0 -> in_sym (a * d) -> in_sym (b * c) ->
   divideValues v1 v2 s = alloc (number (reduced (a * d) (b * c))) s /\
   0 < snd (reduced (a * d) (b * c)) /\
   Z.gcd (fst (reduced (a * d) (b * c))) (snd (reduced (a * d) (b * c))) = 1 /\
   fst (reduced (a * d) (b * c)) * (b * c)
     = snd (reduced (a * d) (b * c)) * (a * d)).
Proof.
  intros H1 H2 F1 F2 I1 I2. split; [|split].
  - intros ->.
    now rewrite (divideValues_run s v1 v2 o1 o2 a b 0 d) by assumption.
  - intros Hc.
    rewrite (divideValues_run s v1 v2 o1 o2 a b c d) by assumption.
    apply Z.eqb_neq in Hc. rewrite Hc. apply normalize_total.
  - intros Hc Hb Hnum Hden. split.
    + now apply divideValues_exact with o1 o2.
    + apply reduced_spec. nia.
Qed.

(** (/ 3 6) is 1/2, and (/ -3 6) is -1/2 with the sign on the numerator. *)
Lemma divideValues_spec_witness :
  divideValues (Some 0%nat) (Some 1%nat) (mkStore [Integer 3; Integer 6] [] [])
    = alloc (Rational 1 2) (mkStore [Integer 3; Integer 6] [] []) /\
  divideValues (Some 0%nat) (Some 1%nat) (mkStore [Integer (-3); Integer 6] [] [])
    = alloc (Rational (-1) 2) (mkStore [Integer (-3); Integer 6] [] []).
Proof.
  split.
  - refine (proj1 (proj2 (proj2
      (divideValues_spec (mkStore [Integer 3; Integer 6] [] []) (Some 0%nat)
         (Some 1%nat) (Integer 3) (Integer 6) 3 1 6 1 _ _ _ _ _ _)) _ _ _ _));
      try reflexivity;
      unfold int_fields, in_sym, in_int, INT_MIN, INT_MAX; lia.
  - refine (proj1 (proj2 (proj2
      (divideValues_spec (mkStore [Integer (-3); Integer 6] [] []) (Some 0%nat)
         (Some 1%nat) (Integer (-3)) (Integer 6) (-3) 1 6 1 _ _ _ _ _ _)) _ _ _ _));
      try reflexivity;
      unfold int_fields, in_sym, in_int, INT_MIN, INT_MAX; lia.
Defined.

(** Without the range condition the sign step overflows: (/ 1 -2147483648)
    comes back with a negative denominator. *)
Lemma divideValues_counterexample :
  exists p q,
    divideValues (Some 0%nat) (Some 1%nat)
      (mkStore [Integer 1; Integer (-2147483648)] [] [])
    = alloc (Rational p q) (mkStore [Integer 1; Integer (-2147483648)] [] []) /\
    q < 0.
Proof. exists (-1), (-2147483648). split; [reflexivity|lia]. Qed.


(** ** The store under allocation *)

Lemma deref_Some s v o :
  deref v s = (Ret o, s) <-> exists l, v = Some l /\ objs s !! l = Some o.
Proof.
  unfold deref. split.
  - destruct v as [l|]; [|discriminate].
    destruct (objs s !! l) eqn:Hl; [|discriminate].
    intros [= ->]. eauto.
  - intros (l & -> & ->). reflexivity.
Qed.

Lemma deref_alloc_old s v o o' :
  deref v s = (Ret o, s) ->
  deref v (snd (alloc o' s)) = (Ret o, snd (alloc o' s)).
Proof.
  rewrite !deref_Some. intros (l & -> & Hl). exists l. split; [reflexivity|].
  cbn. now apply lookup_app_l_Some.
Qed.

Lemma deref_alloc_new s o :
  deref (Some (length (objs s))) (snd (alloc o s)) = (Ret o, snd (alloc o s)).
Proof.
  apply deref_Some. exists (length (objs s)). split; [reflexivity|].
  cbn. rewrite lookup_app_r by lia. now rewrite Nat.sub_diag.
Qed.

(** ** The invariant of Rational values (C2) *)

Lemma normalize_normalized num den s :
  in_sym den -> den <> 0 ->
  exists o, normalize (wrap num) den s = alloc o s /\ normalized o.
Proof.
  intros Hden Hnz. exists (number (reduced32 (wrap num) den)). split.
  - apply normalize_run; [apply wrap_range|assumption|assumption].
  - apply reduced32_normalized; [apply wrap_range|assumption].
Qed.

(** C2, site by site.  The Rationals the arithmetic helpers return are
    normalized (denominator above 1, numerator and denominator coprime)
    whenever the operands have [int] fields and the denominator formed
    before the reduction ([b * d] for + - *, [b * c] for /) is not zero and
    lies in the symmetric 32-bit range; negating a normalized Rational
    gives a normalized Rational; a RationalNum literal and a quoted
    Rational syntax node evaluate to a Rational with the very fields of
    the literal, not reduced. *)
Theorem rational_results_normalized :
  (forall s v1 v2 o1 o2 a b c d,
     deref v1 s = (Ret o1, s) -> deref v2 s = (Ret o2, s) ->
     frac o1 = Some (a, b) -> frac o2 = Some (c, d) ->
     int_fields o1 -> int_fields o2 ->
     (b * d <> 0 -> in_sym (b * d) ->
      (exists o, addValues v1 v2 s = alloc o s /\ normalized o) /\
      (exists o, subtractValues v1 v2 s = alloc o s /\ normalized o) /\
      (exists o, multiplyValues v1 v2 s = alloc o s /\ normalized o)) /\
     (b * c <> 0 -> in_sym (b * c) ->
      exists o, divideValues v1 v2 s = alloc o s /\ normalized o)) /\
  (forall s v p q,
     deref v s = (Ret (Rational p q), s) ->
     in_int p -> normalized (Rational p q) ->
     MinusVar_evalRator [v] s = alloc (Rational (wrap (- p)) q) s /\
     normalized (Rational (wrap (- p)) q)) /\
  (forall primitives reserved_words fuel p q e s,
     eval primitives reserved_words (S fuel) (RationalNum p q) e s
     = (Ret (Some (length (objs s))), e, snd (alloc (Rational p q) s))) /\
  (forall p q s, syntaxToValue (RationalSyntax p q) s = alloc (Rational p q) s) /\
  (forall primitives reserved_words fuel p q e s,
     eval primitives reserved_words (S fuel) (Quote (RationalSyntax p q)) e s
     = (Ret (Some (length (objs s))), e, snd (alloc (Rational p q) s))).
Proof.
  split; [|split; [|split; [|split]]].
  - intros s v1 v2 o1 o2 a b c d H1 H2 F1 F2 I1 I2. split.
    + intros Hbd Hsym.
      rewrite (addValues_run s v1 v2 o1 o2 a b c d),
        (subtractValues_run s v1 v2 o1 o2 a b c d),
        (multiplyValues_run s v1 v2 o1 o2 a b c d) by assumption.
      rewrite (wrap_sym (b * d)) by assumption.
      repeat split; now apply normalize_normalized.
    + intros Hbc Hsym.
      rewrite (divideValues_run s v1 v2 o1 o2 a b c d) by assumption.
      assert (Hc : (c =? 0) = false) by (apply Z.eqb_neq; intros ->; lia).
      rewrite Hc, (wrap_sym (b * c)) by assumption.
      now apply normalize_normalized.
  - intros s v p q Hv Hp [Hq Hg]. split.
    + unfold MinusVar_evalRator, bindH. now rewrite Hv.
    + split; [exact Hq|]. now rewrite abs_wrap_opp.
  - reflexivity.
  - reflexivity.
  - reflexivity.
Qed.

(** (+ 1/2 1/3) and (/ 1/2 1/3) return normalized values. *)
Lemma rational_results_normalized_witness :
  (exists o, addValues (Some 0%nat) (Some 1%nat)
               (mkStore [Rational 1 2; Rational 1 3] [] [])
             = alloc o (mkStore [Rational 1 2; Rational 1 3] [] [])
             /\ normalized o) /\
  (exists o, divideValues (Some 0%nat) (Some 1%nat)
               (mkStore [Rational 1 2; Rational 1 3] [] [])
             = alloc o (mkStore [Rational 1 2; Rational 1 3] [] [])
             /\ normalized o).
Proof.
  pose proof (proj1 rational_results_normalized
    (mkStore [Rational 1 2; Rational 1 3] [] []) (Some 0%nat) (Some 1%nat)
    (Rational 1 2) (Rational 1 3) 1 2 1 3 eq_refl eq_refl eq_refl eq_refl) as W.
  destruct W as [Wa Wd];
    [unfold int_fields, in_int, INT_MIN, INT_MAX; lia
    |unfold int_fields, in_int, INT_MIN, INT_MAX; lia|].
  split.
  - apply Wa; [lia | unfold in_sym, INT_MAX; lia].
  - apply Wd; [lia | unfold in_sym, INT_MAX; lia].
Defined.

(** A literal 3/1 evaluates to a Rational with denominator 1, and so does
    the quoted datum 3/1; the product of 1/65536 with itself has a
    denominator that wraps to 0. *)
Lemma rational_invariant_counterexample :
  (exists s',
     eval sample_primitives sample_reserved_words 1 (RationalNum 3 1) []
       empty_store = (Ret (Some 0%nat), [], s') /\
     objs s' !! 0%nat = Some (Rational 3 1) /\ ~ normalized (Rational 3 1)) /\
  (exists s',
     eval sample_primitives sample_reserved_words 1
       (Quote (RationalSyntax 3 1)) [] empty_store = (Ret (Some 0%nat), [], s') /\
     objs s' !! 0%nat = Some (Rational 3 1) /\ ~ normalized (Rational 3 1)) /\
  (normalized (Rational 1 65536) /\
   multiplyValues (Some 0%nat) (Some 0%nat) (mkStore [Rational 1 65536] [] [])
   = alloc (Rational 1 0) (mkStore [Rational 1 65536] [] []) /\
   ~ normalized (Rational 1 0)).
Proof.
  split; [|split].
  - eexists. split; [reflexivity|]. split; [reflexivity|].
    intros [Hq _]. lia.
  - eexists. split; [reflexivity|]. split; [reflexivity|].
    intros [Hq _]. lia.
  - split; [|split].
    + split; [lia|reflexivity].
    + reflexivity.
    + intros [Hq _]. lia.
Qed.

(** ** Variadic arithmetic (C4) *)

(** The loop over the remaining arguments is a left fold. *)
Lemma left_fold_loop f rest : forall (m : H Value) s,
  fold_left (fun acc x => r <- acc ;; f r x) rest m s
  = (a <- m ;; fold_args f a rest) s.
Proof.
  induction rest as [|x rest IH]; intros m s; cbn [fold_left fold_args].
  - unfold bindH, retH. destruct (m s) as [[a| | |] s']; reflexivity.
  - rewrite IH. unfold bindH. destruct (m s) as [[a| | |] s']; reflexivity.
Qed.

Lemma fold_args_left_fold f a0 rest s :
  fold_args f a0 rest s = left_fold f a0 rest s.
Proof. unfold left_fold. now rewrite left_fold_loop. Qed.

(** C4, within the [int] range.  Variadic + of no argument returns 0 and *
    of no argument returns 1; - and / of no argument raise an error.  - of
    one Integer or Rational returns it with the numerator negated as an
    [int], which is its negation when the numerator is not INT_MIN; - and /
    of two or more arguments fold the binary operation from the left; / of
    one argument [c/d] is the binary division of 1 by it: it raises
    "Division by zero" when [c] is 0, and otherwise returns the reciprocal
    [d/c] in normal form when [c] and [d] lie in the symmetric [int]
    range. *)
Theorem variadic_arithmetic_spec :
  (forall s, PlusVar_evalRator [] s = alloc (Integer 0) s) /\
  (forall s, MultVar_evalRator [] s = alloc (Integer 1) s) /\
  (forall s, MinusVar_evalRator [] s
             = (Raise "Wrong number of arguments for -", s)) /\
  (forall s, DivVar_evalRator [] s
             = (Raise "Wrong number of arguments for /", s)) /\
  (forall s v n,
     deref v s = (Ret (Integer n), s) ->
     MinusVar_evalRator [v] s = alloc (Integer (wrap (- n))) s /\
     (in_sym n -> wrap (- n) = - n)) /\
  (forall s v p q,
     deref v s = (Ret (Rational p q), s) ->
     MinusVar_evalRator [v] s = alloc (Rational (wrap (- p)) q) s /\
     (in_sym p -> wrap (- p) = - p)) /\
  (forall s a b rest,
     MinusVar_evalRator (a :: b :: rest) s
     = left_fold subtractValues a (b :: rest) s) /\
  (forall s a b rest,
     DivVar_evalRator (a :: b :: rest) s
     = left_fold divideValues a (b :: rest) s) /\
  (forall s v,
     DivVar_evalRator [v] s = (one <- IntegerV 1 ;; divideValues one v) s) /\
  (forall s v o c d,
     deref v s = (Ret o, s) -> frac o = Some (c, d) -> int_fields o ->
     (c = 0 -> fst (DivVar_evalRator [v] s) = Raise "Division by zero") /\
     (c <> 0 -> in_sym c -> in_sym d ->
      DivVar_evalRator [v] s
      = alloc (number (reduced d c)) (snd (alloc (Integer 1) s)) /\
      0 < snd (reduced d c) /\
      Z.gcd (fst (reduced d c)) (snd (reduced d c)) = 1 /\
      fst (reduced d c) * c = snd (reduced d c) * d)).
Proof.
  repeat apply conj; try reflexivity.
  - intros s v n Hv. split.
    + unfold MinusVar_evalRator, bindH. now rewrite Hv.
    + intros Hn. apply wrap_sym. unfold in_sym in *. lia.
  - intros s v p q Hv. split.
    + unfold MinusVar_evalRator, bindH. now rewrite Hv.
    + intros Hn. apply wrap_sym. unfold in_sym in *. lia.
  - intros s a b rest. apply (fold_args_left_fold subtractValues a (b :: rest)).
  - intros s a b rest. apply (fold_args_left_fold divideValues a (b :: rest)).
  - intros s v o c d Hv Hf Hi.
    set (s1 := snd (alloc (Integer 1) s)).
    assert (Hrun : DivVar_evalRator [v] s
                   = divideValues (Some (length (objs s))) v s1) by reflexivity.
    rewrite Hrun.
    assert (Hone : deref (Some (length (objs s))) s1 = (Ret (Integer 1), s1))
      by apply deref_alloc_new.
    assert (Hv1 : deref v s1 = (Ret o, s1)) by now apply deref_alloc_old.
    assert (Hi1 : int_fields (Integer 1)).
    { cbn. unfold in_int, INT_MIN, INT_MAX. lia. }
    split.
    + intros ->.
      now rewrite (divideValues_run s1 _ v (Integer 1) o 1 1 0 d).
    + intros Hc Hsc Hsd. split.
      * rewrite (divideValues_exact s1 _ v (Integer 1) o 1 1 c d);
          rewrite ?Z.mul_1_l; first [assumption | reflexivity | lia].
      * apply reduced_spec. assumption.
Qed.

(** (- 5) is -5 and (/ 4) is 1/4. *)
Lemma variadic_arithmetic_spec_witness :
  MinusVar_evalRator [Some 0%nat] (mkStore [Integer 5] [] [])
    = alloc (Integer (-5)) (mkStore [Integer 5] [] []) /\
  DivVar_evalRator [Some 0%nat] (mkStore [Integer 4] [] [])
    = alloc (Rational 1 4) (mkStore [Integer 4; Integer 1] [] []).
Proof.
  destruct variadic_arithmetic_spec
    as (_ & _ & _ & _ & Hneg & _ & _ & _ & _ & Hrec).
  split.
  - exact (proj1 (Hneg (mkStore [Integer 5] [] []) (Some 0%nat) 5 eq_refl)).
  - destruct (Hrec (mkStore [Integer 4] [] []) (Some 0%nat) (Integer 4) 4 1)
      as [_ Hnz];
      [reflexivity | reflexivity
      | unfold int_fields, in_int, INT_MIN, INT_MAX; lia |].
    apply Hnz; [lia | unfold in_sym, INT_MAX; lia | unfold in_sym, INT_MAX; lia].
Defined.

(** At INT_MIN the [int] negation wraps: (- -2147483648) returns
    -2147483648 and not its negation, and (/ -2147483648) returns -1 over
    -2147483648, a Rational with a negative denominator, where the
    reciprocal in normal form has the denominator 2147483648. *)
Lemma variadic_arithmetic_counterexample :
  (exists n',
     MinusVar_evalRator [Some 0%nat] (mkStore [Integer (-2147483648)] [] [])
     = alloc (Integer n') (mkStore [Integer (-2147483648)] [] []) /\
     n' <> - (-2147483648)) /\
  (exists p q,
     DivVar_evalRator [Some 0%nat] (mkStore [Integer (-2147483648)] [] [])
     = alloc (Rational p q)
         (mkStore [Integer (-2147483648); Integer 1] [] []) /\
     q < 0 /\ ~ normalized (Rational p q) /\
     Rational p q <> number (reduced 1 (-2147483648))).
Proof.
  split.
  - exists (-2147483648). split; [reflexivity|lia].
  - exists (-1), (-2147483648). split; [reflexivity|]. split; [lia|].
    split; [intros [Hq _]; lia|]. vm_compute. discriminate.
Qed.


(** ** Identity and equality (C10) *)

(** C10.  [eq?] answers with a fresh Boolean.  Two Integers are compared by
    their numbers, two Booleans by their truth values, two Symbols by their
    names, Null equals Null and Void equals Void; every other pair is
    compared by the identity of the objects.  So a value is always [eq?] to
    itself, and two distinct objects holding the same Rational are not. *)
Theorem IsEq_evalRator_spec (s : Store) (l1 l2 : loc) (o1 o2 : ValueBase) :
  objs s !! l1 = Some o1 -> objs s !! l2 = Some o2 ->
  exists b : bool,
    IsEq_evalRator (Some l1) (Some l2) s = alloc (Boolean b) s /\
    match o1, o2 with
    | Integer n1, Integer n2 => b = true <-> n1 = n2
    | Boolean b1, Boolean b2 => b = true <-> b1 = b2
    | Symbol s1, Symbol s2 => b = true <-> s1 = s2
    | Null, Null => b = true
    | Void, Void => b = true
    | _, _ => b = true <-> l1 = l2
    end /\
    (l1 = l2 -> b = true) /\
    (forall p q, o1 = Rational p q -> o2 = Rational p q -> l1 <> l2 -> b = false).
Proof.
  intros H1 H2.
  unfold IsEq_evalRator, bindH, deref. rewrite H1, H2.
  destruct o1, o2; eexists; (split; [reflexivity|]); cbn [same_object];
    (split; [|split]).
  all: try (first [ apply Z.eqb_eq | apply Bool.eqb_true_iff | apply String.eqb_eq
            | reflexivity | apply Nat.eqb_eq ]).
  all: try (intros p q Hp Hq Hne; first [discriminate Hp | discriminate Hq
                                     | now apply Nat.eqb_neq ]).
  all: try (intros ->; rewrite H1 in H2; first [discriminate H2 | injection H2 as ?];
         subst;
         first [ reflexivity | apply Z.eqb_refl | apply Bool.eqb_reflx
               | apply String.eqb_refl | apply Nat.eqb_refl ]).
  all: reflexivity.
Qed.

(** Two objects holding 1/2 are not [eq?]; two objects holding 5 are. *)
Lemma IsEq_evalRator_spec_witness :
  IsEq_evalRator (Some 0%nat) (Some 1%nat)
    (mkStore [Rational 1 2; Rational 1 2] [] [])
  = alloc (Boolean false) (mkStore [Rational 1 2; Rational 1 2] [] []).
Proof.
  destruct (IsEq_evalRator_spec (mkStore [Rational 1 2; Rational 1 2] [] [])
              0%nat 1%nat (Rational 1 2) (Rational 1 2) eq_refl eq_refl)
    as (b & Hrun & _ & _ & Hrat).
  rewrite (Hrat 1 2 eq_refl eq_refl) in Hrun by discriminate. exact Hrun.
Defined.


(** ** Arity checks of the parser (C8) *)

Lemma parse_all_length parse tl : forall parameters,
  parse_all parse tl = Ret parameters -> length parameters = length tl.
Proof.
  induction tl as [|x tl IH]; intros parameters; cbn.
  - now intros [= <-].
  - destruct (parse x) as [e| | |]; cbn; try discriminate.
    destruct (parse_all parse tl) as [es| | |]; cbn; try discriminate.
    intros [= <-]. cbn. f_equal. now apply IH.
Qed.

Lemma parse_symbol_head primitives reserved_words s env op tl :
  parse primitives reserved_words s env (List (SymbolSyntax op :: tl)) =
    (is_bound <-- bound op env s ;;
     if (is_bound : bool)
     then parameters <-- parse_all (parse primitives reserved_words s env) tl ;;
          rator <-- parse primitives reserved_words s env (SymbolSyntax op) ;;
          Ret (Apply rator parameters)
     else
       match primitives !! op with
       | Some op_type =>
           parameters <-- parse_all (parse primitives reserved_words s env) tl ;;
           parse_primitive op op_type parameters
       | None =>
           match reserved_words !! op with
           | Some word =>
               parse_reserved (parse primitives reserved_words s env) op word tl
           | None =>
               parameters <-- parse_all (parse primitives reserved_words s env) tl ;;
               rator <-- parse primitives reserved_words s env (SymbolSyntax op) ;;
               Ret (Apply rator parameters)
           end
       end).
Proof. reflexivity. Qed.

Lemma parse_primitive_outcome op t parameters :
  arity_outcome op t parameters (parse_primitive op t parameters).
Proof.
  unfold arity_outcome.
  destruct t; cbn;
    try (destruct parameters as [|p0 [|p1 [|p2 ps]]]; cbn; eauto; fail);
    eauto 6.
Qed.

(** C8.  Take a list whose head symbol is not bound in the environment and
    is a primitive of tag [op_type], and whose arguments parse to
    [parameters].  The tags of modulo, expt, cons, set-car!, set-cdr! and
    eq? give a binary node for exactly two arguments and an error for any
    other count; those of car, cdr, not, the type predicates and display
    give a unary node for exactly one argument and an error otherwise;
    those of void and exit want no argument; those of list, and, or take
    any number; the arithmetic and comparison tags give their binary node
    for exactly two arguments and their variadic node, without error, for
    any other count. *)
Theorem parse_primitive_arity primitives reserved_words s env op op_type tl
    parameters :
  bound op env s = Ret false ->
  primitives !! op = Some op_type ->
  parse_all (parse primitives reserved_words s env) tl = Ret parameters ->
  length parameters = length tl /\
  arity_outcome op op_type parameters
    (parse primitives reserved_words s env (List (SymbolSyntax op :: tl))).
Proof.
  intros Hb Hp Hargs. split; [now apply parse_all_length in Hargs|].
  rewrite parse_symbol_head, Hb. cbn [bindR]. rewrite Hp, Hargs. cbn [bindR].
  apply parse_primitive_outcome.
Qed.

(** (modulo 1) is rejected by the parser; (+ 1 2 3) becomes the variadic
    node and (+ 1 2) the binary one. *)
Lemma parse_primitive_arity_witness :
  (exists msg,
     parse sample_primitives sample_reserved_words empty_store []
       (List [SymbolSyntax "modulo"; Number 1]) = Raise msg) /\
  parse sample_primitives sample_reserved_words empty_store []
    (List [SymbolSyntax "+"; Number 1; Number 2; Number 3])
  = Ret (Variadic PlusVar [Fixnum 1; Fixnum 2; Fixnum 3]) /\
  parse sample_primitives sample_reserved_words empty_store []
    (List [SymbolSyntax "+"; Number 1; Number 2])
  = Ret (Binary Plus (Fixnum 1) (Fixnum 2)).
Proof.
  split; [|split].
  - exact (proj2 (parse_primitive_arity sample_primitives sample_reserved_words
             empty_store [] "modulo" E_MODULO [Number 1] [Fixnum 1]
             eq_refl ltac:(vm_compute; reflexivity) eq_refl)).
  - destruct (proj2 (parse_primitive_arity sample_primitives sample_reserved_words
             empty_store [] "+" E_PLUS [Number 1; Number 2; Number 3]
             [Fixnum 1; Fixnum 2; Fixnum 3]
             eq_refl ltac:(vm_compute; reflexivity) eq_refl))
      as (b & v & [= <- <-] & Hres).
    exact Hres.
  - destruct (proj2 (parse_primitive_arity sample_primitives sample_reserved_words
             empty_store [] "+" E_PLUS [Number 1; Number 2]
             [Fixnum 1; Fixnum 2]
             eq_refl ltac:(vm_compute; reflexivity) eq_refl))
      as (b & v & [= <- <-] & Hres).
    exact Hres.
Defined.


(** ** Primitives as values (C1) *)

Lemma eval_S primitives reserved_words fuel ex :
  eval primitives reserved_words (S fuel) ex
  = eval_node primitives reserved_words (eval primitives reserved_words fuel) ex.
Proof. reflexivity. Qed.

(** [Var::eval] turns the name of a primitive that has no binding into a
    procedure without parameters whose body is the variable itself. *)
Lemma Var_eval_reifies primitives reserved_words fuel x e s :
  find x e s = (Ret None, s) -> count primitives x = true ->
  eval primitives reserved_words (S fuel) (Var x) e s
  = (Ret (Some (length (objs s))), e, snd (alloc (Procedure [] (Var x) e) s)).
Proof.
  intros Hfind Hprim. rewrite eval_S. cbn [eval_node].
  unfold Var_eval, bindE, get_env, liftH. rewrite Hfind, Hprim. reflexivity.
Qed.

(** Applied to no argument, a reified primitive whose name is still
    unbound in the captured environment returns one more reified
    primitive, not the value of the primitive on no argument. *)
Lemma Apply_reified_primitive_no_argument primitives reserved_words fuel x
    rator e s l e1 s1 cenv :
  eval primitives reserved_words (S fuel) rator e s = (Ret (Some l), e1, s1) ->
  objs s1 !! l = Some (Procedure [] (Var x) cenv) ->
  find x cenv s1 = (Ret None, s1) -> count primitives x = true ->
  eval primitives reserved_words (S (S fuel)) (Apply rator []) e s
  = (Ret (Some (length (objs s1))), e1,
     snd (alloc (Procedure [] (Var x) cenv) s1)).
Proof.
  intros Hrator Hobj Hfind Hprim. rewrite eval_S. cbn [eval_node].
  unfold Apply_eval, bindE at 1. rewrite Hrator.
  unfold bindE at 1, liftH at 1, deref. rewrite Hobj.
  cbn [eval_args]. unfold bindE, retE, liftH. cbn [length Nat.eqb negb].
  cbn [extend_all]. unfold retH, in_env.
  now rewrite (Var_eval_reifies primitives reserved_words fuel x cenv s1).
Qed.

(** C1.  What [Apply::eval] does with a reified primitive: the operator
    evaluates to a procedure without parameters whose body is [Var x]; the
    arguments are evaluated; and since their number is compared with the
    empty parameter list, every application to at least one argument
    raises "Wrong number of arguments".  There is no dispatch on the
    primitive table. *)
Theorem Apply_reified_primitive primitives reserved_words fuel x rator rand
    e s l e1 s1 cenv args e2 s2 :
  eval primitives reserved_words fuel rator e s = (Ret (Some l), e1, s1) ->
  objs s1 !! l = Some (Procedure [] (Var x) cenv) ->
  eval_args (eval primitives reserved_words fuel) rand e1 s1 = (Ret args, e2, s2) ->
  args <> [] ->
  eval primitives reserved_words (S fuel) (Apply rator rand) e s
  = (Raise "Wrong number of arguments", e2, s2).
Proof.
  intros Hrator Hobj Hargs Hne. rewrite eval_S. cbn [eval_node].
  unfold Apply_eval, bindE. rewrite Hrator.
  unfold liftH at 1, deref. rewrite Hobj, Hargs.
  destruct args; [contradiction|reflexivity].
Qed.

(** (f 1 2) with [f] bound to the reified [+]. *)
Lemma Apply_reified_primitive_witness :
  eval sample_primitives sample_reserved_words 3
    (Apply (Var "f") [Fixnum 1; Fixnum 2]) [("f"%string, 0%nat)]
    (mkStore [Procedure [] (Var "+") []] [Some 0%nat] [])
  = (Raise "Wrong number of arguments", [("f"%string, 0%nat)],
     mkStore [Procedure [] (Var "+") []; Integer 1; Integer 2] [Some 0%nat] []).
Proof.
  apply (Apply_reified_primitive sample_primitives sample_reserved_words 2 "+"
           (Var "f") [Fixnum 1; Fixnum 2] _ _ 0%nat [("f"%string, 0%nat)]
           (mkStore [Procedure [] (Var "+") []] [Some 0%nat] []) []
           [Some 1%nat; Some 2%nat]);
    [vm_compute; reflexivity | reflexivity | vm_compute; reflexivity
    | discriminate].
Defined.

(** The program ((lambda (f) (f 1 2)) +), from the parser to the result. *)
Lemma reified_plus_applied :
  exists ex s',
    parse sample_primitives sample_reserved_words empty_store []
      (List [List [SymbolSyntax "lambda"; List [SymbolSyntax "f"];
                   List [SymbolSyntax "f"; Number 1; Number 2]];
             SymbolSyntax "+"]) = Ret ex /\
    eval sample_primitives sample_reserved_words 6 ex [] empty_store
    = (Raise "Wrong number of arguments", [], s').
Proof. eexists; eexists; split; [vm_compute; reflexivity | vm_compute; reflexivity]. Qed.


(** ** Short-circuit evaluation (C6) *)

Lemma is_false_iff o : is_false o = true <-> o = Boolean false.
Proof.
  split; [|now intros ->].
  destruct o as [| |[|]| | | | | | |]; cbn; congruence.
Qed.

Lemma last_cons_default {A} (vs : list A) : forall v d,
  List.last (v :: vs) d = List.last vs v.
Proof.
  induction vs as [|a vs IH]; intros v d; [reflexivity|].
  change (List.last (a :: vs) d = List.last (a :: vs) v). now rewrite !IH.
Qed.

Lemma last_default_Some {A} (vs : list A) v d :
  last vs = Some v -> List.last vs d = v.
Proof.
  revert d. induction vs as [|a vs IH]; intros d; [discriminate|].
  rewrite last_cons_default. destruct vs as [|b vs]; cbn.
  - now intros [= ->].
  - intros Hl. rewrite <- (IH a Hl). reflexivity.
Qed.

Section Logic.

Variable ev : Expr -> E Value.

Lemma and_loop_truthy es e s vs e1 s1 :
  run ev false es e s vs e1 s1 ->
  forall result rest,
    and_loop ev result (es ++ rest) e s
    = and_loop ev (List.last vs result) rest e1 s1.
Proof.
  induction 1 as [|x tl e s v o e1 s1 vs e2 s2 Hx Ho Hf Hrun IH];
    intros result rest; [reflexivity|].
  cbn [app and_loop]. unfold bindE at 1. rewrite Hx.
  unfold bindE at 1, liftH at 1. rewrite Ho, Hf. rewrite IH.
  now rewrite last_cons_default.
Qed.

Lemma or_loop_falsy es e s vs e1 s1 :
  run ev true es e s vs e1 s1 ->
  forall rest, or_loop ev (es ++ rest) e s = or_loop ev rest e1 s1.
Proof.
  induction 1 as [|x tl e s v o e1 s1 vs e2 s2 Hx Ho Hf Hrun IH];
    intros rest; [reflexivity|].
  cbn [app or_loop]. unfold bindE at 1. rewrite Hx.
  unfold bindE at 1, liftH at 1. rewrite Ho, Hf. apply IH.
Qed.

Lemma AndVar_eval_nonempty rands e s :
  rands <> [] ->
  AndVar_eval ev rands e s
  = and_loop ev (Some (length (objs s))) rands e (snd (alloc (Boolean true) s)).
Proof. destruct rands; [contradiction|reflexivity]. Qed.

(** [and] stops at the first operand that is #f. *)
Lemma AndVar_eval_short pre x post e s vs e1 s1 v e2 s2 :
  run ev false pre e (snd (alloc (Boolean true) s)) vs e1 s1 ->
  ev x e1 s1 = (Ret v, e2, s2) ->
  deref v s2 = (Ret (Boolean false), s2) ->
  AndVar_eval ev (pre ++ x :: post) e s
  = (Ret (Some (length (objs s2))), e2, snd (alloc (Boolean false) s2)).
Proof.
  intros Hrun Hx Hv.
  rewrite AndVar_eval_nonempty by now destruct pre.
  rewrite (and_loop_truthy _ _ _ _ _ _ Hrun).
  cbn [and_loop]. unfold bindE at 1. rewrite Hx.
  unfold bindE, liftH. rewrite Hv. reflexivity.
Qed.

(** [and] returns the value of its last operand when none is #f. *)
Lemma AndVar_eval_last es e s vs e1 s1 v :
  run ev false es e (snd (alloc (Boolean true) s)) vs e1 s1 ->
  last vs = Some v ->
  AndVar_eval ev es e s = (Ret v, e1, s1).
Proof.
  intros Hrun Hlast.
  assert (Hne : es <> []) by (inversion Hrun; subst; [discriminate Hlast|discriminate]).
  rewrite AndVar_eval_nonempty by assumption.
  rewrite <- (app_nil_r es), (and_loop_truthy _ _ _ _ _ _ Hrun).
  cbn [and_loop]. unfold retE. now rewrite (last_default_Some vs v).
Qed.

(** [or] returns the first operand value that is not #f. *)
Lemma OrVar_eval_first pre x post e s vs e1 s1 v o e2 s2 :
  run ev true pre e s vs e1 s1 ->
  ev x e1 s1 = (Ret v, e2, s2) ->
  deref v s2 = (Ret o, s2) -> is_false o = false ->
  OrVar_eval ev (pre ++ x :: post) e s = (Ret v, e2, s2).
Proof.
  intros Hrun Hx Hv Ho. unfold OrVar_eval.
  rewrite (or_loop_falsy _ _ _ _ _ _ Hrun).
  cbn [or_loop]. unfold bindE at 1. rewrite Hx.
  unfold bindE, liftH. rewrite Hv, Ho. reflexivity.
Qed.

(** [or] returns #f when every operand is #f. *)
Lemma OrVar_eval_none es e s vs e1 s1 :
  run ev true es e s vs e1 s1 ->
  OrVar_eval ev es e s
  = (Ret (Some (length (objs s1))), e1, snd (alloc (Boolean false) s1)).
Proof.
  intros Hrun. unfold OrVar_eval.
  rewrite <- (app_nil_r es), (or_loop_falsy _ _ _ _ _ _ Hrun). reflexivity.
Qed.

End Logic.

(** C6.  [and] of no operand is #t and [or] of no operand is #f.  [and]
    evaluates its operands from left to right; at the first that is #f it
    returns #f, whatever follows; when none is #f it returns the value of
    the last operand.  [or] returns the first operand value that is not
    #f, whatever follows, and #f when every operand is #f.  The only value
    that counts as false is the Boolean #f. *)
Theorem AndVar_OrVar_spec primitives reserved_words fuel :
  let ev := eval primitives reserved_words fuel in
  let eval' := eval primitives reserved_words (S fuel) in
  (forall e s,
     eval' (AndVar []) e s
     = (Ret (Some (length (objs s))), e, snd (alloc (Boolean true) s))) /\
  (forall pre x post e s vs e1 s1 v e2 s2,
     run ev false pre e (snd (alloc (Boolean true) s)) vs e1 s1 ->
     ev x e1 s1 = (Ret v, e2, s2) ->
     deref v s2 = (Ret (Boolean false), s2) ->
     eval' (AndVar (pre ++ x :: post)) e s
     = (Ret (Some (length (objs s2))), e2, snd (alloc (Boolean false) s2))) /\
  (forall es e s vs e1 s1 v,
     run ev false es e (snd (alloc (Boolean true) s)) vs e1 s1 ->
     last vs = Some v ->
     eval' (AndVar es) e s = (Ret v, e1, s1)) /\
  (forall e s,
     eval' (OrVar []) e s
     = (Ret (Some (length (objs s))), e, snd (alloc (Boolean false) s))) /\
  (forall pre x post e s vs e1 s1 v o e2 s2,
     run ev true pre e s vs e1 s1 ->
     ev x e1 s1 = (Ret v, e2, s2) ->
     deref v s2 = (Ret o, s2) -> o <> Boolean false ->
     eval' (OrVar (pre ++ x :: post)) e s = (Ret v, e2, s2)) /\
  (forall es e s vs e1 s1,
     run ev true es e s vs e1 s1 ->
     eval' (OrVar es) e s
     = (Ret (Some (length (objs s1))), e1, snd (alloc (Boolean false) s1))) /\
  (forall o, is_false o = true <-> o = Boolean false).
Proof.
  intros ev eval'. repeat apply conj.
  - reflexivity.
  - intros. now apply (AndVar_eval_short ev) with vs e1 s1 v.
  - intros. now apply (AndVar_eval_last ev) with vs.
  - reflexivity.
  - intros pre x post e s vs e1 s1 v o e2 s2 Hrun Hx Hv Ho.
    apply (OrVar_eval_first ev) with vs e1 s1 o; try assumption.
    destruct (is_false o) eqn:Hf; [|reflexivity].
    now apply is_false_iff in Hf.
  - intros. now apply (OrVar_eval_none ev) with vs.
  - apply is_false_iff.
Qed.

(** (and 1 #f 3) is #f, (and 1 2) is 2, (or #f #f 7) is 7, and the
    operand after the deciding one is not evaluated: the store holds no
    Integer 3. *)
Lemma AndVar_OrVar_spec_witness :
  eval sample_primitives sample_reserved_words 2
    (AndVar [Fixnum 1; False_; Fixnum 3]) [] empty_store
  = (Ret (Some 3%nat), [],
     mkStore [Boolean true; Integer 1; Boolean false; Boolean false] [] []) /\
  eval sample_primitives sample_reserved_words 2
    (AndVar [Fixnum 1; Fixnum 2]) [] empty_store
  = (Ret (Some 2%nat), [], mkStore [Boolean true; Integer 1; Integer 2] [] []) /\
  eval sample_primitives sample_reserved_words 2
    (OrVar [False_; False_; Fixnum 7; Fixnum 3]) [] empty_store
  = (Ret (Some 2%nat), [],
     mkStore [Boolean false; Boolean false; Integer 7] [] []).
Proof.
  destruct (AndVar_OrVar_spec sample_primitives sample_reserved_words 1)
    as (_ & Hshort & Hlast & _ & Hfirst & _ & _).
  split; [|split].
  - apply (Hshort [Fixnum 1] False_ [Fixnum 3] [] empty_store
             [Some 1%nat] [] (mkStore [Boolean true; Integer 1] [] [])
             (Some 2%nat) []
             (mkStore [Boolean true; Integer 1; Boolean false] [] [])).
    + eapply run_cons; [reflexivity | reflexivity | reflexivity | apply run_nil].
    + reflexivity.
    + reflexivity.
  - apply (Hlast [Fixnum 1; Fixnum 2] [] empty_store [Some 1%nat; Some 2%nat]
             [] (mkStore [Boolean true; Integer 1; Integer 2] [] []) (Some 2%nat)).
    + eapply run_cons; [reflexivity | reflexivity | reflexivity |].
      eapply run_cons; [reflexivity | reflexivity | reflexivity | apply run_nil].
    + reflexivity.
  - apply (Hfirst [False_; False_] (Fixnum 7) [Fixnum 3] [] empty_store
             [Some 0%nat; Some 1%nat] [] (mkStore [Boolean false; Boolean false] [] [])
             (Some 2%nat) (Integer 7) []
             (mkStore [Boolean false; Boolean false; Integer 7] [] [])).
    + eapply run_cons; [reflexivity | reflexivity | reflexivity |].
      eapply run_cons; [reflexivity | reflexivity | reflexivity | apply run_nil].
    + reflexivity.
    + reflexivity.
    + discriminate.
Defined.


(** ** Conditionals (C7) *)

Lemma is_else_iff test : is_else test = true <-> test = Var "else".
Proof.
  destruct test; cbn; try (split; [discriminate|discriminate]).
  rewrite String.eqb_eq. split; [now intros ->|now intros [= ->]].
Qed.

Section Clauses.

Variable ev : Expr -> E Value.

(** The loop over a body returns the last of the values of its
    expressions, evaluated in order. *)
Lemma eval_body_last es : forall result e s vs e1 s1,
  eval_args ev es e s = (Ret vs, e1, s1) ->
  eval_body ev result es e s = (Ret (List.last vs result), e1, s1).
Proof.
  induction es as [|x es IH]; intros result e s vs e1 s1; cbn [eval_args eval_body].
  - unfold retE. now intros [= <- <- <-].
  - unfold bindE at 1 3. destruct (ev x e s) as [[[v| | |] e'] s']; try discriminate.
    unfold bindE at 1.
    destruct (eval_args ev es e' s') as [[[vs'| | |] e''] s''] eqn:Hrest;
      try discriminate.
    unfold retE. intros [= <- <- <-].
    rewrite (IH v e' s' vs' e'' s'' Hrest). now rewrite last_cons_default.
Qed.

Lemma clause_body_last rest e s vs e1 s1 :
  eval_args ev rest e (snd (alloc Void s)) = (Ret vs, e1, s1) ->
  clause_body ev rest e s
  = (Ret (List.last vs (Some (length (objs s)))), e1, s1).
Proof.
  intros Hargs. unfold clause_body, bindE, liftH. cbn [VoidV alloc].
  now apply eval_body_last.
Qed.

Lemma Cond_eval_skipped cs e s e1 s1 :
  skipped ev cs e s e1 s1 ->
  forall more, Cond_eval ev (cs ++ more) e s = Cond_eval ev more e1 s1.
Proof.
  induction 1 as [|cs e s e' s' Hsk IH
                  |test rest cs e s v e1 s1 e' s' Helse Htest Hv Hsk IH];
    intros more.
  - reflexivity.
  - cbn [app Cond_eval]. apply IH.
  - cbn [app Cond_eval]. rewrite Helse. unfold bindE at 1. rewrite Htest.
    unfold bindE at 1, liftH at 1. rewrite Hv. cbn [is_false]. apply IH.
Qed.

End Clauses.

(** C7.  [Cond] goes through its clauses in order, passing over those
    whose test evaluates to #f.  A clause headed by the variable else is
    taken without a test: its remaining expressions are evaluated in order
    and the last value is returned (Void when there is none).  A clause
    whose test is not #f is taken: alone in its clause the test value is
    returned, otherwise the remaining expressions are evaluated in order
    and the last value is returned.  When every clause is passed over the
    result is Void. *)
Theorem Cond_eval_spec primitives reserved_words fuel :
  let ev := eval primitives reserved_words fuel in
  let eval' := eval primitives reserved_words (S fuel) in
  (forall cs e s e1 s1,
     skipped ev cs e s e1 s1 ->
     eval' (Cond cs) e s
     = (Ret (Some (length (objs s1))), e1, snd (alloc Void s1))) /\
  (forall cs body more e s e1 s1 vs e2 s2,
     skipped ev cs e s e1 s1 ->
     eval_args ev body e1 (snd (alloc Void s1)) = (Ret vs, e2, s2) ->
     eval' (Cond (cs ++ (Var "else" :: body) :: more)) e s
     = (Ret (List.last vs (Some (length (objs s1)))), e2, s2)) /\
  (forall cs test more e s e1 s1 v o e2 s2,
     skipped ev cs e s e1 s1 ->
     test <> Var "else" ->
     ev test e1 s1 = (Ret v, e2, s2) ->
     deref v s2 = (Ret o, s2) -> o <> Boolean false ->
     eval' (Cond (cs ++ [test] :: more)) e s = (Ret v, e2, s2)) /\
  (forall cs test body more e s e1 s1 v o e2 s2 vs r e3 s3,
     skipped ev cs e s e1 s1 ->
     test <> Var "else" ->
     ev test e1 s1 = (Ret v, e2, s2) ->
     deref v s2 = (Ret o, s2) -> o <> Boolean false ->
     eval_args ev body e2 (snd (alloc Void s2)) = (Ret vs, e3, s3) ->
     last vs = Some r ->
     eval' (Cond (cs ++ (test :: body) :: more)) e s = (Ret r, e3, s3)).
Proof.
  intros ev eval'.
  assert (Hnot_else : forall test, test <> Var "else" -> is_else test = false).
  { intros test Hne. destruct (is_else test) eqn:He; [|reflexivity].
    now apply is_else_iff in He. }
  assert (Htruthy : forall o, o <> Boolean false -> is_false o = false).
  { intros o Hne. destruct (is_false o) eqn:Hf; [|reflexivity].
    now apply is_false_iff in Hf. }
  repeat apply conj.
  - intros cs e s e1 s1 Hsk. unfold eval'. rewrite eval_S. cbn [eval_node].
    rewrite <- (app_nil_r cs), (Cond_eval_skipped ev _ _ _ _ _ Hsk). reflexivity.
  - intros cs body more e s e1 s1 vs e2 s2 Hsk Hbody.
    unfold eval'. rewrite eval_S. cbn [eval_node].
    rewrite (Cond_eval_skipped ev _ _ _ _ _ Hsk). cbn [Cond_eval is_else].
    rewrite String.eqb_refl. now apply clause_body_last.
  - intros cs test more e s e1 s1 v o e2 s2 Hsk Hne Htest Hv Ho.
    unfold eval'. rewrite eval_S. cbn [eval_node].
    rewrite (Cond_eval_skipped ev _ _ _ _ _ Hsk). cbn [Cond_eval].
    rewrite (Hnot_else _ Hne). unfold bindE at 1. fold ev. rewrite Htest.
    unfold bindE, liftH. rewrite Hv, (Htruthy _ Ho). reflexivity.
  - intros cs test body more e s e1 s1 v o e2 s2 vs r e3 s3
      Hsk Hne Htest Hv Ho Hbody Hlast.
    unfold eval'. rewrite eval_S. cbn [eval_node].
    rewrite (Cond_eval_skipped ev _ _ _ _ _ Hsk). cbn [Cond_eval].
    rewrite (Hnot_else _ Hne). unfold bindE at 1. fold ev. rewrite Htest.
    unfold bindE at 1, liftH at 1. rewrite Hv, (Htruthy _ Ho).
    destruct body as [|b body].
    + cbn in Hbody. injection Hbody as <- <- <-. discriminate Hlast.
    + rewrite (clause_body_last ev _ _ _ _ _ _ Hbody).
      now rewrite (last_default_Some vs r).
Qed.

(** (cond ((= 1 2) 'a) ((= 2 2) 'b) (else 'c)) is b; (cond (else 'c)) is
    c; (cond ((= 1 2) 'a)) is void. *)
Lemma Cond_eval_spec_witness :
  (exists s',
     eval sample_primitives sample_reserved_words 3
       (Cond [[Binary Equal (Fixnum 1) (Fixnum 2); Quote (SymbolSyntax "a")];
              [Binary Equal (Fixnum 2) (Fixnum 2); Quote (SymbolSyntax "b")];
              [Var "else"; Quote (SymbolSyntax "c")]]) [] empty_store
     = (Ret (Some 7%nat), [], s') /\ objs s' !! 7%nat = Some (Symbol "b")) /\
  eval sample_primitives sample_reserved_words 3
    (Cond [[Var "else"; Quote (SymbolSyntax "c")]]) [] empty_store
  = (Ret (Some 1%nat), [], mkStore [Void; Symbol "c"] [] []) /\
  eval sample_primitives sample_reserved_words 3
    (Cond [[Binary Equal (Fixnum 1) (Fixnum 2); Quote (SymbolSyntax "a")]])
    [] empty_store
  = (Ret (Some 3%nat), [],
     mkStore [Integer 1; Integer 2; Boolean false; Void] [] []).
Proof.
  destruct (Cond_eval_spec sample_primitives sample_reserved_words 2)
    as (Hnone & Helse & _ & Hbody).
  assert (Hskip : skipped (eval sample_primitives sample_reserved_words 2)
            [[Binary Equal (Fixnum 1) (Fixnum 2); Quote (SymbolSyntax "a")]]
            [] empty_store []
            (mkStore [Integer 1; Integer 2; Boolean false] [] [])).
  { eapply skipped_false; [reflexivity | reflexivity | reflexivity
                          | apply skipped_nil]. }
  split; [|split].
  - eexists. split.
    + apply (Hbody
        [[Binary Equal (Fixnum 1) (Fixnum 2); Quote (SymbolSyntax "a")]]
        (Binary Equal (Fixnum 2) (Fixnum 2)) [Quote (SymbolSyntax "b")]
        [[Var "else"; Quote (SymbolSyntax "c")]] [] empty_store
        [] (mkStore [Integer 1; Integer 2; Boolean false] [] [])
        (Some 5%nat) (Boolean true) []
        (mkStore [Integer 1; Integer 2; Boolean false;
                  Integer 2; Integer 2; Boolean true] [] [])
        [Some 7%nat] (Some 7%nat) []
        (mkStore [Integer 1; Integer 2; Boolean false;
                  Integer 2; Integer 2; Boolean true; Void; Symbol "b"] [] []));
        [exact Hskip | discriminate | reflexivity | reflexivity | discriminate
        | reflexivity | reflexivity].
    + reflexivity.
  - apply (Helse [] [Quote (SymbolSyntax "c")] [] [] empty_store [] empty_store
             [Some 1%nat] [] (mkStore [Void; Symbol "c"] [] []));
      [apply skipped_nil | reflexivity].
  - apply (Hnone _ _ _ _ _ Hskip).
Defined.


(** ** Environments *)

Lemma lookup_cell_app x (A B : Assoc) :
  lookup_cell x (A ++ B)
  = match lookup_cell x A with
    | Some c => Some c
    | None => lookup_cell x B
    end.
Proof.
  induction A as [|[y c] A IH]; cbn; [reflexivity|].
  destruct (String.eqb x y); [reflexivity|apply IH].
Qed.

Lemma lookup_cell_absent x (A : Assoc) :
  ~ In x (map fst A) -> lookup_cell x A = None.
Proof.
  induction A as [|[y c] A IH]; cbn; [reflexivity|]. intros Hnot.
  destruct (String.eqb x y) eqn:Hxy.
  - apply String.eqb_eq in Hxy. subst. tauto.
  - apply IH. tauto.
Qed.

Lemma map_fst_rev_zip (names : list string) : forall cs : list loc,
  length cs = length names -> map fst (rev (zip names cs)) = rev names.
Proof.
  induction names as [|n names IH]; intros [|c cs] Hlen; try discriminate;
    [reflexivity|].
  cbn. rewrite map_app, IH by (cbn in Hlen; lia). reflexivity.
Qed.

(** Among distinct names the [i]-th finds the [i]-th cell. *)
Lemma lookup_cell_fresh (names : list string) : forall (cs : list loc) i x c,
  List.NoDup names -> length cs = length names ->
  names !! i = Some x -> cs !! i = Some c ->
  lookup_cell x (rev (zip names cs)) = Some c.
Proof.
  induction names as [|n names IH]; intros [|c0 cs] i x c Hnd Hlen Hx Hc;
    try discriminate.
  inversion Hnd as [|? ? Hnotin Hnd']; subst.
  cbn [zip zip_with rev]. rewrite lookup_cell_app.
  destruct i as [|i]; cbn in Hx, Hc.
  - injection Hx as ->. injection Hc as ->.
    rewrite lookup_cell_absent.
    + cbn. now rewrite String.eqb_refl.
    + rewrite map_fst_rev_zip by (cbn in Hlen; lia). now rewrite <- in_rev.
  - rewrite (IH cs i x c); auto.
Qed.

Lemma extend_all_spec (names : list string) : forall (vals : list Value) env s,
  length vals = length names ->
  extend_all names vals env s
  = (Ret (fresh_bindings names s ++ env),
     mkStore (objs s) (cells s ++ vals) (out s)).
Proof.
  unfold fresh_bindings.
  induction names as [|x names IH]; intros [|v vals] env s Hlen;
    try discriminate.
  - cbn. rewrite app_nil_r. now destruct s.
  - cbn [extend_all]. unfold bindH, extend.
    rewrite IH by (cbn in Hlen; lia). cbn [cells objs out].
    rewrite length_app. cbn [length seq zip zip_with rev].
    rewrite Nat.add_1_r, <- !app_assoc. reflexivity.
Qed.

Lemma letrec_placeholders_spec (bind : list (string * Expr)) : forall env s,
  letrec_placeholders bind env s
  = (Ret (fresh_bindings (map fst bind) s ++ env),
     mkStore (objs s) (cells s ++ replicate (length bind) None) (out s)).
Proof.
  unfold fresh_bindings.
  induction bind as [|[x rhs] bind IH]; intros env s.
  - cbn. rewrite app_nil_r. now destruct s.
  - cbn [letrec_placeholders]. unfold bindH, extend. cbn [fst].
    rewrite IH. cbn [cells objs out map fst].
    rewrite length_app. cbn [length seq zip zip_with rev replicate].
    rewrite Nat.add_1_r, <- !app_assoc. reflexivity.
Qed.

Lemma lookup_cell_present x (A : Assoc) :
  In x (map fst A) -> exists c, lookup_cell x A = Some c /\ In (x, c) A.
Proof.
  induction A as [|[y c] A IH]; cbn; [tauto|]. intros Hin.
  destruct (String.eqb x y) eqn:Hxy.
  - apply String.eqb_eq in Hxy. subst. eauto.
  - assert (Hne : y <> x) by (intros ->; now rewrite String.eqb_refl in Hxy).
    destruct IH as (c' & Hc & Hin'); [tauto|]. eauto.
Qed.

Lemma in_zip_r (names : list string) : forall (cs : list loc) x c,
  In (x, c) (zip names cs) -> In c cs.
Proof.
  induction names as [|n names IH]; intros [|c0 cs] x c; cbn; try tauto.
  intros [[= _ ->]|Hin]; [now left|right; eauto].
Qed.

(** ** Let and letrec (C9) *)

Section Binding.

Variable ev : Expr -> E Value.

Lemma eval_args_length es : forall e s vs e1 s1,
  eval_args ev es e s = (Ret vs, e1, s1) -> length vs = length es.
Proof.
  induction es as [|x es IH]; intros e s vs e1 s1; cbn [eval_args].
  - unfold retE. now intros [= <- _ _].
  - unfold bindE at 1. destruct (ev x e s) as [[[v| | |] e'] s']; try discriminate.
    unfold bindE at 1.
    destruct (eval_args ev es e' s') as [[[vs'| | |] e''] s''] eqn:Hrest;
      try discriminate.
    unfold retE. intros [= <- _ _]. cbn. f_equal. eauto.
Qed.

Lemma Let_eval_run bind body e s vals e1 s1 :
  eval_args ev (map snd bind) e s = (Ret vals, e1, s1) ->
  Let_eval ev bind body e s
  = (let '(r, _, s3) :=
       ev body (fresh_bindings (map fst bind) s1 ++ e1)
         (mkStore (objs s1) (cells s1 ++ vals) (out s1)) in
     (r, e1, s3)).
Proof.
  intros Hargs. unfold Let_eval, bindE at 1. rewrite Hargs.
  unfold bindE, get_env, liftH.
  rewrite extend_all_spec; [reflexivity|].
  apply eval_args_length in Hargs. now rewrite Hargs, !length_map.
Qed.

Lemma letrec_assign_run bind env s env1 s1 :
  assigned ev bind env s env1 s1 ->
  letrec_assign ev bind env s = (Ret tt, env1, s1).
Proof.
  induction 1 as [|x rhs rest env s v env1 s1 env' s' Hrhs Hrest IH];
    [reflexivity|].
  cbn [letrec_assign fst snd]. unfold bindE at 1. rewrite Hrhs.
  unfold bindE, get_env, liftH.
  destruct (modify x v env1 s1) as [[[]| | |] sm] eqn:Hm;
    try (unfold modify in Hm; destruct (lookup_cell x env1); discriminate).
  cbn [snd] in IH. exact IH.
Qed.

Lemma Letrec_eval_run bind body e s env1 s1 :
  assigned ev bind (fresh_bindings (map fst bind) s ++ e)
    (mkStore (objs s) (cells s ++ replicate (length bind) None) (out s))
    env1 s1 ->
  Letrec_eval ev bind body e s
  = (let '(r, _, s2) := ev body env1 s1 in (r, e, s2)).
Proof.
  intros Hassigned. unfold Letrec_eval, bindE at 1, get_env.
  unfold bindE at 1, liftH at 1. rewrite letrec_placeholders_spec.
  unfold in_env, bindE. rewrite (letrec_assign_run _ _ _ _ _ Hassigned).
  reflexivity.
Qed.

End Binding.

Lemma find_fresh names vals env s s' i x v :
  List.NoDup names -> length vals = length names ->
  names !! i = Some x -> vals !! i = Some v ->
  cells s' = cells s ++ vals ->
  find x (fresh_bindings names s ++ env) s' = (Ret v, s').
Proof.
  intros Hnd Hlen Hx Hv Hcells. unfold find, fresh_bindings.
  assert (Hi : (i < length names)%nat) by (apply lookup_lt_Some in Hx; lia).
  rewrite lookup_cell_app.
  rewrite (lookup_cell_fresh names _ i x (length (cells s) + i)%nat);
    [|assumption|now rewrite length_seq|assumption|now apply lookup_seq_lt].
  rewrite Hcells, lookup_app_r by lia.
  replace (length (cells s) + i - length (cells s))%nat with i by lia.
  now rewrite Hv.
Qed.

Lemma lookup_cell_outer names s env y :
  ~ In y names ->
  lookup_cell y (fresh_bindings names s ++ env) = lookup_cell y env.
Proof.
  intros Hnot. rewrite lookup_cell_app, lookup_cell_absent; [reflexivity|].
  unfold fresh_bindings. rewrite map_fst_rev_zip by now rewrite length_seq.
  now rewrite <- in_rev.
Qed.

Lemma find_placeholder names env s x :
  In x names ->
  find x (fresh_bindings names s ++ env)
    (mkStore (objs s) (cells s ++ replicate (length names) None) (out s))
  = (Ret None,
     mkStore (objs s) (cells s ++ replicate (length names) None) (out s)).
Proof.
  intros Hin. unfold find. rewrite lookup_cell_app.
  destruct (lookup_cell_present x (fresh_bindings names s)) as (c & Hc & Hpair).
  { unfold fresh_bindings. rewrite map_fst_rev_zip by now rewrite length_seq.
    now rewrite <- in_rev. }
  rewrite Hc. unfold fresh_bindings in Hpair.
  apply in_rev, in_zip_r, in_seq in Hpair. cbn [cells].
  rewrite lookup_app_r by lia.
  rewrite lookup_replicate_2 by lia. reflexivity.
Qed.

Section Letrec_lambdas.

Variables (primitives reserved_words : gmap string ExprType) (fuel : nat).
Variables (defs : list (string * (list string * Expr))) (e : Assoc) (s : Store).
Hypothesis Hnd : List.NoDup (map fst defs).

Let ev := eval primitives reserved_words (S fuel).
Let new_env := fresh_bindings (map fst defs) s ++ e.

(** The store once the first [k] lambdas, [done], have been assigned. *)
Let partial (done : list (string * (list string * Expr))) : Store :=
  mkStore (objs s ++ closures new_env done)
    (cells s ++ pointers (length (objs s)) (length done)
       ++ replicate (length defs - length done) None)
    (out s).

Lemma assigned_lambdas_from todo : forall done,
  defs = done ++ todo ->
  assigned ev (lambda_bindings todo) new_env (partial done)
    new_env (partial defs).
Proof.
  induction todo as [|[x [ps b]] todo IH]; intros done Hdefs.
  - rewrite app_nil_r in Hdefs. subst done. apply assigned_nil.
  - cbn [lambda_bindings map fst snd].
    eapply assigned_cons; [reflexivity|].
    assert (Hk : (length done < length defs)%nat).
    { rewrite Hdefs, length_app. cbn. lia. }
    assert (Hx : map fst defs !! length done = Some x).
    { rewrite Hdefs, map_app. rewrite lookup_app_r by now rewrite length_map.
      now rewrite length_map, Nat.sub_diag. }
    assert (Hcell : lookup_cell x new_env
                    = Some (length (cells s) + length done)%nat).
    { unfold new_env, fresh_bindings. rewrite lookup_cell_app.
      rewrite (lookup_cell_fresh _ _ (length done) x
                 (length (cells s) + length done)%nat);
        [reflexivity|assumption|now rewrite length_seq|assumption|].
      apply lookup_seq_lt. now rewrite length_map. }
    unfold modify. rewrite Hcell. cbn [snd objs cells out].
    replace (mkStore _ _ _) with (partial (done ++ [(x, (ps, b))])).
    + apply IH. now rewrite <- app_assoc.
    + unfold partial, closures, pointers. f_equal.
      * rewrite map_app, app_assoc. reflexivity.
      * cbn [cells objs out]. symmetry. rewrite insert_app_r_alt by lia.
        replace (length (cells s) + length done - length (cells s))%nat
          with (length done) by lia.
        rewrite insert_app_r_alt by (rewrite length_map, length_seq; lia).
        rewrite length_map, length_seq, Nat.sub_diag.
        rewrite !length_app, length_map. cbn [length].
        replace (length defs - length done)%nat
          with (S (length defs - (length done + 1))) by lia.
        cbn [replicate insert list_insert].
        rewrite Nat.add_1_r, seq_S, map_app, <- app_assoc. reflexivity.
Qed.

End Letrec_lambdas.

Lemma lookup_map {A B} (f : A -> B) (l : list A) i :
  map f l !! i = f <$> l !! i.
Proof.
  revert i. induction l as [|a l IH]; intros [|i]; cbn; auto.
Qed.

(** C9.  [Let]: once the right-hand sides have been evaluated one after
    the other in the outer environment, the body is evaluated in that
    environment extended with one fresh cell per binding; there every
    bound name finds its value and every other name finds what it found
    outside.  [Letrec]: the environment is first extended with one cell
    per name, each holding the null pointer; the right-hand sides are then
    evaluated in turn in the extended environment, each result being
    written by [modify] into the cell of its name (the cell made for it,
    when the names are distinct); the body is evaluated last.  When
    the right-hand sides are lambdas with distinct names every name is
    bound, in the environment that all the closures share, to the closure
    of its lambda, so references forward and backward both resolve. *)
Theorem Let_Letrec_spec primitives reserved_words fuel :
  let ev := eval primitives reserved_words fuel in
  let eval' := eval primitives reserved_words (S fuel) in
  (forall bind body e s vals e1 s1,
     eval_args ev (map snd bind) e s = (Ret vals, e1, s1) ->
     let new_env := fresh_bindings (map fst bind) s1 ++ e1 in
     let s2 := mkStore (objs s1) (cells s1 ++ vals) (out s1) in
     eval' (Let bind body) e s
     = (let '(r, _, s3) := ev body new_env s2 in (r, e1, s3)) /\
     (List.NoDup (map fst bind) ->
      forall i x v, map fst bind !! i = Some x -> vals !! i = Some v ->
                    find x new_env s2 = (Ret v, s2)) /\
     (forall y, ~ In y (map fst bind) ->
                lookup_cell y new_env = lookup_cell y e1)) /\
  (forall bind body e s,
     let new_env := fresh_bindings (map fst bind) s ++ e in
     let s0 := mkStore (objs s) (cells s ++ replicate (length bind) None)
                 (out s) in
     (forall x, In x (map fst bind) -> find x new_env s0 = (Ret None, s0)) /\
     (List.NoDup (map fst bind) ->
      forall i x v s', map fst bind !! i = Some x ->
        modify x v new_env s'
        = (Ret tt, mkStore (objs s')
                     (<[(length (cells s) + i)%nat:=v]> (cells s')) (out s'))) /\
     (forall env1 s1,
        assigned ev bind new_env s0 env1 s1 ->
        eval' (Letrec bind body) e s
        = (let '(r, _, s2) := ev body env1 s1 in (r, e, s2)))) /\
  (forall defs body e s,
     List.NoDup (map fst defs) ->
     let new_env := fresh_bindings (map fst defs) s ++ e in
     let s1 := mkStore (objs s ++ closures new_env defs)
                 (cells s ++ pointers (length (objs s)) (length defs))
                 (out s) in
     eval primitives reserved_words (S (S fuel))
       (Letrec (lambda_bindings defs) body) e s
     = (let '(r, _, s2) :=
          eval primitives reserved_words (S fuel) body new_env s1 in
        (r, e, s2)) /\
     (forall i x ps b,
        defs !! i = Some (x, (ps, b)) ->
        find x new_env s1 = (Ret (Some (length (objs s) + i)%nat), s1) /\
        objs s1 !! (length (objs s) + i)%nat = Some (Procedure ps b new_env))).
Proof.
  intros ev eval'. split; [|split].
  - intros bind body e s vals e1 s1 Hargs new_env s2. split; [|split].
    + unfold eval'. rewrite eval_S. cbn [eval_node].
      now apply Let_eval_run.
    + intros Hnd i x v Hx Hv. apply find_fresh with vals i; try assumption;
        [|reflexivity].
      apply eval_args_length in Hargs. now rewrite Hargs, !length_map.
    + intros y Hy. now apply lookup_cell_outer.
  - intros bind body e s new_env s0. split; [|split].
    + intros x Hx. unfold new_env, s0.
      replace (length bind) with (length (map fst bind)) by apply length_map.
      now apply find_placeholder.
    + intros Hnd i x v s' Hx. unfold modify, new_env, fresh_bindings.
      rewrite lookup_cell_app.
      rewrite (lookup_cell_fresh _ _ i x (length (cells s) + i)%nat);
        [reflexivity|assumption|now rewrite length_seq|assumption|].
      apply lookup_seq_lt. now apply lookup_lt_Some in Hx.
    + intros env1 s1 Hassigned. unfold eval'. rewrite eval_S. cbn [eval_node].
      now apply Letrec_eval_run.
  - intros defs body e s Hnd new_env s1.
    assert (Hnames : map fst (lambda_bindings defs) = map fst defs).
    { unfold lambda_bindings. rewrite map_map. reflexivity. }
    assert (Hlen : length (lambda_bindings defs) = length defs)
      by apply length_map.
    split.
    + rewrite eval_S. cbn [eval_node].
      apply Letrec_eval_run. rewrite Hnames, Hlen.
      pose proof (assigned_lambdas_from primitives reserved_words fuel defs e s
                    Hnd defs [] eq_refl) as Hrun.
      cbn [length closures pointers map seq app] in Hrun.
      rewrite Nat.sub_0_r, Nat.sub_diag, !app_nil_r in Hrun.
      exact Hrun.
    + intros i x ps b Hi. split.
      * apply find_fresh with (pointers (length (objs s)) (length defs)) i;
          try assumption.
        -- unfold pointers. now rewrite length_map, length_seq, length_map.
        -- rewrite lookup_map, Hi. reflexivity.
        -- unfold pointers. rewrite lookup_map.
           rewrite lookup_seq_lt by (apply lookup_lt_Some in Hi; lia).
           reflexivity.
        -- reflexivity.
      * unfold s1. cbn [objs]. rewrite lookup_app_r by lia.
        replace (length (objs s) + i - length (objs s))%nat with i by lia.
        unfold closures. rewrite lookup_map, Hi. reflexivity.
Qed.

(** In (let ((x 2) (y x)) y), evaluated where x is 1, y is the outer x;
    and the mutually recursive even?/odd? of a letrec answer #t on 10. *)
Lemma Let_Letrec_spec_witness :
  (exists s',
     eval sample_primitives sample_reserved_words 3
       (Let [("x"%string, Fixnum 2); ("y"%string, Var "x")] (Var "y"))
       [("x"%string, 0%nat)] (mkStore [Integer 1] [Some 0%nat] [])
     = (Ret (Some 0%nat), [("x"%string, 0%nat)], s')) /\
  (exists l s',
     eval sample_primitives sample_reserved_words 100 even_odd_program []
       empty_store = (Ret (Some l), [], s') /\
     objs s' !! l = Some (Boolean true)).
Proof.
  split.
  - destruct (Let_Letrec_spec sample_primitives sample_reserved_words 2)
      as (Hlet & _ & _).
    destruct (Hlet [("x"%string, Fixnum 2); ("y"%string, Var "x")] (Var "y")
                [("x"%string, 0%nat)] (mkStore [Integer 1] [Some 0%nat] [])
                [Some 1%nat; Some 0%nat] [("x"%string, 0%nat)]
                (mkStore [Integer 1; Integer 2] [Some 0%nat] []) eq_refl)
      as (Hrun & _ & _).
    eexists. rewrite Hrun. reflexivity.
  - destruct (Let_Letrec_spec sample_primitives sample_reserved_words 98)
      as (_ & _ & Hletrec).
    destruct (Hletrec even_odd_defs (Begin [Apply (Var "even?") [Fixnum 10]])
                [] empty_store) as (Hrun & _).
    { repeat constructor; cbn; intuition discriminate. }
    eexists. eexists. split.
    + unfold even_odd_program. rewrite Hrun. vm_compute. reflexivity.
    + reflexivity.
Defined.

(** * Further properties of the evaluator and the parser *)

(** ** Exact arithmetic within the [int] range *)

Lemma normalize_exact num den s :
  in_sym num -> in_sym den -> den <> 0 ->
  normalize (wrap num) (wrap den) s = alloc (number (reduced num den)) s.
Proof.
  intros Hnum Hden Hnz. rewrite (wrap_sym num), (wrap_sym den) by assumption.
  rewrite normalize_run; [|now apply in_sym_int|assumption|assumption].
  now rewrite reduced32_exact.
Qed.

(** X1.  Addition is exact within the [int] range.  For operands that stand
    for the fractions a/b and c/d, [addValues] returns a fresh object that
    holds (a*d + c*b)/(b*d) in lowest terms with a positive denominator, an
    Integer when that denominator is 1, provided b*d is not zero and both
    a*d + c*b and b*d lie in the symmetric [int] range. *)
Theorem addValues_exact s v1 v2 o1 o2 a b c d :
  deref v1 s = (Ret o1, s) -> deref v2 s = (Ret o2, s) ->
  frac o1 = Some (a, b) -> frac o2 = Some (c, d) ->
  int_fields o1 -> int_fields o2 ->
  b * d <> 0 -> in_sym (a * d + c * b) -> in_sym (b * d) ->
  addValues v1 v2 s = alloc (number (reduced (a * d + c * b) (b * d))) s /\
  0 < snd (reduced (a * d + c * b) (b * d)) /\
  Z.gcd (fst (reduced (a * d + c * b) (b * d)))
        (snd (reduced (a * d + c * b) (b * d))) = 1 /\
  fst (reduced (a * d + c * b) (b * d)) * (b * d)
  = snd (reduced (a * d + c * b) (b * d)) * (a * d + c * b).
Proof.
  intros H1 H2 F1 F2 I1 I2 Hbd Hnum Hden. split; [|now apply reduced_spec].
  rewrite (addValues_run s v1 v2 o1 o2 a b c d) by assumption.
  now apply normalize_exact.
Qed.

Lemma addValues_exact_witness :
  addValues (Some 0%nat) (Some 1%nat) (mkStore [Rational 1 2; Rational 1 3] [] [])
  = alloc (Rational 5 6) (mkStore [Rational 1 2; Rational 1 3] [] []) /\
  addValues (Some 0%nat) (Some 1%nat) (mkStore [Integer 2; Rational 1 2] [] [])
  = alloc (Rational 5 2) (mkStore [Integer 2; Rational 1 2] [] []) /\
  addValues (Some 0%nat) (Some 1%nat) (mkStore [Rational 1 2; Rational 1 2] [] [])
  = alloc (Integer 1) (mkStore [Rational 1 2; Rational 1 2] [] []).
Proof.
  split; [|split].
  - refine (proj1 (addValues_exact (mkStore [Rational 1 2; Rational 1 3] [] [])
                     (Some 0%nat) (Some 1%nat) (Rational 1 2) (Rational 1 3) 1 2 1 3
                     eq_refl eq_refl eq_refl eq_refl _ _ _ _ _));
      unfold int_fields, in_sym, in_int, INT_MIN, INT_MAX; lia.
  - refine (proj1 (addValues_exact (mkStore [Integer 2; Rational 1 2] [] [])
                     (Some 0%nat) (Some 1%nat) (Integer 2) (Rational 1 2) 2 1 1 2
                     eq_refl eq_refl eq_refl eq_refl _ _ _ _ _));
      unfold int_fields, in_sym, in_int, INT_MIN, INT_MAX; lia.
  - refine (proj1 (addValues_exact (mkStore [Rational 1 2; Rational 1 2] [] [])
                     (Some 0%nat) (Some 1%nat) (Rational 1 2) (Rational 1 2) 1 2 1 2
                     eq_refl eq_refl eq_refl eq_refl _ _ _ _ _));
      unfold int_fields, in_sym, in_int, INT_MIN, INT_MAX; lia.
Defined.

(** X2.  Subtraction is exact within the [int] range.  For operands that
    stand for a/b and c/d, [subtractValues] returns a fresh object that holds
    (a*d - c*b)/(b*d) in lowest terms with a positive denominator, an Integer
    when that denominator is 1, provided b*d is not zero and both a*d - c*b
    and b*d lie in the symmetric [int] range; a number minus itself is the
    Integer 0. *)
Theorem subtractValues_exact s v1 v2 o1 o2 a b c d :
  deref v1 s = (Ret o1, s) -> deref v2 s = (Ret o2, s) ->
  frac o1 = Some (a, b) -> frac o2 = Some (c, d) ->
  int_fields o1 -> int_fields o2 ->
  b * d <> 0 -> in_sym (a * d - c * b) -> in_sym (b * d) ->
  subtractValues v1 v2 s = alloc (number (reduced (a * d - c * b) (b * d))) s /\
  0 < snd (reduced (a * d - c * b) (b * d)) /\
  Z.gcd (fst (reduced (a * d - c * b) (b * d)))
        (snd (reduced (a * d - c * b) (b * d))) = 1 /\
  fst (reduced (a * d - c * b) (b * d)) * (b * d)
  = snd (reduced (a * d - c * b) (b * d)) * (a * d - c * b) /\
  (a = c -> b = d -> subtractValues v1 v2 s = alloc (Integer 0) s).
Proof.
  intros H1 H2 F1 F2 I1 I2 Hbd Hnum Hden.
  assert (Hrun : subtractValues v1 v2 s
                 = alloc (number (reduced (a * d - c * b) (b * d))) s).
  { rewrite (subtractValues_run s v1 v2 o1 o2 a b c d) by assumption.
    now apply normalize_exact. }
  split; [exact Hrun|].
  destruct (reduced_spec (a * d - c * b) (b * d) Hbd) as (Hq & Hg & Hx).
  repeat split; try assumption.
  intros -> ->. rewrite Hrun. f_equal.
  replace (c * d - c * d) with 0 by ring.
  unfold reduced, number. rewrite Z.gcd_0_l.
  assert (Hdd : d * d <> 0) by assumption.
  rewrite Z.div_0_l by lia.
  destruct (Z.abs_spec (d * d)) as [[Hpos Habs]|[Hneg Habs]].
  - rewrite Habs, Z.div_same by lia. reflexivity.
  - nia.
Qed.

Lemma subtractValues_exact_witness :
  subtractValues (Some 0%nat) (Some 1%nat)
    (mkStore [Rational 1 2; Rational 1 3] [] [])
  = alloc (Rational 1 6) (mkStore [Rational 1 2; Rational 1 3] [] []).
Proof.
  refine (proj1 (subtractValues_exact (mkStore [Rational 1 2; Rational 1 3] [] [])
                   (Some 0%nat) (Some 1%nat) (Rational 1 2) (Rational 1 3) 1 2 1 3
                   eq_refl eq_refl eq_refl eq_refl _ _ _ _ _));
    unfold int_fields, in_sym, in_int, INT_MIN, INT_MAX; lia.
Defined.

(** X3.  Multiplication is exact within the [int] range.  For operands that
    stand for a/b and c/d, [multiplyValues] returns a fresh object that holds
    (a*c)/(b*d) in lowest terms with a positive denominator, an Integer when
    that denominator is 1, provided b*d is not zero and both a*c and b*d lie
    in the symmetric [int] range. *)
Theorem multiplyValues_exact s v1 v2 o1 o2 a b c d :
  deref v1 s = (Ret o1, s) -> deref v2 s = (Ret o2, s) ->
  frac o1 = Some (a, b) -> frac o2 = Some (c, d) ->
  int_fields o1 -> int_fields o2 ->
  b * d <> 0 -> in_sym (a * c) -> in_sym (b * d) ->
  multiplyValues v1 v2 s = alloc (number (reduced (a * c) (b * d))) s /\
  0 < snd (reduced (a * c) (b * d)) /\
  Z.gcd (fst (reduced (a * c) (b * d))) (snd (reduced (a * c) (b * d))) = 1 /\
  fst (reduced (a * c) (b * d)) * (b * d)
  = snd (reduced (a * c) (b * d)) * (a * c).
Proof.
  intros H1 H2 F1 F2 I1 I2 Hbd Hnum Hden. split; [|now apply reduced_spec].
  rewrite (multiplyValues_run s v1 v2 o1 o2 a b c d) by assumption.
  now apply normalize_exact.
Qed.

Lemma multiplyValues_exact_witness :
  multiplyValues (Some 0%nat) (Some 1%nat)
    (mkStore [Rational 2 3; Rational 3 4] [] [])
  = alloc (Rational 1 2) (mkStore [Rational 2 3; Rational 3 4] [] []).
Proof.
  refine (proj1 (multiplyValues_exact (mkStore [Rational 2 3; Rational 3 4] [] [])
                   (Some 0%nat) (Some 1%nat) (Rational 2 3) (Rational 3 4) 2 3 3 4
                   eq_refl eq_refl eq_refl eq_refl _ _ _ _ _));
    unfold int_fields, in_sym, in_int, INT_MIN, INT_MAX; lia.
Defined.

Lemma bindH_deref {A} v o (k : ValueBase -> H A) s :
  deref v s = (Ret o, s) -> (x <- deref v ;; k x) s = k o s.
Proof. intros Hv. unfold bindH. now rewrite Hv. Qed.

(** X4.  Addition and multiplication are commutative whatever the operands:
    swapping the two operands of [addValues] or of [multiplyValues] gives the
    same value or the same error, and the same store, also when the 32-bit
    products wrap around or an operand is no number. *)
Theorem add_multiply_commute s v1 v2 o1 o2 :
  deref v1 s = (Ret o1, s) -> deref v2 s = (Ret o2, s) ->
  addValues v1 v2 s = addValues v2 v1 s /\
  multiplyValues v1 v2 s = multiplyValues v2 v1 s.
Proof.
  intros H1 H2. unfold addValues, multiplyValues.
  rewrite !(bindH_deref v1 o1), !(bindH_deref v2 o2),
    !(bindH_deref v1 o1) by assumption.
  split;
    destruct o1 as [n1|p1 q1| | | | | | | |], o2 as [n2|p2 q2| | | | | | | |];
    try reflexivity.
  - now rewrite Z.add_comm.
  - now rewrite Z.add_comm.
  - now rewrite Z.add_comm.
  - now rewrite Z.add_comm, (Z.mul_comm q1 q2).
  - now rewrite Z.mul_comm.
  - now rewrite Z.mul_comm.
  - now rewrite Z.mul_comm.
  - now rewrite (Z.mul_comm p1 p2), (Z.mul_comm q1 q2).
Qed.

Lemma add_multiply_commute_witness :
  addValues (Some 0%nat) (Some 1%nat) (mkStore [Integer 2; Rational 1 2] [] [])
  = addValues (Some 1%nat) (Some 0%nat) (mkStore [Integer 2; Rational 1 2] [] []) /\
  multiplyValues (Some 0%nat) (Some 1%nat) (mkStore [Integer 2; Rational 1 2] [] [])
  = multiplyValues (Some 1%nat) (Some 0%nat) (mkStore [Integer 2; Rational 1 2] [] []).
Proof.
  exact (add_multiply_commute (mkStore [Integer 2; Rational 1 2] [] [])
           (Some 0%nat) (Some 1%nat) (Integer 2) (Rational 1 2) eq_refl eq_refl).
Defined.

(** ** The remainder *)

(** X5.  modulo on two Integers: a zero divisor raises Division by zero;
    otherwise (INT_MIN modulo -1 apart, which C++ leaves undefined) the
    result is the truncated remainder r, with
    dividend = divisor * (dividend quot divisor) + r, |r| < |divisor|, and r
    zero or of the sign of the dividend.  On any other pair of operands it
    raises modulo is only defined for integers. *)
Theorem Modulo_evalRator_spec s rand1 rand2 o1 o2 :
  deref rand1 s = (Ret o1, s) -> deref rand2 s = (Ret o2, s) ->
  int_fields o1 -> int_fields o2 ->
  match o1, o2 with
  | Integer dividend, Integer divisor =>
      (divisor = 0 ->
       Modulo_evalRator rand1 rand2 s = (Raise "Division by zero", s)) /\
      (divisor <> 0 -> ~ (dividend = INT_MIN /\ divisor = -1) ->
       exists r,
         Modulo_evalRator rand1 rand2 s = alloc (Integer r) s /\
         dividend = divisor * Z.quot dividend divisor + r /\
         Z.abs r < Z.abs divisor /\
         0 <= r * dividend)
  | _, _ =>
      Modulo_evalRator rand1 rand2 s
      = (Raise "modulo is only defined for integers", s)
  end.
Proof.
  intros H1 H2 I1 I2. unfold Modulo_evalRator.
  rewrite (bindH_deref rand1 o1), (bindH_deref rand2 o2) by assumption.
  destruct o1 as [dividend| | | | | | | | |]; try reflexivity;
    destruct o2 as [divisor| | | | | | | | |]; try reflexivity.
  cbn in I1, I2. split.
  - intros ->. reflexivity.
  - intros Hnz _. exists (Z.rem dividend divisor).
    assert (Hd : (divisor =? 0) = false) by now apply Z.eqb_neq.
    rewrite Hd.
    pose proof (Z.rem_bound_abs dividend divisor Hnz) as Hb.
    pose proof (Z.rem_sign_mul dividend divisor Hnz) as Hs.
    pose proof (Z.quot_rem' dividend divisor) as Hqr.
    repeat split; try assumption.
    unfold IntegerV. rewrite wrap_id; [reflexivity|].
    unfold in_int, INT_MIN, INT_MAX in *. lia.
Qed.

(** (modulo 10 3) is 1 and (modulo -7 2) is -1: the sign is that of the
    dividend. *)
Lemma Modulo_evalRator_spec_witness :
  Modulo_evalRator (Some 0%nat) (Some 1%nat) (mkStore [Integer (-7); Integer 2] [] [])
  = alloc (Integer (-1)) (mkStore [Integer (-7); Integer 2] [] []).
Proof.
  destruct (Modulo_evalRator_spec (mkStore [Integer (-7); Integer 2] [] [])
              (Some 0%nat) (Some 1%nat) (Integer (-7)) (Integer 2)
              eq_refl eq_refl) as [_ Hnz];
    [unfold int_fields, in_int, INT_MIN, INT_MAX; lia
    |unfold int_fields, in_int, INT_MIN, INT_MAX; lia|].
  destruct Hnz as (r & Hrun & Hdiv & Habs & Hsign); [lia|unfold INT_MIN; lia|].
  rewrite Hrun. f_equal. f_equal.
  change (Z.quot (-7) 2) with (-3) in Hdiv. lia.
Defined.

(** ** Comparisons *)

Lemma cmp_sgn l r : cmp l r = Z.sgn (l - r).
Proof.
  unfold cmp. destruct (Z.ltb_spec l r); [lia|].
  destruct (Z.gtb_spec l r); lia.
Qed.

Lemma cmp_swap l r : cmp l r = - cmp r l.
Proof. rewrite !cmp_sgn. lia. Qed.

Lemma compareNumericValues_run s v1 v2 o1 o2 a b c d :
  deref v1 s = (Ret o1, s) -> deref v2 s = (Ret o2, s) ->
  frac o1 = Some (a, b) -> frac o2 = Some (c, d) ->
  in_int (a * d) -> in_int (c * b) ->
  compareNumericValues v1 v2 s = (Ret (Z.sgn (a * d - c * b)), s).
Proof.
  intros H1 H2 F1 F2 Il Ir. unfold compareNumericValues.
  rewrite (bindH_deref v1 o1), (bindH_deref v2 o2) by assumption.
  destruct o1; try discriminate F1; destruct o2; try discriminate F2;
    cbn in F1, F2; injection F1 as <- <-; injection F2 as <- <-;
    unfold retH; rewrite ?Z.mul_1_r in *;
    rewrite ?(Z.mul_comm n numerator), ?(Z.mul_comm n denominator) in *;
    rewrite ?wrap_id by assumption; rewrite cmp_sgn.
  all: try reflexivity.
  all: f_equal; f_equal; f_equal; ring.
Qed.

(** X6.  [compareNumericValues] on operands that stand for a/b and c/d
    returns the sign of a*d - c*b, which for positive denominators is -1, 0
    or 1 as a/b is below, equal to or above c/d, provided the two cross
    products are [int]s.  When an operand is no number it raises Wrong
    typename in numeric comparison. *)
Theorem compareNumericValues_spec s v1 v2 o1 o2 :
  deref v1 s = (Ret o1, s) -> deref v2 s = (Ret o2, s) ->
  (frac o1 = None \/ frac o2 = None ->
   compareNumericValues v1 v2 s
   = (Raise "Wrong typename in numeric comparison", s)) /\
  (forall a b c d,
     frac o1 = Some (a, b) -> frac o2 = Some (c, d) ->
     in_int (a * d) -> in_int (c * b) ->
     compareNumericValues v1 v2 s = (Ret (Z.sgn (a * d - c * b)), s)).
Proof.
  intros H1 H2. split.
  - unfold compareNumericValues.
    rewrite (bindH_deref v1 o1), (bindH_deref v2 o2) by assumption.
    intros [Hn|Hn].
    + destruct o1; try discriminate Hn; reflexivity.
    + destruct o1; destruct o2; try discriminate Hn; reflexivity.
  - intros a b c d. now apply compareNumericValues_run.
Qed.

(** 1/2 is below 2/3, and a string is no number. *)
Lemma compareNumericValues_spec_witness :
  compareNumericValues (Some 0%nat) (Some 1%nat)
    (mkStore [Rational 1 2; Rational 2 3; String_ "a"] [] [])
  = (Ret (-1), mkStore [Rational 1 2; Rational 2 3; String_ "a"] [] []) /\
  compareNumericValues (Some 0%nat) (Some 2%nat)
    (mkStore [Rational 1 2; Rational 2 3; String_ "a"] [] [])
  = (Raise "Wrong typename in numeric comparison",
     mkStore [Rational 1 2; Rational 2 3; String_ "a"] [] []).
Proof.
  split.
  - refine (proj2 (compareNumericValues_spec
                     (mkStore [Rational 1 2; Rational 2 3; String_ "a"] [] [])
                     (Some 0%nat) (Some 1%nat) (Rational 1 2) (Rational 2 3)
                     eq_refl eq_refl) 1 2 2 3 eq_refl eq_refl _ _);
      unfold in_int, INT_MIN, INT_MAX; lia.
  - exact (proj1 (compareNumericValues_spec
                    (mkStore [Rational 1 2; Rational 2 3; String_ "a"] [] [])
                    (Some 0%nat) (Some 2%nat) (Rational 1 2) (String_ "a")
                    eq_refl eq_refl) (or_intror eq_refl)).
Defined.

(** X7.  The five binary comparisons agree with one another, overflow or
    not: (< x y) is (> y x), (<= x y) is (>= y x) and (= x y) is (= y x), with
    the same error when an operand is no number; on two numbers exactly one
    of <, = and > is #t, <= is the negation of > and >= the negation
    of <. *)
Theorem comparisons_consistent s v1 v2 o1 o2 :
  deref v1 s = (Ret o1, s) -> deref v2 s = (Ret o2, s) ->
  Binary_evalRator Less v1 v2 s = Binary_evalRator Greater v2 v1 s /\
  Binary_evalRator LessEq v1 v2 s = Binary_evalRator GreaterEq v2 v1 s /\
  Binary_evalRator Equal v1 v2 s = Binary_evalRator Equal v2 v1 s /\
  (frac o1 <> None -> frac o2 <> None ->
   exists lt eq gt : bool,
     Binary_evalRator Less v1 v2 s = alloc (Boolean lt) s /\
     Binary_evalRator Equal v1 v2 s = alloc (Boolean eq) s /\
     Binary_evalRator Greater v1 v2 s = alloc (Boolean gt) s /\
     Binary_evalRator LessEq v1 v2 s = alloc (Boolean (negb gt)) s /\
     Binary_evalRator GreaterEq v1 v2 s = alloc (Boolean (negb lt)) s /\
     ((lt = true /\ eq = false /\ gt = false) \/
      (lt = false /\ eq = true /\ gt = false) \/
      (lt = false /\ eq = false /\ gt = true))).
Proof.
  intros H1 H2.
  assert (Hc : forall (t1 t2 : Z -> bool),
             (forall c, t1 c = t2 (- c)) ->
             compare_with t1 v1 v2 s = compare_with t2 v2 v1 s).
  { intros t1 t2 Ht. unfold compare_with, compareNumericValues, bindH.
    rewrite H1, H2. cbv beta iota. rewrite ?H1, ?H2.
    destruct o1; destruct o2; try reflexivity;
      cbv beta iota delta [retH BooleanV]; rewrite Ht, <- cmp_swap;
      reflexivity. }
  cbn [Binary_evalRator].
  split; [apply Hc; intros c; lia|].
  split; [apply Hc; intros c; lia|].
  split; [apply Hc; intros c; lia|].
  intros F1 F2.
  assert (Hr : exists c, compareNumericValues v1 v2 s = (Ret c, s) /\
                         (c = -1 \/ c = 0 \/ c = 1)).
  { unfold compareNumericValues, bindH. rewrite H1. cbv beta iota.
    rewrite H2.
    destruct o1; try (exfalso; apply F1; reflexivity);
      destruct o2; try (exfalso; apply F2; reflexivity);
      (eexists; split; [reflexivity|]; rewrite cmp_sgn; lia). }
  destruct Hr as (c & Hrun & Hc3).
  exists (c <? 0), (c =? 0), (c >? 0).
  unfold compare_with, bindH. rewrite Hrun. unfold BooleanV.
  repeat (split; [first [reflexivity | f_equal; f_equal; lia]|]).
  lia.
Qed.

Lemma comparisons_consistent_witness :
  Binary_evalRator Less (Some 0%nat) (Some 1%nat)
    (mkStore [Rational 1 2; Integer 1] [] [])
  = Binary_evalRator Greater (Some 1%nat) (Some 0%nat)
      (mkStore [Rational 1 2; Integer 1] [] []).
Proof.
  exact (proj1 (comparisons_consistent (mkStore [Rational 1 2; Integer 1] [] [])
                  (Some 0%nat) (Some 1%nat) (Rational 1 2) (Integer 1)
                  eq_refl eq_refl)).
Defined.

Lemma compare_chain_spec bad test s args fs :
  (forall c, bad c = negb (test c)) ->
  Forall2 (points_to_frac s) args fs ->
  Forall cross_in_int (adjacent fs) ->
  compare_chain bad args s
  = alloc (Boolean (forallb (fun xy => test (cross xy)) (adjacent fs))) s.
Proof.
  intros Hbad Hargs. induction Hargs as [|v f args fs Hv Hrest IH];
    [reflexivity|].
  destruct Hrest as [|v' f' args' fs' Hv' Hrest'].
  - intros _. reflexivity.
  - unfold adjacent in *. cbn [tail zip zip_with forallb].
    intros Hin. apply Forall_cons in Hin as [Hin1 Hin].
    destruct Hv as (o & Ho & Fo), Hv' as (o' & Ho' & Fo').
    destruct f as [a b], f' as [c d].
    pose proof (compareNumericValues_run s v v' o o' a b c d Ho Ho' Fo Fo'
                  (proj1 Hin1) (proj2 Hin1)) as Hcmp.
    cbn [compare_chain]. unfold bindH at 1. rewrite Hcmp.
    rewrite Hbad. unfold cross at 1. cbn [fst snd].
    destruct (test _); cbn [negb andb]; [|reflexivity].
    apply IH. exact Hin.
Qed.

(** X8.  A variadic comparison on numbers whose neighbouring cross products
    are [int]s returns #t exactly when its relation holds between every two
    neighbours; with fewer than two arguments it is #t. *)
Theorem variadic_comparison_spec op s args fs :
  is_comparison op = true ->
  Forall2 (points_to_frac s) args fs ->
  Forall cross_in_int (adjacent fs) ->
  Variadic_evalRator op args s
  = alloc (Boolean (forallb (fun xy => holds op (cross xy)) (adjacent fs))) s.
Proof.
  intros Hop Hargs Hin.
  destruct op; try discriminate Hop; cbn [Variadic_evalRator];
    apply compare_chain_spec; try assumption;
    intros c; cbn [holds]; lia.
Qed.

(** (< 1 3/2 2) is #t and (< 1 2 2) is #f. *)
Lemma variadic_comparison_spec_witness :
  Variadic_evalRator LessVar [Some 0%nat; Some 1%nat; Some 2%nat]
    (mkStore [Integer 1; Rational 3 2; Integer 2] [] [])
  = alloc (Boolean true) (mkStore [Integer 1; Rational 3 2; Integer 2] [] []) /\
  Variadic_evalRator LessVar [Some 0%nat; Some 2%nat; Some 2%nat]
    (mkStore [Integer 1; Rational 3 2; Integer 2] [] [])
  = alloc (Boolean false) (mkStore [Integer 1; Rational 3 2; Integer 2] [] []).
Proof.
  split.
  - apply (variadic_comparison_spec LessVar
             (mkStore [Integer 1; Rational 3 2; Integer 2] [] [])
             [Some 0%nat; Some 1%nat; Some 2%nat] [(1, 1); (3, 2); (2, 1)]
             eq_refl).
    + repeat constructor; eexists; split; reflexivity.
    + repeat constructor; cbn; unfold INT_MIN, INT_MAX; lia.
  - apply (variadic_comparison_spec LessVar
             (mkStore [Integer 1; Rational 3 2; Integer 2] [] [])
             [Some 0%nat; Some 2%nat; Some 2%nat] [(1, 1); (2, 1); (2, 1)]
             eq_refl).
    + repeat constructor; eexists; split; reflexivity.
    + repeat constructor; cbn; unfold INT_MIN, INT_MAX; lia.
Defined.

(** ** Binary and variadic nodes *)

Lemma bindH_retH {A} (m : H A) s : (r <- m ;; retH r) s = m s.
Proof. unfold bindH, retH. destruct (m s) as [[a|msg| |] s']; reflexivity. Qed.

(** X9.  For the nine operators that have a binary and a variadic node (the
    four arithmetic operations and the five comparisons), the [evalRator]
    of the variadic node on a vector of exactly two values returns what the
    [evalRator] of the binary node returns on these two values: same value,
    same error, same store.  (The order in which either node evaluates its
    operand expressions is no part of this.) *)
Theorem binary_variadic_agree t b v rand1 rand2 s :
  nodes_of t = Some (b, v) ->
  Variadic_evalRator v [rand1; rand2] s = Binary_evalRator b rand1 rand2 s.
Proof.
  intros Hn.
  destruct t; try discriminate Hn; cbn in Hn; injection Hn as <- <-;
    cbn [Variadic_evalRator Binary_evalRator PlusVar_evalRator
         MinusVar_evalRator MultVar_evalRator DivVar_evalRator fold_args
         compare_chain].
  1-4: apply bindH_retH.
  all: unfold compare_with, bindH, BooleanV;
    destruct (compareNumericValues rand1 rand2 s) as [[c|msg| |] s'];
    try reflexivity.
  all: destruct (Z.ltb_spec c 0), (Z.leb_spec c 0), (Z.eqb_spec c 0),
         (Z.geb_spec c 0), (Z.gtb_spec c 0); cbn; try reflexivity; lia.
Qed.

Lemma binary_variadic_agree_witness :
  Variadic_evalRator MinusVar [Some 0%nat; Some 1%nat]
    (mkStore [Integer 5; Rational 1 2] [] [])
  = Binary_evalRator Minus (Some 0%nat) (Some 1%nat)
      (mkStore [Integer 5; Rational 1 2] [] []).
Proof.
  exact (binary_variadic_agree E_MINUS Minus MinusVar (Some 0%nat) (Some 1%nat)
           (mkStore [Integer 5; Rational 1 2] [] []) eq_refl).
Defined.

(** ** Pairs and lists *)

Lemma grows_refl s : grows s s.
Proof. split; [exists []; now rewrite app_nil_r|split; reflexivity]. Qed.

Lemma grows_trans s1 s2 s3 : grows s1 s2 -> grows s2 s3 -> grows s1 s3.
Proof.
  intros ([n1 H1] & C1 & O1) ([n2 H2] & C2 & O2). split; [|split; congruence].
  exists (n1 ++ n2). rewrite H2, H1. now rewrite app_assoc.
Qed.

Lemma grows_alloc o s : grows s (snd (alloc o s)).
Proof. split; [exists [o]; reflexivity|split; reflexivity]. Qed.

Lemma deref_grows s s' v o :
  grows s s' -> deref v s = (Ret o, s) -> deref v s' = (Ret o, s').
Proof.
  intros ([new Hn] & _ & _). rewrite !deref_Some.
  intros (l & -> & Hl). exists l. split; [reflexivity|].
  rewrite Hn. now apply lookup_app_l_Some.
Qed.

Lemma chain_grows s s' v vs o :
  grows s s' -> chain s v vs o -> chain s' v vs o.
Proof.
  intros Hg Hc. induction Hc as [v o Hv Hn|v a d vs o Hv Hc IH].
  - apply chain_end; [now apply (deref_grows s)|assumption].
  - apply chain_pair with d; [now apply (deref_grows s)|assumption].
Qed.

Lemma deref_det s v o o' :
  deref v s = (Ret o, s) -> deref v s = (Ret o', s) -> o = o'.
Proof. intros H1 H2. rewrite H1 in H2. now injection H2. Qed.

Lemma chain_det s v vs o :
  chain s v vs o -> forall vs' o', chain s v vs' o' -> vs = vs' /\ o = o'.
Proof.
  induction 1 as [v o Hv Hn|v a d vs o Hv Hc IH]; intros vs' o' Hc'.
  - destruct Hc' as [v o' Hv' _|v a' d' vs' o' Hv' _].
    + split; [reflexivity|]. eapply deref_det; eassumption.
    + pose proof (deref_det _ _ _ _ Hv Hv') as ->. now destruct (Hn a' d').
  - destruct Hc' as [v o' Hv' Hn'|v a' d' vs' o' Hv' Hc'].
    + pose proof (deref_det _ _ _ _ Hv Hv') as <-. now destruct (Hn' a d).
    + pose proof (deref_det _ _ _ _ Hv Hv') as [= <- <-].
      destruct (IH _ _ Hc') as [-> ->]. now split.
Qed.

(** The objects of a chain lie at pairwise different addresses. *)
Lemma chain_addresses s v vs o :
  chain s v vs o ->
  exists ls : list nat,
    length ls = S (length vs) /\ NoDup ls /\
    (forall l, l ∈ ls -> (l < length (objs s))%nat) /\
    (forall l, l ∈ ls ->
       exists vs', chain s (Some l) vs' o /\ (length vs' <= length vs)%nat).
Proof.
  induction 1 as [v o Hv Hn|v a d vs o Hv Hc IH].
  - pose proof Hv as Hv'. apply deref_Some in Hv' as (l & -> & Hl).
    exists [l]. split; [reflexivity|]. split; [apply NoDup_singleton|].
    split; intros l' ->%list_elem_of_singleton.
    + eapply lookup_lt_Some; eassumption.
    + exists []. split; [now apply chain_end|reflexivity].
  - destruct IH as (ls & Hlen & Hnd & Hlt & Hsub).
    pose proof Hv as Hv'. apply deref_Some in Hv' as (l & -> & Hl).
    exists (l :: ls). split; [cbn; now rewrite Hlen|].
    split; [|split].
    + apply NoDup_cons. split; [|assumption].
      intros Hin. destruct (Hsub l Hin) as (vs' & Hc' & Hle).
      assert (Hfull : chain s (Some l) (a :: vs) o)
        by (eapply chain_pair; eassumption).
      destruct (chain_det _ _ _ _ Hfull _ _ Hc') as [<- _]. cbn in Hle. lia.
    + intros l' [->|Hin]%elem_of_cons; [|now apply Hlt].
      eapply lookup_lt_Some; eassumption.
    + intros l' [->|Hin]%elem_of_cons.
      * exists (a :: vs). split; [|reflexivity].
        eapply chain_pair; eassumption.
      * destruct (Hsub l' Hin) as (vs' & Hc' & Hle). exists vs'.
        split; [assumption|]. cbn. lia.
Qed.

Lemma chain_short s v vs o :
  chain s v vs o -> (length vs < length (objs s))%nat.
Proof.
  intros Hc. destruct (chain_addresses _ _ _ _ Hc) as (ls & Hlen & Hnd & Hlt & _).
  assert (Hsub : ls ⊆+ seq 0 (length (objs s))).
  { apply NoDup_submseteq; [assumption|].
    intros l Hl. apply elem_of_seq. specialize (Hlt l Hl). lia. }
  apply submseteq_length in Hsub. rewrite length_seq in Hsub. lia.
Qed.

Lemma list_walk_chain s v vs o :
  chain s v vs o -> forall n, (length vs <= n)%nat ->
  list_walk n v s = alloc (Boolean (is_null o)) s.
Proof.
  induction 1 as [v o Hv Hn|v a d vs o Hv Hc IH]; intros n Hle.
  - destruct n; cbn [list_walk]; rewrite (bindH_deref v o) by assumption;
      destruct o; try reflexivity; now destruct (Hn car cdr).
  - destruct n as [|n]; [cbn in Hle; lia|].
    cbn [list_walk]. rewrite (bindH_deref v (Pair a d)) by assumption.
    apply IH. cbn in Hle. lia.
Qed.

Lemma IsList_evalRator_chain s rand vs o :
  chain s rand vs o ->
  IsList_evalRator rand s = alloc (Boolean (is_null o)) s.
Proof.
  intros Hc. pose proof (chain_short _ _ _ _ Hc) as Hshort.
  unfold IsList_evalRator. destruct Hc as [v o Hv Hn|v a d vs o Hv Hc].
  - rewrite (bindH_deref v o) by assumption.
    destruct o; try reflexivity. now destruct (Hn car cdr).
  - rewrite (bindH_deref v (Pair a d)) by assumption.
    apply list_walk_chain with (a :: vs); [|lia].
    eapply chain_pair; eassumption.
Qed.

(** X13.  list? terminates on every finite chain: if its operand heads a
    chain of pairs that ends in an object that is no pair, list? returns #t
    exactly when that object is the empty list.  Such a chain has fewer
    pairs than the store has objects, which is why the walk is long
    enough. *)
Theorem IsList_evalRator_spec s rand vs o :
  chain s rand vs o ->
  Unary_evalRator IsList rand s = alloc (Boolean (is_null o)) s /\
  (length vs < length (objs s))%nat.
Proof.
  intros Hc. split; [now apply IsList_evalRator_chain with vs|].
  now apply chain_short with rand o.
Qed.

(** (list? '(1 2)) on a hand-built chain, and on a chain that ends in an
    Integer. *)
Lemma IsList_evalRator_spec_witness :
  Unary_evalRator IsList (Some 3%nat)
    (mkStore [Null; Integer 2; Pair (Some 1%nat) (Some 0%nat);
              Pair (Some 1%nat) (Some 2%nat)] [] [])
  = alloc (Boolean true)
      (mkStore [Null; Integer 2; Pair (Some 1%nat) (Some 0%nat);
                Pair (Some 1%nat) (Some 2%nat)] [] []) /\
  Unary_evalRator IsList (Some 2%nat)
    (mkStore [Null; Integer 2; Pair (Some 0%nat) (Some 1%nat)] [] [])
  = alloc (Boolean false)
      (mkStore [Null; Integer 2; Pair (Some 0%nat) (Some 1%nat)] [] []).
Proof.
  split.
  - apply (IsList_evalRator_spec _ (Some 3%nat) [Some 1%nat; Some 1%nat] Null).
    eapply chain_pair; [reflexivity|].
    eapply chain_pair; [reflexivity|].
    apply chain_end; [reflexivity|discriminate].
  - apply (IsList_evalRator_spec _ (Some 2%nat) [Some 0%nat] (Integer 2)).
    eapply chain_pair; [reflexivity|].
    apply chain_end; [reflexivity|discriminate].
Defined.

(** X10.  car and cdr of a pair that cons has just made return the very
    pointers cons was given; on an object that is no pair they raise their
    error and leave the store as it is. *)
Theorem Car_Cdr_spec s :
  (forall a d,
     (p <- Binary_evalRator Cons a d ;; Unary_evalRator Car p) s
     = (Ret a, snd (PairV a d s)) /\
     (p <- Binary_evalRator Cons a d ;; Unary_evalRator Cdr p) s
     = (Ret d, snd (PairV a d s))) /\
  (forall rand o,
     deref rand s = (Ret o, s) -> (forall a d, o <> Pair a d) ->
     Unary_evalRator Car rand s = (Raise "car: argument must be a pair", s) /\
     Unary_evalRator Cdr rand s = (Raise "cdr: argument must be a pair", s)).
Proof.
  split.
  - intros a d. cbn [Binary_evalRator Unary_evalRator].
    unfold Car_evalRator, Cdr_evalRator.
    split; unfold bindH at 1; unfold PairV at 1; cbn [alloc];
      rewrite (bindH_deref _ (Pair a d)); try reflexivity;
      apply (deref_alloc_new s (Pair a d)).
  - intros rand o Hv Hn. cbn [Unary_evalRator].
    unfold Car_evalRator, Cdr_evalRator.
    rewrite !(bindH_deref rand o) by assumption.
    destruct o; try (split; reflexivity). now destruct (Hn car cdr).
Qed.

Lemma Car_Cdr_spec_witness :
  Unary_evalRator Car (Some 0%nat) (mkStore [Null] [] [])
  = (Raise "car: argument must be a pair", mkStore [Null] [] []).
Proof.
  refine (proj1 (proj2 (Car_Cdr_spec (mkStore [Null] [] []))
                   (Some 0%nat) Null eq_refl _)).
  discriminate.
Defined.

(** X11.  set-car! and set-cdr! on a pair overwrite one field of that object
    in place, leave every other object, the cells and the output as they
    are, and return a fresh Void; a later car and cdr of the same pair read
    the new field and the untouched other one.  On anything but a pair they
    raise their error and change nothing. *)
Theorem SetCar_SetCdr_spec s l o v :
  objs s !! l = Some o ->
  match o with
  | Pair a d =>
      (exists s',
         Binary_evalRator SetCar (Some l) v s
         = (Ret (Some (length (objs s))), s') /\
         objs s' = <[l := Pair v d]> (objs s) ++ [Void] /\
         cells s' = cells s /\ out s' = out s /\
         Unary_evalRator Car (Some l) s' = (Ret v, s') /\
         Unary_evalRator Cdr (Some l) s' = (Ret d, s')) /\
      (exists s',
         Binary_evalRator SetCdr (Some l) v s
         = (Ret (Some (length (objs s))), s') /\
         objs s' = <[l := Pair a v]> (objs s) ++ [Void] /\
         cells s' = cells s /\ out s' = out s /\
         Unary_evalRator Car (Some l) s' = (Ret a, s') /\
         Unary_evalRator Cdr (Some l) s' = (Ret v, s'))
  | _ =>
      Binary_evalRator SetCar (Some l) v s
      = (Raise "set-car!: first argument must be a pair", s) /\
      Binary_evalRator SetCdr (Some l) v s
      = (Raise "set-cdr!: first argument must be a pair", s)
  end.
Proof.
  intros Hl.
  assert (Hv : deref (Some l) s = (Ret o, s)) by (apply deref_Some; eauto).
  pose proof (lookup_lt_Some _ _ _ Hl) as Hlt.
  cbn [Binary_evalRator Unary_evalRator].
  unfold SetCar_evalRator, SetCdr_evalRator, Car_evalRator, Cdr_evalRator.
  rewrite !(bindH_deref (Some l) o) by assumption.
  destruct o as [| | | | | | | |a d|]; try (split; reflexivity).
  split;
    [exists (mkStore (<[l:=Pair v d]> (objs s) ++ [Void]) (cells s) (out s))
    |exists (mkStore (<[l:=Pair a v]> (objs s) ++ [Void]) (cells s) (out s))];
    (split; [unfold bindH, store_obj, VoidV, alloc; cbn [objs cells out];
             rewrite length_insert; reflexivity|]);
    cbn [objs cells out]; (split; [reflexivity|]);
    (split; [reflexivity|]); (split; [reflexivity|]).
  - assert (Hd : forall s', objs s' = <[l:=Pair v d]> (objs s) ++ [Void] ->
                 deref (Some l) s' = (Ret (Pair v d), s')).
    { intros s' Hs'. apply deref_Some. exists l. split; [reflexivity|].
      rewrite Hs'. apply lookup_app_l_Some. now apply list_lookup_insert_eq. }
    split; rewrite (bindH_deref _ (Pair v d)) by (now apply Hd); reflexivity.
  - assert (Hd : forall s', objs s' = <[l:=Pair a v]> (objs s) ++ [Void] ->
                 deref (Some l) s' = (Ret (Pair a v), s')).
    { intros s' Hs'. apply deref_Some. exists l. split; [reflexivity|].
      rewrite Hs'. apply lookup_app_l_Some. now apply list_lookup_insert_eq. }
    split; rewrite (bindH_deref _ (Pair a v)) by (now apply Hd); reflexivity.
Qed.

(** (set-car! p 7) on the pair (1 . 2): its car becomes the 7 and its cdr
    stays. *)
Lemma SetCar_SetCdr_spec_witness :
  exists s',
    Binary_evalRator SetCar (Some 2%nat) (Some 3%nat)
      (mkStore [Integer 1; Integer 2; Pair (Some 0%nat) (Some 1%nat);
                Integer 7] [] [])
    = (Ret (Some 4%nat), s') /\
    Unary_evalRator Car (Some 2%nat) s' = (Ret (Some 3%nat), s') /\
    Unary_evalRator Cdr (Some 2%nat) s' = (Ret (Some 1%nat), s').
Proof.
  destruct (SetCar_SetCdr_spec
              (mkStore [Integer 1; Integer 2; Pair (Some 0%nat) (Some 1%nat);
                        Integer 7] [] [])
              2%nat (Pair (Some 0%nat) (Some 1%nat)) (Some 3%nat) eq_refl)
    as [(s' & Hrun & _ & _ & _ & Hcar & Hcdr) _].
  exists s'. split; [exact Hrun|]. split; assumption.
Defined.

Lemma cons_all_spec rev_args : forall s result vs o,
  chain s result vs o ->
  exists v s',
    cons_all rev_args result s = (Ret v, s') /\
    chain s' v (rev rev_args ++ vs) o /\ grows s s' /\
    length (objs s') = (length (objs s) + length rev_args)%nat.
Proof.
  induction rev_args as [|a rest IH]; intros s result vs o Hc.
  - exists result, s. split; [reflexivity|]. split; [assumption|].
    split; [apply grows_refl|]. cbn. lia.
  - cbn [cons_all]. unfold bindH at 1, PairV at 1. cbn [alloc].
    set (s1 := mkStore (objs s ++ [Pair a result]) (cells s) (out s)).
    assert (Hg : grows s s1) by apply (grows_alloc (Pair a result) s).
    assert (Hc1 : chain s1 (Some (length (objs s))) (a :: vs) o).
    { apply chain_pair with result.
      - apply (deref_alloc_new s (Pair a result)).
      - now apply (chain_grows s). }
    destruct (IH s1 _ _ _ Hc1) as (v & s' & Hrun & Hch & Hg' & Hlen).
    exists v, s'. split; [exact Hrun|]. split; [|split].
    + cbn [rev]. now rewrite <- app_assoc.
    + now apply (grows_trans s s1).
    + rewrite Hlen. unfold s1. cbn. rewrite length_app. cbn. lia.
Qed.

(** X12.  (list a1 ... an) never fails: it allocates one Null and n pairs and
    returns a chain of pairs whose cars are the arguments in order and that
    ends in the empty list; the objects that were there, the cells and the
    output are untouched; list? holds of the result. *)
Theorem ListFunc_evalRator_spec args s :
  exists v s',
    Variadic_evalRator ListFunc args s = (Ret v, s') /\
    chain s' v args Null /\ grows s s' /\
    length (objs s') = (length (objs s) + S (length args))%nat /\
    Unary_evalRator IsList v s' = alloc (Boolean true) s'.
Proof.
  cbn [Variadic_evalRator Unary_evalRator]. unfold ListFunc_evalRator.
  unfold bindH at 1, NullV at 1. cbn [alloc].
  set (s1 := mkStore (objs s ++ [Null]) (cells s) (out s)).
  assert (Hc : chain s1 (Some (length (objs s))) [] Null).
  { apply chain_end; [apply (deref_alloc_new s Null)|discriminate]. }
  destruct (cons_all_spec (rev args) s1 _ _ _ Hc) as (v & s' & Hrun & Hch & Hg & Hlen).
  rewrite rev_involutive, app_nil_r in Hch.
  exists v, s'. split; [exact Hrun|]. split; [assumption|].
  split; [|split].
  - apply (grows_trans s s1); [apply (grows_alloc Null s)|assumption].
  - rewrite Hlen, length_rev. unfold s1. cbn. rewrite length_app. cbn. lia.
  - now apply (IsList_evalRator_chain s' v args Null).
Qed.

(** ** Quotation *)

(** Induction on a datum, with the hypothesis for every element of a list. *)
Lemma Syntax_nested_ind (P : Syntax -> Prop) :
  (forall n, P (Number n)) ->
  (forall p q, P (RationalSyntax p q)) ->
  (forall x, P (SymbolSyntax x)) ->
  (forall x, P (StringSyntax x)) ->
  P TrueSyntax -> P FalseSyntax ->
  (forall stxs, Forall P stxs -> P (List stxs)) ->
  forall stx, P stx.
Proof.
  intros HN HR HS HSt HT HF HL. fix IH 1. intros [n|p q|x|x| | |stxs].
  - apply HN.
  - apply HR.
  - apply HS.
  - apply HSt.
  - apply HT.
  - apply HF.
  - apply HL. induction stxs as [|x rest IHrest]; constructor.
    + apply IH.
    + apply IHrest.
Qed.




(** ** Sequencing, application and assignment *)

Lemma eval_body_raise (ev : Expr -> E Value) pre :
  forall result e s vs e1 s1 x post msg e2 s2,
  eval_args ev pre e s = (Ret vs, e1, s1) ->
  ev x e1 s1 = (Raise msg, e2, s2) ->
  eval_body ev result (pre ++ x :: post) e s = (Raise msg, e2, s2).
Proof.
  induction pre as [|p pre IH]; intros result e s vs e1 s1 x post msg e2 s2;
    cbn [eval_args eval_body app].
  - unfold retE. intros [= _ <- <-] Hx. unfold bindE. now rewrite Hx.
  - unfold bindE at 1 3. destruct (ev p e s) as [[[v| | |] e'] s']; try discriminate.
    unfold bindE at 1.
    destruct (eval_args ev pre e' s') as [[[vs'| | |] e''] s''] eqn:Hrest;
      try discriminate.
    unfold retE. intros [= _ <- <-] Hx. eapply IH; eassumption.
Qed.

Lemma eval_args_nonempty (ev : Expr -> E Value) es e s vs e1 s1 :
  es <> [] -> eval_args ev es e s = (Ret vs, e1, s1) ->
  forall d, exists v, List.last vs d = v /\ In v vs.
Proof.
  intros Hne Hargs d. apply eval_args_length in Hargs.
  destruct vs as [|v0 vs]; [destruct es; [congruence|discriminate]|].
  exists (List.last (v0 :: vs) d). split; [reflexivity|].
  destruct (exists_last (l := v0 :: vs)) as (l' & a & Heq); [discriminate|].
  rewrite Heq, last_last. apply in_or_app. right. now left.
Qed.

(** X15.  (begin) returns a fresh Void.  When the expressions of a non-empty
    begin evaluate in order, each in the environment and store the previous
    one left, begin returns the value of the last and leaves the last
    environment, so that definitions made inside persist.  If one raises an
    error after its predecessors have returned, begin raises that error and
    the later expressions are not evaluated. *)
Theorem Begin_eval_spec primitives reserved_words fuel es e s :
  eval primitives reserved_words (S fuel) (Begin []) e s
  = (Ret (Some (length (objs s))), e, snd (alloc Void s)) /\
  (forall vs e1 s1,
     es <> [] ->
     eval_args (eval primitives reserved_words fuel) es e (snd (alloc Void s))
     = (Ret vs, e1, s1) ->
     exists v, In v vs /\ List.last vs None = v /\
       eval primitives reserved_words (S fuel) (Begin es) e s = (Ret v, e1, s1)) /\
  (forall pre x post vs e1 s1 msg e2 s2,
     es = pre ++ x :: post ->
     eval_args (eval primitives reserved_words fuel) pre e (snd (alloc Void s))
     = (Ret vs, e1, s1) ->
     eval primitives reserved_words fuel x e1 s1 = (Raise msg, e2, s2) ->
     eval primitives reserved_words (S fuel) (Begin es) e s
     = (Raise msg, e2, s2)).
Proof.
  split; [reflexivity|]. split.
  - intros vs e1 s1 Hne Hargs.
    destruct (eval_args_nonempty _ _ _ _ _ _ _ Hne Hargs None) as (v & Hlast & Hin).
    exists v. split; [assumption|]. split; [assumption|].
    rewrite eval_S. cbn [eval_node]. unfold Begin_eval.
    destruct es as [|x es]; [congruence|].
    unfold bindE at 1, liftH at 1. cbn [VoidV alloc].
    rewrite (eval_body_last _ _ _ _ _ _ _ _ Hargs).
    f_equal. f_equal. f_equal. rewrite <- Hlast.
    apply eval_args_length in Hargs.
    destruct vs as [|v0 vs]; [discriminate|].
    clear. revert v0. induction vs as [|v1 vs IH]; intros v0; [reflexivity|].
    change (List.last (v0 :: v1 :: vs) ?d) with (List.last (v1 :: vs) d).
    apply IH.
  - intros pre x post vs e1 s1 msg e2 s2 -> Hargs Hx.
    rewrite eval_S. cbn [eval_node]. unfold Begin_eval.
    destruct (pre ++ x :: post) eqn:Hes; [now destruct pre|]. rewrite <- Hes.
    unfold bindE at 1, liftH at 1. cbn [VoidV alloc].
    eapply eval_body_raise; eassumption.
Qed.

(** (begin 1 2) is 2. *)
Lemma Begin_eval_spec_witness :
  exists v e1 s1,
    eval sample_primitives sample_reserved_words 2
      (Begin [Fixnum 1; Fixnum 2]) [] empty_store
    = (Ret v, e1, s1) /\ deref v s1 = (Ret (Integer 2), s1).
Proof.
  destruct (proj1 (proj2 (Begin_eval_spec sample_primitives sample_reserved_words
                               1 [Fixnum 1; Fixnum 2] [] empty_store))
              [Some 1%nat; Some 2%nat] []
              (mkStore [Void; Integer 1; Integer 2] [] []))
    as (v & _ & Hlast & Hrun); [discriminate|reflexivity|].
  exists v, [], (mkStore [Void; Integer 1; Integer 2] [] []).
  split; [exact Hrun|]. rewrite <- Hlast. reflexivity.
Defined.

(** The loop that collects the values of the operands runs through them
    from left to right, and stops at the first that does not return. *)
Lemma evaluated_eval_args (ev : Expr -> E Value) es e s vs e' s' :
  evaluated ev es e s vs e' s' <-> eval_args ev es e s = (Ret vs, e', s').
Proof.
  split.
  - induction 1 as [e s|x rest e s v e1 s1 vs e2 s2 Hx Hrest IH];
      cbn [eval_args]; [reflexivity|].
    unfold bindE at 1. rewrite Hx. unfold bindE at 1. now rewrite IH.
  - revert e s vs e' s'.
    induction es as [|x rest IH]; intros e s vs e' s'; cbn [eval_args].
    + unfold retE. intros [= <- <- <-]. constructor.
    + unfold bindE at 1.
      destruct (ev x e s) as [[[v| | |] e1] s1] eqn:Hx; try discriminate.
      unfold bindE at 1.
      destruct (eval_args ev rest e1 s1) as [[[vs'| | |] e2] s2] eqn:Hrest;
        try discriminate.
      unfold retE. intros [= <- <- <-].
      econstructor; [exact Hx|]. now apply IH.
Qed.

Lemma evaluated_raise (ev : Expr -> E Value) pre :
  forall e s vs e1 s1 x post msg e2 s2,
  evaluated ev pre e s vs e1 s1 ->
  ev x e1 s1 = (Raise msg, e2, s2) ->
  eval_args ev (pre ++ x :: post) e s = (Raise msg, e2, s2).
Proof.
  intros e s vs e1 s1 x post msg e2 s2 Hpre Hx.
  induction Hpre as [e s|y rest e s v ea sa vs eb sb Hy Hrest IH];
    cbn [app eval_args].
  - unfold bindE at 1. now rewrite Hx.
  - unfold bindE at 1. rewrite Hy. unfold bindE at 1. now rewrite (IH Hx).
Qed.

(** X16.  Application.  When the operator evaluates to an object that is no
    procedure, Apply raises Attempt to apply a non-procedure and the
    operands are not evaluated.  For a closure the operands are evaluated
    one after the other from left to right, the first in the environment
    and store the operator left and each next one in what its predecessor
    left; if one raises an error after its predecessors have returned, Apply
    raises that error and the later operands are not evaluated.  When all
    have returned, a wrong count raises Wrong number of arguments;
    otherwise the body runs in the environment the closure captured,
    extended by one fresh cell per parameter: each parameter (when they are
    distinct) is bound to its argument, every other name resolves as in the
    captured environment and not as in the caller's, and Apply leaves the
    environment the last operand left. *)
Theorem Apply_eval_spec primitives reserved_words fuel rator rand e s f e1 s1 o :
  eval primitives reserved_words fuel rator e s = (Ret f, e1, s1) ->
  deref f s1 = (Ret o, s1) ->
  match o with
  | Procedure params body cenv =>
      (forall args e2 s2,
         evaluated (eval primitives reserved_words fuel) rand e1 s1 args e2 s2 ->
         (length args <> length params ->
          eval primitives reserved_words (S fuel) (Apply rator rand) e s
          = (Raise "Wrong number of arguments", e2, s2)) /\
         (length args = length params ->
          let env' := fresh_bindings params s2 ++ cenv in
          let s' := mkStore (objs s2) (cells s2 ++ args) (out s2) in
          eval primitives reserved_words (S fuel) (Apply rator rand) e s
          = (let '(r, _, s3) := eval primitives reserved_words fuel body env' s'
             in (r, e2, s3)) /\
          (List.NoDup params ->
           forall i x v, params !! i = Some x -> args !! i = Some v ->
                         find x env' s' = (Ret v, s')) /\
          (forall y, ~ In y params -> lookup_cell y env' = lookup_cell y cenv))) /\
      (forall pre x post vs ea sa msg eb sb,
         rand = pre ++ x :: post ->
         evaluated (eval primitives reserved_words fuel) pre e1 s1 vs ea sa ->
         eval primitives reserved_words fuel x ea sa = (Raise msg, eb, sb) ->
         eval primitives reserved_words (S fuel) (Apply rator rand) e s
         = (Raise msg, eb, sb))
  | _ =>
      eval primitives reserved_words (S fuel) (Apply rator rand) e s
      = (Raise "Attempt to apply a non-procedure", e1, s1)
  end.
Proof.
  intros Hrator Hf.
  assert (Hstart : eval primitives reserved_words (S fuel) (Apply rator rand) e s
                   = (o' <~ liftH (deref f) ;;
                      match o' with
                      | Procedure parameters body env =>
                          args <~ eval_args (eval primitives reserved_words fuel) rand ;;
                          if negb (Nat.eqb (length args) (length parameters))
                          then throwE "Wrong number of arguments"
                          else
                            param_env <~ liftH (extend_all parameters args env) ;;
                            in_env param_env (eval primitives reserved_words fuel body)
                      | _ => throwE "Attempt to apply a non-procedure"
                      end) e1 s1).
  { rewrite eval_S. cbn [eval_node]. unfold Apply_eval.
    unfold bindE at 1. now rewrite Hrator. }
  destruct o as [| | | | | | | | |params body cenv];
    try (rewrite Hstart; unfold bindE at 1, liftH at 1; rewrite Hf;
         reflexivity).
  split.
  - intros args e2 s2 Hargs. apply evaluated_eval_args in Hargs.
    assert (Hmid : eval primitives reserved_words (S fuel) (Apply rator rand) e s
                   = (if negb (Nat.eqb (length args) (length params))
                      then throwE "Wrong number of arguments"
                      else
                        param_env <~ liftH (extend_all params args cenv) ;;
                        in_env param_env (eval primitives reserved_words fuel body))
                       e2 s2).
    { rewrite Hstart. unfold bindE at 1, liftH at 1. rewrite Hf.
      unfold bindE at 1. now rewrite Hargs. }
    split.
    + intros Hne. rewrite Hmid. apply Nat.eqb_neq in Hne. now rewrite Hne.
    + intros Hlen env' s'. split; [|split].
      * rewrite Hmid, Hlen, Nat.eqb_refl. cbn [negb].
        unfold bindE, liftH. rewrite extend_all_spec by assumption. reflexivity.
      * intros Hnd i x v Hx Hv.
        now apply (find_fresh params args cenv s2 _ i).
      * intros y Hy. now apply lookup_cell_outer.
  - intros pre x post vs ea sa msg eb sb -> Hpre Hx.
    rewrite Hstart. unfold bindE at 1, liftH at 1. rewrite Hf.
    unfold bindE at 1.
    now rewrite (evaluated_raise _ pre e1 s1 vs ea sa x post msg eb sb Hpre Hx).
Qed.

(** ((lambda (x y) y) (define a 1) a) is 1: the second operand finds the
    variable the first has defined.  ((lambda (x) x) a (define a 1)) stops
    at its first operand, and (5 5) is no application. *)
Lemma Apply_eval_spec_witness :
  eval sample_primitives sample_reserved_words 3
    (Apply (Lambda ["x"%string; "y"%string] (Var "y"))
       [Define "a" (Fixnum 1); Var "a"]) [] empty_store
  = (Ret (Some 1%nat), [("a"%string, 0%nat)],
     mkStore [Procedure ["x"%string; "y"%string] (Var "y") []; Integer 1; Void]
             [Some 1%nat; Some 2%nat; Some 1%nat] []) /\
  eval sample_primitives sample_reserved_words 3
    (Apply (Lambda ["x"%string] (Var "x"))
       [Var "a"; Define "a" (Fixnum 1)]) [] empty_store
  = (Raise "Undefined variable: a", [],
     mkStore [Procedure ["x"%string] (Var "x") []] [] []) /\
  eval sample_primitives sample_reserved_words 2
    (Apply (Fixnum 5) [Fixnum 5]) [] empty_store
  = (Raise "Attempt to apply a non-procedure", [], mkStore [Integer 5] [] []).
Proof.
  split; [|split].
  - pose proof (Apply_eval_spec sample_primitives sample_reserved_words 2
                  (Lambda ["x"%string; "y"%string] (Var "y"))
                  [Define "a" (Fixnum 1); Var "a"] [] empty_store
                  (Some 0%nat) []
                  (mkStore [Procedure ["x"%string; "y"%string] (Var "y") []] [] [])
                  (Procedure ["x"%string; "y"%string] (Var "y") [])
                  eq_refl eq_refl) as [Hrun _].
    destruct (Hrun [Some 2%nat; Some 1%nat] [("a"%string, 0%nat)]
                (mkStore [Procedure ["x"%string; "y"%string] (Var "y") [];
                          Integer 1; Void] [Some 1%nat] []))
      as [_ Hbody].
    + apply (evaluated_cons _ _ _ _ _ (Some 2%nat) [("a"%string, 0%nat)]
               (mkStore [Procedure ["x"%string; "y"%string] (Var "y") [];
                         Integer 1; Void] [Some 1%nat] []));
        [vm_compute; reflexivity|].
      apply (evaluated_cons _ _ _ _ _ (Some 1%nat) [("a"%string, 0%nat)]
               (mkStore [Procedure ["x"%string; "y"%string] (Var "y") [];
                         Integer 1; Void] [Some 1%nat] []));
        [vm_compute; reflexivity|].
      apply evaluated_nil.
    + destruct (Hbody eq_refl) as [Heq _]. rewrite Heq. vm_compute. reflexivity.
  - pose proof (Apply_eval_spec sample_primitives sample_reserved_words 2
                  (Lambda ["x"%string] (Var "x"))
                  [Var "a"; Define "a" (Fixnum 1)] [] empty_store
                  (Some 0%nat) []
                  (mkStore [Procedure ["x"%string] (Var "x") []] [] [])
                  (Procedure ["x"%string] (Var "x") [])
                  eq_refl eq_refl) as [_ Hstop].
    apply (Hstop [] (Var "a") [Define "a" (Fixnum 1)] [] []
             (mkStore [Procedure ["x"%string] (Var "x") []] [] [])
             "Undefined variable: a"%string []
             (mkStore [Procedure ["x"%string] (Var "x") []] [] []) eq_refl).
    + apply evaluated_nil.
    + vm_compute. reflexivity.
  - exact (Apply_eval_spec sample_primitives sample_reserved_words 1
             (Fixnum 5) [Fixnum 5] [] empty_store
             (Some 0%nat) [] (mkStore [Integer 5] [] []) (Integer 5)
             eq_refl eq_refl).
Defined.

Lemma lookup_cell_head x c env : lookup_cell x ((x, c) :: env) = Some c.
Proof. cbn. now rewrite String.eqb_refl. Qed.

Lemma find_Some x env s l :
  find x env s = (Ret (Some l), s) <->
  exists c, lookup_cell x env = Some c /\ cells s !! c = Some (Some l).
Proof.
  unfold find. destruct (lookup_cell x env) as [c|].
  - destruct (cells s !! c) as [v|] eqn:Hc.
    + split.
      * intros [= ->]. eauto.
      * intros (c' & Heq & Hc'). unfold Value in *. congruence.
    + split; [discriminate|]. intros (c' & Heq & Hc'). unfold Value in *.
      congruence.
  - split; [discriminate|]. intros (c' & Hc' & _). discriminate.
Qed.

Lemma Define_eval_run primitives reserved_words fuel var ex e s v e1 s1 existing :
  count primitives var || count reserved_words var = false ->
  eval primitives reserved_words fuel ex e s = (Ret v, e1, s1) ->
  find var e1 s1 = (Ret existing, s1) ->
  exists env' s',
    eval primitives reserved_words (S fuel) (Define var ex) e s
    = (Ret (Some (length (objs s1))), env', s') /\
    objs s' = objs s1 ++ [Void] /\ out s' = out s1 /\
    find var env' s' = (Ret v, s') /\
    match existing with
    | Some _ =>
        env' = e1 /\
        exists c, lookup_cell var e1 = Some c /\
                  cells s' = <[c := v]> (cells s1)
    | None =>
        env' = (var, length (cells s1)) :: e1 /\ cells s' = cells s1 ++ [v]
    end.
Proof.
  intros Hres Hex Hfind.
  rewrite eval_S. cbn [eval_node]. unfold Define_eval. rewrite Hres.
  unfold bindE at 1. rewrite Hex.
  unfold bindE at 1, get_env at 1. unfold bindE at 1, liftH at 1.
  rewrite Hfind. destruct existing as [l|].
  - apply find_Some in Hfind as (c & Hc & Hcell).
    exists e1, (mkStore (objs s1 ++ [Void]) (<[c := v]> (cells s1)) (out s1)).
    split; [|split; [reflexivity|split; [reflexivity|split]]].
    + unfold bindE, liftH, modify. rewrite Hc. reflexivity.
    + unfold find. cbn [cells]. rewrite Hc.
      rewrite list_lookup_insert_eq; [reflexivity|].
      eapply lookup_lt_Some; eassumption.
    + split; [reflexivity|]. exists c. now split.
  - exists ((var, length (cells s1)) :: e1),
      (mkStore (objs s1 ++ [Void]) (cells s1 ++ [v]) (out s1)).
    split; [reflexivity|]. split; [reflexivity|]. split; [reflexivity|].
    split; [|now split].
    unfold find. rewrite lookup_cell_head. cbn [cells].
    rewrite lookup_app_r by lia. now rewrite Nat.sub_diag.
Qed.

(** X17.  define refuses the name of a primitive or of a reserved word before
    it evaluates anything.  Otherwise, once the expression has a value: a
    name bound to a value has its cell overwritten in place and the
    environment stays; an unbound name (or one whose cell holds the null
    pointer) gets a fresh cell in front of the caller's environment; in both
    cases a lookup of the name then gives the value, and define returns a
    fresh Void. *)
Theorem Define_eval_spec primitives reserved_words fuel var ex e s :
  (count primitives var || count reserved_words var = true ->
   eval primitives reserved_words (S fuel) (Define var ex) e s
   = (Raise ("Cannot redefine primitive or reserved word: " ++ var), e, s)) /\
  (count primitives var || count reserved_words var = false ->
   forall v e1 s1 existing,
     eval primitives reserved_words fuel ex e s = (Ret v, e1, s1) ->
     find var e1 s1 = (Ret existing, s1) ->
     exists env' s',
       eval primitives reserved_words (S fuel) (Define var ex) e s
       = (Ret (Some (length (objs s1))), env', s') /\
       objs s' = objs s1 ++ [Void] /\ out s' = out s1 /\
       find var env' s' = (Ret v, s') /\
       match existing with
       | Some _ =>
           env' = e1 /\
           exists c, lookup_cell var e1 = Some c /\
                     cells s' = <[c := v]> (cells s1)
       | None =>
           env' = (var, length (cells s1)) :: e1 /\ cells s' = cells s1 ++ [v]
       end).
Proof.
  split.
  - intros Hres. rewrite eval_S. cbn [eval_node]. unfold Define_eval.
    now rewrite Hres.
  - intros Hres v e1 s1 existing. now apply Define_eval_run.
Qed.

(** (define x 5) in the empty environment binds x to a fresh cell, and
    (define car 5) is refused. *)
Lemma Define_eval_spec_witness :
  eval sample_primitives sample_reserved_words 2 (Define "car" (Fixnum 5))
    [] empty_store
  = (Raise "Cannot redefine primitive or reserved word: car", [], empty_store) /\
  exists env' s',
    eval sample_primitives sample_reserved_words 2 (Define "x" (Fixnum 5))
      [] empty_store
    = (Ret (Some 1%nat), env', s') /\
    find "x" env' s' = (Ret (Some 0%nat), s').
Proof.
  split.
  - exact (proj1 (Define_eval_spec sample_primitives sample_reserved_words 1
                    "car" (Fixnum 5) [] empty_store) eq_refl).
  - destruct (proj2 (Define_eval_spec sample_primitives sample_reserved_words 1
                       "x" (Fixnum 5) [] empty_store) eq_refl
                (Some 0%nat) [] (mkStore [Integer 5] [] []) None
                eq_refl eq_refl)
      as (env' & s' & Hrun & _ & _ & Hfind & _).
    exists env', s'. split; assumption.
Defined.

(** X18.  set! evaluates its expression first.  If the variable is then
    unbound (or its cell holds the null pointer) it raises Undefined variable
    in set!; otherwise it overwrites the innermost cell of the name in
    place, leaves the environment as it is, returns a fresh Void, and a
    lookup of the name gives the new value. *)
Theorem Set_eval_spec primitives reserved_words fuel var ex e s v e1 s1 existing :
  eval primitives reserved_words fuel ex e s = (Ret v, e1, s1) ->
  find var e1 s1 = (Ret existing, s1) ->
  match existing with
  | None =>
      eval primitives reserved_words (S fuel) (Set_ var ex) e s
      = (Raise ("Undefined variable in set!: " ++ var), e1, s1)
  | Some _ =>
      exists c s',
        lookup_cell var e1 = Some c /\
        eval primitives reserved_words (S fuel) (Set_ var ex) e s
        = (Ret (Some (length (objs s1))), e1, s') /\
        objs s' = objs s1 ++ [Void] /\ out s' = out s1 /\
        cells s' = <[c := v]> (cells s1) /\
        find var e1 s' = (Ret v, s')
  end.
Proof.
  intros Hex Hfind.
  assert (Hstart : eval primitives reserved_words (S fuel) (Set_ var ex) e s
                   = match existing with
                     | None => throwE ("Undefined variable in set!: " ++ var)
                     | Some _ => _ <~ liftH (modify var v e1) ;; liftH VoidV
                     end e1 s1).
  { rewrite eval_S. cbn [eval_node]. unfold Set_eval.
    unfold bindE at 1. rewrite Hex.
    unfold bindE at 1, get_env at 1. unfold bindE at 1, liftH at 1.
    now rewrite Hfind. }
  destruct existing as [l|]; [|exact Hstart].
  apply find_Some in Hfind as (c & Hc & Hcell). rewrite Hstart.
  exists c, (mkStore (objs s1 ++ [Void]) (<[c := v]> (cells s1)) (out s1)).
  split; [assumption|]. split.
  { unfold bindE, liftH, modify. rewrite Hc. reflexivity. }
  split; [reflexivity|]. split; [reflexivity|]. split; [reflexivity|].
  unfold find. cbn [cells]. rewrite Hc.
  rewrite list_lookup_insert_eq; [reflexivity|].
  eapply lookup_lt_Some; eassumption.
Qed.

(** (set! y 5) with y unbound. *)
Lemma Set_eval_spec_witness :
  eval sample_primitives sample_reserved_words 2 (Set_ "y" (Fixnum 5))
    [] empty_store
  = (Raise "Undefined variable in set!: y", [], mkStore [Integer 5] [] []).
Proof.
  exact (Set_eval_spec sample_primitives sample_reserved_words 1 "y" (Fixnum 5)
           [] empty_store (Some 0%nat) [] (mkStore [Integer 5] [] []) None
           eq_refl eq_refl).
Defined.

(** X19.  A variable bound to a value evaluates to that very pointer and
    allocates nothing; an unbound name that is no primitive raises Undefined
    variable.  A letrec whose first right-hand side is a variable that this
    letrec binds (and that is no primitive) raises Undefined variable: the
    cell of the variable still holds the null pointer. *)
Theorem Var_eval_spec primitives reserved_words fuel x e s :
  (forall l, find x e s = (Ret (Some l), s) ->
   eval primitives reserved_words (S fuel) (Var x) e s = (Ret (Some l), e, s)) /\
  (find x e s = (Ret None, s) -> count primitives x = false ->
   eval primitives reserved_words (S fuel) (Var x) e s
   = (Raise ("Undefined variable: " ++ x), e, s)) /\
  (forall y rest body,
     In x (y :: map fst rest) -> count primitives x = false ->
     eval primitives reserved_words (S (S fuel))
       (Letrec ((y, Var x) :: rest) body) e s
     = (Raise ("Undefined variable: " ++ x), e,
        mkStore (objs s) (cells s ++ replicate (S (length rest)) None) (out s))).
Proof.
  assert (Hundef : forall e' s', find x e' s' = (Ret None, s') ->
            count primitives x = false ->
            eval primitives reserved_words (S fuel) (Var x) e' s'
            = (Raise ("Undefined variable: " ++ x), e', s')).
  { intros e' s' Hfind Hprim. rewrite eval_S. cbn [eval_node].
    unfold Var_eval, bindE, get_env, liftH. now rewrite Hfind, Hprim. }
  split; [|split].
  - intros l Hfind. rewrite eval_S. cbn [eval_node].
    unfold Var_eval, bindE, get_env, liftH. now rewrite Hfind.
  - apply Hundef.
  - intros y rest body Hin Hprim. rewrite eval_S. cbn [eval_node].
    unfold Letrec_eval. unfold bindE at 1, get_env at 1.
    unfold bindE at 1, liftH at 1.
    rewrite letrec_placeholders_spec. unfold in_env.
    cbn [letrec_assign fst snd]. unfold bindE at 1. unfold bindE at 1.
    rewrite Hundef; [reflexivity| |assumption].
    apply (find_placeholder (map fst ((y, Var x) :: rest)) e s x) in Hin.
    rewrite length_map in Hin. exact Hin.
Qed.

(** (letrec ((a b) (b 1)) a) reads b before it has a value. *)
Lemma Var_eval_spec_witness :
  eval sample_primitives sample_reserved_words 3
    (Letrec [("a"%string, Var "b"); ("b"%string, Fixnum 1)] (Var "a"))
    [] empty_store
  = (Raise "Undefined variable: b", [], mkStore [] [None; None] []).
Proof.
  refine (proj2 (proj2 (Var_eval_spec sample_primitives sample_reserved_words
                          1 "b" [] empty_store))
            "a"%string [("b"%string, Fixnum 1)] (Var "a") _ eq_refl).
  right. left. reflexivity.
Defined.

(** ** The scope of a defined procedure *)

Lemma find_alloc x env o s r :
  find x env s = (r, s) -> find x env (snd (alloc o s)) = (r, snd (alloc o s)).
Proof.
  unfold find. cbn [alloc snd cells]. destruct (lookup_cell x env) as [c|].
  - destruct (cells s !! c); now intros [= <-].
  - now intros [= <-].
Qed.

Lemma Var_eval_undefined primitives reserved_words fuel x e s :
  find x e s = (Ret None, s) -> count primitives x = false ->
  eval primitives reserved_words (S fuel) (Var x) e s
  = (Raise ("Undefined variable: " ++ x), e, s).
Proof.
  intros Hfind Hprim. rewrite eval_S. cbn [eval_node].
  unfold Var_eval, bindE, get_env, liftH. now rewrite Hfind, Hprim.
Qed.

(** X23.  (define f (lambda ps body)) binds f to a closure over the
    environment in which the define is evaluated.  If f was bound to a value
    before, that environment holds the overwritten cell and the body sees
    the new f.  If f was not in the environment, the closure keeps the
    environment from before the extension: inside the body f, when it is no
    parameter, raises Undefined variable. *)
Theorem Define_Lambda_scope primitives reserved_words fuel var ps body e s
    existing :
  count primitives var || count reserved_words var = false ->
  find var e s = (Ret existing, s) ->
  exists env' s',
    eval primitives reserved_words (S (S fuel)) (Define var (Lambda ps body)) e s
    = (Ret (Some (S (length (objs s)))), env', s') /\
    find var env' s' = (Ret (Some (length (objs s))), s') /\
    deref (Some (length (objs s))) s' = (Ret (Procedure ps body e), s') /\
    match existing with
    | Some _ => find var e s' = (Ret (Some (length (objs s))), s')
    | None =>
        lookup_cell var e = None -> ~ In var ps ->
        forall fuel' s2 s3,
          eval primitives reserved_words (S fuel') (Var var)
            (fresh_bindings ps s2 ++ e) s3
          = (Raise ("Undefined variable: " ++ var),
             fresh_bindings ps s2 ++ e, s3)
    end.
Proof.
  intros Hres Hfind.
  set (s1 := snd (alloc (Procedure ps body e) s)).
  assert (Hlam : eval primitives reserved_words (S fuel) (Lambda ps body) e s
                 = (Ret (Some (length (objs s))), e, s1)) by reflexivity.
  assert (Hfind1 : find var e s1 = (Ret existing, s1))
    by now apply find_alloc.
  destruct (Define_eval_run _ _ _ _ _ _ _ _ _ _ _ Hres Hlam Hfind1)
    as (env' & s' & Hrun & Hobjs & Hout & Hfind' & Hcase).
  exists env', s'. split.
  { rewrite Hrun. unfold s1. cbn. rewrite length_app. cbn.
    now rewrite Nat.add_1_r. }
  split; [assumption|]. split.
  { apply deref_Some. exists (length (objs s)). split; [reflexivity|].
    rewrite Hobjs. apply lookup_app_l_Some. unfold s1. cbn.
    rewrite lookup_app_r by lia. now rewrite Nat.sub_diag. }
  destruct existing as [l|].
  - destruct Hcase as [-> _]. exact Hfind'.
  - intros Hnone Hnotin fuel' s2 s3. apply Var_eval_undefined.
    + unfold find. now rewrite lookup_cell_outer, Hnone.
    + now apply orb_false_elim in Hres as [Hp _].
Qed.

(** (define (f) (f)) at a fresh name f, then (f): the body does not find
    f. *)
Lemma Define_Lambda_scope_witness :
  (exists env' s',
     eval sample_primitives sample_reserved_words 3
       (Define "f" (Lambda [] (Apply (Var "f") []))) [] empty_store
     = (Ret (Some 1%nat), env', s') /\
     find "f" env' s' = (Ret (Some 0%nat), s')) /\
  eval sample_primitives sample_reserved_words 5
    (Begin [Define "f" (Lambda [] (Apply (Var "f") []));
            Apply (Var "f") []]) [] empty_store
  = (Raise "Undefined variable: f", [("f"%string, 0%nat)],
     mkStore [Void; Procedure [] (Apply (Var "f") []) []; Void]
             [Some 1%nat] []).
Proof.
  split.
  - destruct (Define_Lambda_scope sample_primitives sample_reserved_words 1
                "f" [] (Apply (Var "f") []) [] empty_store None
                eq_refl eq_refl)
      as (env' & s' & Hrun & Hfind & _).
    exists env', s'. split; assumption.
  - vm_compute. reflexivity.
Defined.

(** ** Applications and reserved words in the parser *)

(** X20.  A list whose head is no symbol, or a symbol bound to a value in the
    environment, or a symbol that is neither bound nor in one of the two
    tables, parses to the application of the parsed head to the parsed
    operands.  So a binding shadows a primitive or reserved word of its name
    at parse time, and no arity is checked then. *)
Theorem parse_Apply_spec primitives reserved_words s env hd tl rator parameters :
  parse primitives reserved_words s env hd = Ret rator ->
  parse_all (parse primitives reserved_words s env) tl = Ret parameters ->
  match hd with
  | SymbolSyntax op =>
      (exists l, find op env s = (Ret (Some l), s)) \/
      (find op env s = (Ret None, s) /\
       primitives !! op = None /\ reserved_words !! op = None)
  | _ => True
  end ->
  parse primitives reserved_words s env (List (hd :: tl))
  = Ret (Apply rator parameters).
Proof.
  intros Hhd Htl Hcase.
  assert (Happly : (parameters' <-- parse_all (parse primitives reserved_words s env) tl ;;
                    rator' <-- parse primitives reserved_words s env hd ;;
                    Ret (Apply rator' parameters'))
                   = Ret (Apply rator parameters))
    by (rewrite Htl; cbn [bindR]; rewrite Hhd; reflexivity).
  destruct hd as [n|p q|op|x| | |stxs]; try exact Happly.
  rewrite parse_symbol_head. unfold bound.
  destruct Hcase as [[l Hl]|(Hnone & Hp & Hr)].
  - rewrite Hl. cbn [fst bindR]. exact Happly.
  - rewrite Hnone. cbn [fst bindR]. rewrite Hp, Hr. exact Happly.
Qed.

(** With car bound in the environment, (car 1 2) is an application of
    the variable, and the arity of the primitive is not checked. *)
Lemma parse_Apply_spec_witness :
  parse sample_primitives sample_reserved_words
    (mkStore [Integer 0] [Some 0%nat] []) [("car"%string, 0%nat)]
    (List [SymbolSyntax "car"; Number 1; Number 2])
  = Ret (Apply (Var "car") [Fixnum 1; Fixnum 2]).
Proof.
  apply (parse_Apply_spec sample_primitives sample_reserved_words
           (mkStore [Integer 0] [Some 0%nat] []) [("car"%string, 0%nat)]
           (SymbolSyntax "car") [Number 1; Number 2] (Var "car")
           [Fixnum 1; Fixnum 2] eq_refl eq_refl).
  left. exists 0%nat. reflexivity.
Defined.

Lemma parse_reserved_operands parse op word tl name n more :
  operands_of word = Some (name, n, more) ->
  (if more then (length tl < n)%nat else length tl <> n) ->
  parse_reserved parse op word tl
  = Raise ("Wrong number of arguments for " ++ name).
Proof.
  intros Hw Hlen.
  destruct word; try discriminate Hw; cbn in Hw; injection Hw as <- <- <-;
    cbn [parse_reserved];
    destruct tl as [|x0 [|x1 [|x2 [|x3 tl]]]]; cbn in Hlen;
    try lia; try congruence; try reflexivity.
  all: try (destruct x0 as [| | | | | |[|[]]]; reflexivity).
  all: destruct x0; try reflexivity; destruct x1; reflexivity.
Qed.

(** X21.  For an unbound head that is a reserved word and no primitive:
    quote wants exactly one operand, if exactly three, set! exactly two, and
    lambda, define, let and letrec at least two; any other count raises
    Wrong number of arguments for, followed by the word, whatever the
    operands are. *)
Theorem parse_reserved_arity primitives reserved_words s env op word tl
    name n more :
  bound op env s = Ret false ->
  primitives !! op = None ->
  reserved_words !! op = Some word ->
  operands_of word = Some (name, n, more) ->
  (if more then (length tl < n)%nat else length tl <> n) ->
  parse primitives reserved_words s env (List (SymbolSyntax op :: tl))
  = Raise ("Wrong number of arguments for " ++ name).
Proof.
  intros Hb Hp Hr Hw Hlen.
  rewrite parse_symbol_head, Hb. cbn [bindR]. rewrite Hp, Hr.
  now apply parse_reserved_operands with n more.
Qed.

(** (if 1 2) and (lambda (x)) are refused. *)
Lemma parse_reserved_arity_witness :
  parse sample_primitives sample_reserved_words empty_store []
    (List [SymbolSyntax "if"; Number 1; Number 2])
  = Raise "Wrong number of arguments for if" /\
  parse sample_primitives sample_reserved_words empty_store []
    (List [SymbolSyntax "lambda"; List [SymbolSyntax "x"]])
  = Raise "Wrong number of arguments for lambda".
Proof.
  split.
  - apply (parse_reserved_arity sample_primitives sample_reserved_words
             empty_store [] "if" E_IF [Number 1; Number 2] "if" 3%nat false
             eq_refl); [vm_compute; reflexivity|vm_compute; reflexivity
                        |reflexivity|cbn; lia].
  - apply (parse_reserved_arity sample_primitives sample_reserved_words
             empty_store [] "lambda" E_LAMBDA [List [SymbolSyntax "x"]]
             "lambda" 2%nat true eq_refl);
      [vm_compute; reflexivity|vm_compute; reflexivity|reflexivity|cbn; lia].
Defined.



(** ** What evaluation leaves in place *)

Lemma same_kind_refl o : same_kind o o.
Proof. destruct o; cbn; eauto. Qed.

Lemma same_kind_trans o1 o2 o3 :
  same_kind o1 o2 -> same_kind o2 o3 -> same_kind o1 o3.
Proof.
  destruct o1; cbn; try (intros ->; now cbn).
  intros (a & d & ->). cbn. auto.
Qed.

Lemma frame_refl s : frame s s.
Proof.
  split; [|split; [lia|exists []; now rewrite app_nil_r]].
  intros l o Hl. exists o. split; [assumption|apply same_kind_refl].
Qed.

Lemma frame_trans s1 s2 s3 : frame s1 s2 -> frame s2 s3 -> frame s1 s3.
Proof.
  intros (O1 & C1 & [m1 M1]) (O2 & C2 & [m2 M2]). split; [|split].
  - intros l o Hl. destruct (O1 l o Hl) as (o' & Hl' & K1).
    destruct (O2 l o' Hl') as (o'' & Hl'' & K2). exists o''.
    split; [assumption|]. now apply same_kind_trans with o'.
  - lia.
  - exists (m1 ++ m2). now rewrite M2, M1, app_assoc.
Qed.

Lemma frame_objs_app s new :
  frame s (mkStore (objs s ++ new) (cells s) (out s)).
Proof.
  split; [|split; [cbn; lia|exists []; cbn; now rewrite app_nil_r]].
  intros l o Hl. exists o. cbn. split; [|apply same_kind_refl].
  now apply lookup_app_l_Some.
Qed.

Lemma Hinv_ret {A} (a : A) : Hinv (retH a).
Proof. intros s. apply frame_refl. Qed.

Lemma Hinv_throw {A} msg : Hinv (@throw A msg).
Proof. intros s. apply frame_refl. Qed.

Lemma Hinv_liftR {A} (r : Res A) : Hinv (liftR r).
Proof. intros s. apply frame_refl. Qed.

Lemma Hinv_alloc o : Hinv (alloc o).
Proof. intros s. apply (frame_objs_app s [o]). Qed.

Lemma Hinv_deref v : Hinv (deref v).
Proof.
  intros s. unfold deref. destruct v as [l|]; [|apply frame_refl].
  destruct (objs s !! l); apply frame_refl.
Qed.

Lemma Hinv_print o : Hinv (print o).
Proof.
  intros s. split; [|split; [cbn; lia|exists [o]; reflexivity]].
  intros l o' Hl. exists o'. split; [assumption|apply same_kind_refl].
Qed.

Lemma Hinv_bind {A B} (m : H A) (k : A -> H B) :
  Hinv m -> (forall a, Hinv (k a)) -> Hinv (x <- m ;; k x).
Proof.
  intros Hm Hk s. unfold bindH. specialize (Hm s).
  destruct (m s) as [[a|msg| |] s1]; cbn [snd] in *; try assumption.
  eapply frame_trans; [eassumption|apply Hk].
Qed.

Lemma frame_set_pair s l a d a' d' :
  objs s !! l = Some (Pair a d) ->
  frame s (mkStore (<[l := Pair a' d']> (objs s)) (cells s) (out s)).
Proof.
  intros Hl. split; [|split; [cbn; lia|exists []; cbn; now rewrite app_nil_r]].
  intros l' o Hl'. cbn. destruct (decide (l' = l)) as [->|Hne].
  - exists (Pair a' d'). split.
    + apply list_lookup_insert_eq. eapply lookup_lt_Some; eassumption.
    + rewrite Hl in Hl'. injection Hl' as <-. cbn. eauto.
  - exists o. split; [|apply same_kind_refl].
    now rewrite list_lookup_insert_ne.
Qed.

Lemma deref_inv v s o s' :
  deref v s = (Ret o, s') -> s' = s /\ exists l, v = Some l /\ objs s !! l = Some o.
Proof.
  unfold deref. destruct v as [l|]; [|discriminate].
  destruct (objs s !! l) eqn:Hl; [|discriminate].
  intros [= <- <-]. eauto.
Qed.

Lemma Hinv_SetCar rand1 rand2 : Hinv (SetCar_evalRator rand1 rand2).
Proof.
  intros s. unfold SetCar_evalRator, bindH.
  destruct (deref rand1 s) as [[o|msg| |] s1] eqn:Hd;
    try (pose proof (Hinv_deref rand1 s) as Hf; rewrite Hd in Hf; exact Hf).
  apply deref_inv in Hd as (-> & l & -> & Hl).
  destruct o; try apply frame_refl.
  cbn. eapply frame_trans; [now apply (frame_set_pair s l car cdr rand2 cdr Hl)|].
  apply (Hinv_alloc Void).
Qed.

Lemma Hinv_SetCdr rand1 rand2 : Hinv (SetCdr_evalRator rand1 rand2).
Proof.
  intros s. unfold SetCdr_evalRator, bindH.
  destruct (deref rand1 s) as [[o|msg| |] s1] eqn:Hd;
    try (pose proof (Hinv_deref rand1 s) as Hf; rewrite Hd in Hf; exact Hf).
  apply deref_inv in Hd as (-> & l & -> & Hl).
  destruct o; try apply frame_refl.
  cbn. eapply frame_trans; [now apply (frame_set_pair s l car cdr car rand2 Hl)|].
  apply (Hinv_alloc Void).
Qed.

Lemma Hinv_normalize num den : Hinv (normalize num den).
Proof.
  unfold normalize. cbv zeta.
  match goal with |- Hinv (if ?c then _ else _) => destruct c end;
    apply Hinv_alloc.
Qed.

Ltac hinv :=
  repeat first
    [ apply Hinv_ret | apply Hinv_throw | apply Hinv_alloc | apply Hinv_deref
    | apply Hinv_print | apply Hinv_liftR | apply Hinv_normalize
    | apply Hinv_SetCar | apply Hinv_SetCdr
    | apply Hinv_bind; [|intros ?]
    | match goal with
      | |- Hinv (match ?x with _ => _ end) => destruct x
      | |- Hinv (if ?c then _ else _) => destruct c
      end ].

Lemma Hinv_addValues v1 v2 : Hinv (addValues v1 v2).
Proof. unfold addValues, IntegerV. hinv. Qed.

Lemma Hinv_subtractValues v1 v2 : Hinv (subtractValues v1 v2).
Proof. unfold subtractValues, IntegerV. hinv. Qed.

Lemma Hinv_multiplyValues v1 v2 : Hinv (multiplyValues v1 v2).
Proof. unfold multiplyValues, IntegerV. hinv. Qed.

Lemma Hinv_divideValues v1 v2 : Hinv (divideValues v1 v2).
Proof. unfold divideValues, IntegerV. hinv. Qed.

Lemma Hinv_fold_args f :
  (forall a b, Hinv (f a b)) -> forall rest result, Hinv (fold_args f result rest).
Proof.
  intros Hf. induction rest as [|a rest IH]; intros result; cbn [fold_args].
  - apply Hinv_ret.
  - apply Hinv_bind; [apply Hf|intros r; apply IH].
Qed.

Lemma Hinv_compareNumericValues v1 v2 : Hinv (compareNumericValues v1 v2).
Proof. unfold compareNumericValues. hinv. Qed.

Lemma Hinv_compare_with test v1 v2 : Hinv (compare_with test v1 v2).
Proof.
  unfold compare_with, BooleanV.
  apply Hinv_bind; [apply Hinv_compareNumericValues|intros c; hinv].
Qed.

Lemma Hinv_compare_chain bad args : Hinv (compare_chain bad args).
Proof.
  induction args as [|a [|b rest] IH]; cbn [compare_chain]; unfold BooleanV;
    try apply Hinv_alloc.
  apply Hinv_bind; [apply Hinv_compareNumericValues|intros c].
  destruct (bad c); [apply Hinv_alloc|apply IH].
Qed.

Lemma Hinv_cons_all rev_args : forall result, Hinv (cons_all rev_args result).
Proof.
  induction rev_args as [|a rest IH]; intros result; cbn [cons_all].
  - apply Hinv_ret.
  - apply Hinv_bind; [apply Hinv_alloc|intros r; apply IH].
Qed.

Lemma Hinv_list_walk n : forall curr, Hinv (list_walk n curr).
Proof.
  induction n as [|n IH]; intros curr; cbn [list_walk]; unfold BooleanV, timeout.
  - apply Hinv_bind; [apply Hinv_deref|intros o].
    destruct o; try apply Hinv_alloc. intros s. apply frame_refl.
  - apply Hinv_bind; [apply Hinv_deref|intros o].
    destruct o; try apply Hinv_alloc. apply IH.
Qed.

Lemma Hinv_IsList rand : Hinv (IsList_evalRator rand).
Proof.
  unfold IsList_evalRator, BooleanV.
  apply Hinv_bind; [apply Hinv_deref|intros o].
  destruct o; try apply Hinv_alloc.
  intros s. apply Hinv_list_walk.
Qed.

Lemma Hinv_Expt v1 v2 : Hinv (Expt_evalRator v1 v2).
Proof. unfold Expt_evalRator, IntegerV. hinv. Qed.

Lemma Hinv_Modulo v1 v2 : Hinv (Modulo_evalRator v1 v2).
Proof. unfold Modulo_evalRator, IntegerV. hinv. Qed.

Lemma Hinv_IsEq v1 v2 : Hinv (IsEq_evalRator v1 v2).
Proof. unfold IsEq_evalRator, BooleanV. hinv. Qed.

Lemma Hinv_Unary op rand : Hinv (Unary_evalRator op rand).
Proof.
  destruct op; cbn [Unary_evalRator];
    unfold Car_evalRator, Cdr_evalRator, Not_evalRator, type_test,
      Display_evalRator, BooleanV, VoidV, undef;
    try apply Hinv_IsList; hinv; intros s; apply frame_refl.
Qed.

Lemma Hinv_Binary op rand1 rand2 : Hinv (Binary_evalRator op rand1 rand2).
Proof.
  destruct op; cbn [Binary_evalRator];
    first [ apply Hinv_addValues | apply Hinv_subtractValues
          | apply Hinv_multiplyValues | apply Hinv_divideValues
          | apply Hinv_Modulo | apply Hinv_Expt | apply Hinv_compare_with
          | apply Hinv_SetCar | apply Hinv_SetCdr | apply Hinv_IsEq
          | apply Hinv_alloc ].
Qed.

Lemma Hinv_Variadic op args : Hinv (Variadic_evalRator op args).
Proof.
  destruct op; cbn [Variadic_evalRator]; try apply Hinv_compare_chain.
  - unfold PlusVar_evalRator, IntegerV. destruct args; [apply Hinv_alloc|].
    apply Hinv_fold_args, Hinv_addValues.
  - unfold MinusVar_evalRator, IntegerV, RationalV.
    destruct args as [|a0 [|a1 rest]]; [apply Hinv_throw|hinv|].
    apply Hinv_fold_args, Hinv_subtractValues.
  - unfold MultVar_evalRator, IntegerV. destruct args; [apply Hinv_alloc|].
    apply Hinv_fold_args, Hinv_multiplyValues.
  - unfold DivVar_evalRator, IntegerV.
    destruct args as [|a0 [|a1 rest]]; [apply Hinv_throw| |].
    + apply Hinv_bind; [apply Hinv_alloc|intros one; apply Hinv_divideValues].
    + apply Hinv_fold_args, Hinv_divideValues.
  - unfold ListFunc_evalRator, NullV.
    apply Hinv_bind; [apply Hinv_alloc|intros r; apply Hinv_cons_all].
Qed.

Lemma Hinv_syntaxToValue stx : Hinv (syntaxToValue stx).
Proof.
  induction stx as [n|p q|x|x| | |stxs IH] using Syntax_nested_ind;
    try apply Hinv_alloc.
  cbn [syntaxToValue]. induction IH as [|x rest Hx Hrest IHrest].
  - apply Hinv_alloc.
  - apply Hinv_bind; [exact IHrest|intros result].
    apply Hinv_bind; [exact Hx|intros v; apply Hinv_alloc].
Qed.

Lemma frame_cells_app s new :
  frame s (mkStore (objs s) (cells s ++ new) (out s)).
Proof.
  split; [|split; [cbn; rewrite length_app; lia
                  |exists []; cbn; now rewrite app_nil_r]].
  intros l o Hl. exists o. split; [assumption|apply same_kind_refl].
Qed.

Lemma Hinv_find x env : Hinv (find x env).
Proof.
  intros s. unfold find. destruct (lookup_cell x env) as [c|]; [|apply frame_refl].
  destruct (cells s !! c); apply frame_refl.
Qed.

Lemma Hinv_extend x v env : Hinv (extend x v env).
Proof. intros s. apply (frame_cells_app s [v]). Qed.

Lemma Hinv_modify x v env : Hinv (modify x v env).
Proof.
  intros s. unfold modify. destruct (lookup_cell x env) as [c|]; [|apply frame_refl].
  split; [|split; [cbn; rewrite length_insert; lia
                  |exists []; cbn; now rewrite app_nil_r]].
  intros l o Hl. exists o. split; [assumption|apply same_kind_refl].
Qed.

Lemma Hinv_extend_all names : forall vals env, Hinv (extend_all names vals env).
Proof.
  induction names as [|x names IH]; intros [|v vals] env; cbn [extend_all];
    try apply Hinv_ret.
  apply Hinv_bind; [apply Hinv_extend|intros env'; apply IH].
Qed.

Lemma Hinv_letrec_placeholders bind :
  forall env, Hinv (letrec_placeholders bind env).
Proof.
  induction bind as [|b bind IH]; intros env; cbn [letrec_placeholders].
  - apply Hinv_ret.
  - apply Hinv_bind; [apply Hinv_extend|intros env'; apply IH].
Qed.

Lemma Einv_ret {A} (a : A) : Einv (retE a).
Proof. intros e s. apply frame_refl. Qed.

Lemma Einv_throw {A} msg : Einv (@throwE A msg).
Proof. intros e s. apply frame_refl. Qed.

Lemma Einv_get_env : Einv get_env.
Proof. intros e s. apply frame_refl. Qed.

Lemma Einv_set_env e' : Einv (set_env e').
Proof. intros e s. apply frame_refl. Qed.

Lemma Einv_liftH {A} (m : H A) : Hinv m -> Einv (liftH m).
Proof.
  intros Hm e s. unfold liftH. specialize (Hm s). now destruct (m s).
Qed.

Lemma Einv_in_env {A} local (m : E A) : Einv m -> Einv (in_env local m).
Proof.
  intros Hm e s. unfold in_env. specialize (Hm local s).
  now destruct (m local s) as [[r e'] s'].
Qed.

Lemma Einv_bind {A B} (m : E A) (k : A -> E B) :
  Einv m -> (forall a, Einv (k a)) -> Einv (x <~ m ;; k x).
Proof.
  intros Hm Hk e s. unfold bindE. specialize (Hm e s).
  destruct (m e s) as [[[a|msg| |] e1] s1]; cbn [snd] in *; try assumption.
  eapply frame_trans; [eassumption|apply Hk].
Qed.

Section Frame.

Variable primitives : gmap string ExprType.
Variable reserved_words : gmap string ExprType.
Variable ev : Expr -> E Value.
Hypothesis Hev : forall ex, Einv (ev ex).

Lemma Einv_eval_args rands : Einv (eval_args ev rands).
Proof.
  induction rands as [|x rest IH]; cbn [eval_args]; [apply Einv_ret|].
  apply Einv_bind; [apply Hev|intros v].
  apply Einv_bind; [apply IH|intros vs; apply Einv_ret].
Qed.

Lemma Einv_eval_body es : forall result, Einv (eval_body ev result es).
Proof.
  induction es as [|x rest IH]; intros result; cbn [eval_body];
    [apply Einv_ret|].
  apply Einv_bind; [apply Hev|intros r; apply IH].
Qed.

Lemma Einv_and_loop rands : forall result, Einv (and_loop ev result rands).
Proof.
  induction rands as [|x rest IH]; intros result; cbn [and_loop];
    [apply Einv_ret|].
  apply Einv_bind; [apply Hev|intros r].
  apply Einv_bind; [apply Einv_liftH, Hinv_deref|intros o].
  destruct (is_false o); [apply Einv_liftH, Hinv_alloc|apply IH].
Qed.

Lemma Einv_or_loop rands : Einv (or_loop ev rands).
Proof.
  induction rands as [|x rest IH]; cbn [or_loop];
    [apply Einv_liftH, Hinv_alloc|].
  apply Einv_bind; [apply Hev|intros r].
  apply Einv_bind; [apply Einv_liftH, Hinv_deref|intros o].
  destruct (is_false o); [apply IH|apply Einv_ret].
Qed.

Lemma Einv_clause_body rest : Einv (clause_body ev rest).
Proof.
  unfold clause_body.
  apply Einv_bind; [apply Einv_liftH, Hinv_alloc|intros r; apply Einv_eval_body].
Qed.

Lemma Einv_Cond_eval clauses : Einv (Cond_eval ev clauses).
Proof.
  induction clauses as [|[|test rest] more IH]; cbn [Cond_eval];
    [apply Einv_liftH, Hinv_alloc|exact IH|].
  destruct (is_else test); [apply Einv_clause_body|].
  apply Einv_bind; [apply Hev|intros cond_val].
  apply Einv_bind; [apply Einv_liftH, Hinv_deref|intros o].
  destruct (is_false o); [exact IH|].
  destruct rest; [apply Einv_ret|apply Einv_clause_body].
Qed.

Lemma Einv_letrec_assign bind : Einv (letrec_assign ev bind).
Proof.
  induction bind as [|b bind IH]; cbn [letrec_assign]; [apply Einv_ret|].
  apply Einv_bind; [apply Hev|intros val].
  apply Einv_bind; [apply Einv_get_env|intros new_env].
  apply Einv_bind; [apply Einv_liftH, Hinv_modify|intros _; exact IH].
Qed.

Lemma Einv_eval_node ex : Einv (eval_node primitives reserved_words ev ex).
Proof.
  destruct ex; cbn [eval_node];
    try (apply Einv_liftH; first [apply Hinv_alloc|apply Hinv_syntaxToValue]).
  - (* Var *)
    unfold Var_eval.
    apply Einv_bind; [apply Einv_get_env|intros e].
    apply Einv_bind; [apply Einv_liftH, Hinv_find|intros [l|]];
      [apply Einv_ret|].
    destruct (count primitives x);
      [apply Einv_liftH, Hinv_alloc|apply Einv_throw].
  - apply Einv_bind; [apply Hev|intros v; apply Einv_liftH, Hinv_Unary].
  - apply Einv_bind; [apply Hev|intros v1].
    apply Einv_bind; [apply Hev|intros v2; apply Einv_liftH, Hinv_Binary].
  - apply Einv_bind; [apply Einv_eval_args|intros args].
    apply Einv_liftH, Hinv_Variadic.
  - (* AndVar *)
    unfold AndVar_eval. destruct rands; [apply Einv_liftH, Hinv_alloc|].
    apply Einv_bind; [apply Einv_liftH, Hinv_alloc|intros r; apply Einv_and_loop].
  - apply Einv_or_loop.
  - (* Begin *)
    unfold Begin_eval. destruct es; [apply Einv_liftH, Hinv_alloc|].
    apply Einv_bind; [apply Einv_liftH, Hinv_alloc|intros r; apply Einv_eval_body].
  - (* If *)
    unfold If_eval. apply Einv_bind; [apply Hev|intros v].
    apply Einv_bind; [apply Einv_liftH, Hinv_deref|intros o].
    destruct (is_false o); apply Hev.
  - apply Einv_Cond_eval.
  - (* Lambda *)
    apply Einv_bind; [apply Einv_get_env|intros env].
    apply Einv_liftH, Hinv_alloc.
  - (* Apply *)
    unfold Apply_eval. apply Einv_bind; [apply Hev|intros f].
    apply Einv_bind; [apply Einv_liftH, Hinv_deref|intros o].
    destruct o; try apply Einv_throw.
    apply Einv_bind; [apply Einv_eval_args|intros args].
    destruct (negb _); [apply Einv_throw|].
    apply Einv_bind; [apply Einv_liftH, Hinv_extend_all|intros param_env].
    apply Einv_in_env, Hev.
  - (* Define *)
    unfold Define_eval. destruct (_ || _); [apply Einv_throw|].
    apply Einv_bind; [apply Hev|intros val].
    apply Einv_bind; [apply Einv_get_env|intros env].
    apply Einv_bind; [apply Einv_liftH, Hinv_find|intros existing].
    apply Einv_bind; [|intros _; apply Einv_liftH, Hinv_alloc].
    destruct existing; [apply Einv_liftH, Hinv_modify|].
    apply Einv_bind; [apply Einv_liftH, Hinv_extend|intros env'].
    apply Einv_set_env.
  - (* Let *)
    unfold Let_eval. apply Einv_bind; [apply Einv_eval_args|intros vals].
    apply Einv_bind; [apply Einv_get_env|intros env].
    apply Einv_bind; [apply Einv_liftH, Hinv_extend_all|intros new_env].
    apply Einv_in_env, Hev.
  - (* Letrec *)
    unfold Letrec_eval. apply Einv_bind; [apply Einv_get_env|intros env].
    apply Einv_bind; [apply Einv_liftH, Hinv_letrec_placeholders|intros new_env].
    apply Einv_in_env.
    apply Einv_bind; [apply Einv_letrec_assign|intros _; apply Hev].
  - (* Set *)
    unfold Set_eval. apply Einv_bind; [apply Hev|intros val].
    apply Einv_bind; [apply Einv_get_env|intros env].
    apply Einv_bind; [apply Einv_liftH, Hinv_find|intros existing].
    destruct existing; [|apply Einv_throw].
    apply Einv_bind; [apply Einv_liftH, Hinv_modify|intros _].
    apply Einv_liftH, Hinv_alloc.
Qed.

End Frame.

Lemma Einv_eval primitives reserved_words fuel :
  forall ex, Einv (eval primitives reserved_words fuel ex).
Proof.
  induction fuel as [|fuel IH]; intros ex.
  - intros e s. apply frame_refl.
  - cbn [eval]. now apply Einv_eval_node.
Qed.

(** X24.  Whatever the expression, the fuel and the outcome, evaluation only
    adds to the store: every object that was there keeps its address and,
    unless it is a pair, its content (a pair stays a pair); no cell is
    removed; the output so far is the beginning of the output after. *)
Theorem eval_frame primitives reserved_words fuel ex e s :
  frame s (snd (eval primitives reserved_words fuel ex e s)).
Proof. apply Einv_eval. Qed.

(** ** Memory safety *)

Lemma frame_length_objs s s' :
  frame s s' -> (length (objs s) <= length (objs s'))%nat.
Proof.
  intros (Ho & _ & _).
  destruct (decide (length (objs s) = 0%nat)) as [->|Hne]; [lia|].
  destruct (lookup_lt_is_Some_2 (objs s) (length (objs s) - 1)) as [o Hl];
    [lia|].
  destruct (Ho _ _ Hl) as (o' & Hl' & _). apply lookup_lt_Some in Hl'. lia.
Qed.

Lemma frame_length_cells s s' :
  frame s s' -> (length (cells s) <= length (cells s'))%nat.
Proof. now intros (_ & Hc & _). Qed.

Lemma valid_frame s s' v : frame s s' -> valid s v -> valid s' v.
Proof.
  intros Hf (l & -> & Hl). exists l. split; [reflexivity|].
  apply frame_length_objs in Hf. lia.
Qed.

Lemma wf_env_frame s s' e : frame s s' -> wf_env s e -> wf_env s' e.
Proof.
  intros Hf He. eapply Forall_impl; [exact He|]. intros [x c] Hc. cbn in *.
  apply frame_length_cells in Hf. lia.
Qed.

Lemma wf_obj_frame s s' o : frame s s' -> wf_obj s o -> wf_obj s' o.
Proof.
  intros Hf. destruct o; cbn; try tauto.
  - intros [Ha Hd]. split; now apply (valid_frame s).
  - now apply wf_env_frame.
Qed.

Lemma wf_cell_frame s s' v : frame s s' -> wf_cell s v -> wf_cell s' v.
Proof. intros Hf [->|Hv]; [now left|right; now apply (valid_frame s)]. Qed.

Lemma Forall_valid_frame s s' vs :
  frame s s' -> Forall (valid s) vs -> Forall (valid s') vs.
Proof.
  intros Hf Hv. eapply Forall_impl; [exact Hv|]. intros v. now apply valid_frame.
Qed.

Lemma wf_lookup s l o : wf s -> objs s !! l = Some o -> wf_obj s o.
Proof. intros [Ho _] Hl. eapply Forall_lookup_1; eassumption. Qed.

Lemma valid_deref s v :
  valid s v -> wf s -> exists o, deref v s = (Ret o, s) /\ wf_obj s o.
Proof.
  intros (l & -> & Hl) W.
  destruct (lookup_lt_is_Some_2 (objs s) l Hl) as [o Ho].
  exists o. split; [apply deref_Some; eauto|]. now apply (wf_lookup s l).
Qed.

(** *** Rules *)

Lemma Hok_ret {A} (P : Store -> A -> Prop) a s :
  wf s -> P s a -> Hok P (retH a) s.
Proof. intros W HP. split; [apply frame_refl|]. now split. Qed.

Lemma Hok_throw {A} (P : Store -> A -> Prop) msg s :
  wf s -> Hok P (throw msg) s.
Proof. intros W. split; [apply frame_refl|]. now split. Qed.

Lemma Hok_timeout {A} (P : Store -> A -> Prop) s :
  wf s -> Hok P timeout s.
Proof. intros W. split; [apply frame_refl|]. now split. Qed.

Lemma Hok_bind {A B} (P : Store -> A -> Prop) (Q : Store -> B -> Prop)
    (m : H A) (k : A -> H B) s :
  Hok P m s ->
  (forall a s1, frame s s1 -> wf s1 -> P s1 a -> Hok Q (k a) s1) ->
  Hok Q (x <- m ;; k x) s.
Proof.
  unfold Hok at 1 3, bindH. intros (Hf & W & HP) Hk.
  destruct (m s) as [[a|msg| |] s1]; cbn [fst snd] in *;
    try (split; [assumption|now split]).
  destruct (Hk a s1 Hf W HP) as (Hf' & W' & HQ).
  split; [now apply (frame_trans s s1)|now split].
Qed.

Lemma Hok_bind_deref {B} (Q : Store -> B -> Prop) v (k : ValueBase -> H B) s :
  wf s -> valid s v ->
  (forall o, wf_obj s o -> Hok Q (k o) s) ->
  Hok Q (o <- deref v ;; k o) s.
Proof.
  intros W V Hk. destruct (valid_deref s v V W) as (o & Hd & Wo).
  unfold Hok. rewrite (bindH_deref v o k s Hd). now apply Hk.
Qed.

Lemma Hok_weaken {A} (P Q : Store -> A -> Prop) (m : H A) s :
  (forall s' a, P s' a -> Q s' a) -> Hok P m s -> Hok Q m s.
Proof.
  intros HPQ (Hf & W & HP). split; [assumption|]. split; [assumption|].
  destruct (fst (m s)); auto.
Qed.

Lemma wf_alloc s o : wf s -> wf_obj s o -> wf (snd (alloc o s)).
Proof.
  intros [Wo Wc] Ho. pose proof (Hinv_alloc o s) as Hf. split; cbn.
  - apply Forall_app. split.
    + eapply Forall_impl; [exact Wo|]. intros o'. now apply wf_obj_frame.
    + constructor; [|constructor]. now apply (wf_obj_frame s).
  - eapply Forall_impl; [exact Wc|]. intros v. now apply wf_cell_frame.
Qed.

Lemma Hok_alloc s o : wf s -> wf_obj s o -> Hok valid (alloc o) s.
Proof.
  intros W Ho. split; [apply Hinv_alloc|]. split; [now apply wf_alloc|].
  cbn. exists (length (objs s)). split; [reflexivity|].
  cbn. rewrite length_app. cbn. lia.
Qed.

Lemma Hok_normalize s num den : wf s -> Hok valid (normalize num den) s.
Proof.
  intros W. unfold normalize. cbv zeta.
  match goal with |- Hok _ (if ?c then _ else _) _ => destruct c end;
    now apply Hok_alloc.
Qed.

Ltac hok W :=
  repeat first
    [ apply Hok_normalize; exact W
    | apply Hok_alloc; [exact W|exact I]
    | apply Hok_throw; exact W
    | match goal with
      | |- Hok _ (match ?x with _ => _ end) _ => destruct x
      | |- Hok _ (if ?c then _ else _) _ => destruct c
      end ].

Lemma Hok_addValues s v1 v2 :
  wf s -> valid s v1 -> valid s v2 -> Hok valid (addValues v1 v2) s.
Proof.
  intros W V1 V2. unfold addValues, IntegerV.
  apply Hok_bind_deref; [assumption..|intros o1 _].
  apply Hok_bind_deref; [assumption..|intros o2 _]. hok W.
Qed.

Lemma Hok_subtractValues s v1 v2 :
  wf s -> valid s v1 -> valid s v2 -> Hok valid (subtractValues v1 v2) s.
Proof.
  intros W V1 V2. unfold subtractValues, IntegerV.
  apply Hok_bind_deref; [assumption..|intros o1 _].
  apply Hok_bind_deref; [assumption..|intros o2 _]. hok W.
Qed.

Lemma Hok_multiplyValues s v1 v2 :
  wf s -> valid s v1 -> valid s v2 -> Hok valid (multiplyValues v1 v2) s.
Proof.
  intros W V1 V2. unfold multiplyValues, IntegerV.
  apply Hok_bind_deref; [assumption..|intros o1 _].
  apply Hok_bind_deref; [assumption..|intros o2 _]. hok W.
Qed.

Lemma Hok_divideValues s v1 v2 :
  wf s -> valid s v1 -> valid s v2 -> Hok valid (divideValues v1 v2) s.
Proof.
  intros W V1 V2. unfold divideValues, IntegerV.
  apply Hok_bind_deref; [assumption..|intros o1 _].
  apply Hok_bind_deref; [assumption..|intros o2 _]. hok W.
Qed.

Lemma Hok_fold_args f :
  (forall s a b, wf s -> valid s a -> valid s b -> Hok valid (f a b) s) ->
  forall rest s result,
    wf s -> valid s result -> Forall (valid s) rest ->
    Hok valid (fold_args f result rest) s.
Proof.
  intros Hf. induction rest as [|a rest IH]; intros s result W V Vs;
    cbn [fold_args].
  - now apply Hok_ret.
  - apply Forall_cons in Vs as [Va Vs].
    apply Hok_bind with valid; [now apply Hf|].
    intros r s1 Hfr W1 Vr. apply IH; try assumption.
    now apply (Forall_valid_frame s).
Qed.

Lemma Hok_compareNumericValues s v1 v2 :
  wf s -> valid s v1 -> valid s v2 ->
  Hok (fun s' _ => s' = s) (compareNumericValues v1 v2) s.
Proof.
  intros W V1 V2. unfold compareNumericValues.
  apply Hok_bind_deref; [assumption..|intros o1 _].
  apply Hok_bind_deref; [assumption..|intros o2 _].
  destruct o1; destruct o2;
    first [now apply Hok_throw | now apply Hok_ret].
Qed.

Lemma Hok_compare_with test s v1 v2 :
  wf s -> valid s v1 -> valid s v2 -> Hok valid (compare_with test v1 v2) s.
Proof.
  intros W V1 V2. unfold compare_with, BooleanV.
  eapply Hok_bind; [now apply Hok_compareNumericValues|].
  intros c s1 _ W1 _. now apply Hok_alloc.
Qed.

Lemma Hok_compare_chain bad args : forall s,
  wf s -> Forall (valid s) args -> Hok valid (compare_chain bad args) s.
Proof.
  induction args as [|a [|b rest] IH]; intros s W Vs; cbn [compare_chain];
    unfold BooleanV; try (now apply Hok_alloc).
  apply Forall_cons in Vs as [Va Vs]. pose proof Vs as Vs'.
  apply Forall_cons in Vs' as [Vb _].
  eapply Hok_bind; [now apply Hok_compareNumericValues|].
  intros c s1 _ W1 ->. destruct (bad c); [now apply Hok_alloc|].
  now apply IH.
Qed.

Lemma Hok_cons_all rev_args : forall s result,
  wf s -> valid s result -> Forall (valid s) rev_args ->
  Hok valid (cons_all rev_args result) s.
Proof.
  induction rev_args as [|a rest IH]; intros s result W V Vs; cbn [cons_all].
  - now apply Hok_ret.
  - apply Forall_cons in Vs as [Va Vs]. unfold PairV.
    apply Hok_bind with valid; [apply Hok_alloc; [assumption|now split]|].
    intros r s1 Hfr W1 Vr. apply IH; try assumption.
    now apply (Forall_valid_frame s).
Qed.

Lemma Hok_list_walk n : forall s curr,
  wf s -> valid s curr -> Hok valid (list_walk n curr) s.
Proof.
  induction n as [|n IH]; intros s curr W V; cbn [list_walk]; unfold BooleanV;
    (apply Hok_bind_deref; [assumption..|intros o Wo]);
    destruct o; try (now apply Hok_alloc).
  - now apply Hok_timeout.
  - apply IH; [assumption|]. now destruct Wo.
Qed.

Lemma Hok_IsList s rand :
  wf s -> valid s rand -> Hok valid (IsList_evalRator rand) s.
Proof.
  intros W V. unfold IsList_evalRator, BooleanV.
  apply Hok_bind_deref; [assumption..|intros o Wo].
  destruct o; try (now apply Hok_alloc).
  now apply (Hok_list_walk (length (objs s))).
Qed.

Lemma wf_store_obj s l a d a' d' :
  wf s -> objs s !! l = Some (Pair a d) -> valid s a' -> valid s d' ->
  wf (mkStore (<[l := Pair a' d']> (objs s)) (cells s) (out s)).
Proof.
  intros [Wo Wc] Hl Va Vd.
  assert (Hv : forall v, valid s v ->
             valid (mkStore (<[l := Pair a' d']> (objs s)) (cells s) (out s)) v).
  { intros v (l' & -> & Hl'). exists l'. split; [reflexivity|]. cbn.
    now rewrite length_insert. }
  assert (Ho : forall o, wf_obj s o ->
             wf_obj (mkStore (<[l := Pair a' d']> (objs s)) (cells s) (out s)) o).
  { intros o. destruct o; cbn; try tauto. intros [? ?]. split; now apply Hv. }
  split; cbn.
  - apply Forall_insert.
    + eapply Forall_impl; [exact Wo|]. exact Ho.
    + apply Ho. now split.
  - eapply Forall_impl; [exact Wc|]. intros v [->|V]; [now left|right].
    now apply Hv.
Qed.

Lemma Hok_SetCar s rand1 rand2 :
  wf s -> valid s rand1 -> valid s rand2 ->
  Hok valid (SetCar_evalRator rand1 rand2) s.
Proof.
  intros W V1 V2. pose proof (Hinv_SetCar rand1 rand2 s) as Hfr.
  destruct (valid_deref s rand1 V1 W) as (o & Hd & Wo).
  pose proof Hd as Hd'. apply deref_Some in Hd' as (l & -> & Hl).
  unfold Hok. revert Hfr. unfold SetCar_evalRator.
  rewrite (bindH_deref (Some l) o _ s Hd).
  destruct o; try (intros _; now apply Hok_throw).
  intros Hfr. split; [exact Hfr|]. destruct Wo as [Va Vd].
  pose proof (wf_store_obj s l car cdr rand2 cdr W Hl V2 Vd) as W1.
  destruct (Hok_alloc _ Void W1 I) as (_ & W2 & V). now split.
Qed.

Lemma Hok_SetCdr s rand1 rand2 :
  wf s -> valid s rand1 -> valid s rand2 ->
  Hok valid (SetCdr_evalRator rand1 rand2) s.
Proof.
  intros W V1 V2. pose proof (Hinv_SetCdr rand1 rand2 s) as Hfr.
  destruct (valid_deref s rand1 V1 W) as (o & Hd & Wo).
  pose proof Hd as Hd'. apply deref_Some in Hd' as (l & -> & Hl).
  unfold Hok. revert Hfr. unfold SetCdr_evalRator.
  rewrite (bindH_deref (Some l) o _ s Hd).
  destruct o; try (intros _; now apply Hok_throw).
  intros Hfr. split; [exact Hfr|]. destruct Wo as [Va Vd].
  pose proof (wf_store_obj s l car cdr car rand2 W Hl Va V2) as W1.
  destruct (Hok_alloc _ Void W1 I) as (_ & W2 & V). now split.
Qed.

Lemma wf_print s o : wf s -> wf (snd (print o s)).
Proof. intros [Wo Wc]. split; assumption. Qed.

Lemma Hok_Display s rand :
  wf s -> valid s rand -> Hok valid (Display_evalRator rand) s.
Proof.
  intros W V. unfold Display_evalRator, VoidV.
  apply Hok_bind_deref; [assumption..|intros o Wo].
  assert (Hp : forall x, Hok valid (_ <- print x ;; alloc Void) s).
  { intros x. apply Hok_bind with (fun _ _ => True).
    - split; [apply Hinv_print|]. split; [now apply wf_print|exact I].
    - intros _ s1 _ W1 _. now apply Hok_alloc. }
  destruct V as (l & -> & Hl). destruct o; apply Hp.
Qed.

Lemma Hok_Unary op s rand :
  wf s -> valid s rand -> Hok valid (Unary_evalRator op rand) s.
Proof.
  intros W V.
  destruct op; cbn [Unary_evalRator];
    try (now apply Hok_IsList); try (now apply Hok_Display);
    unfold Car_evalRator, Cdr_evalRator, Not_evalRator, type_test, BooleanV;
    (apply Hok_bind_deref; [assumption..|intros o Wo]);
    try (now apply Hok_alloc).
  - destruct o; try (now apply Hok_throw).
    apply Hok_ret; [assumption|]. now destruct Wo.
  - destruct o; try (now apply Hok_throw).
    apply Hok_ret; [assumption|]. now destruct Wo.
Qed.

Lemma expt_loop_defined n : forall result b exp,
  expt_loop n result b exp <> Undef.
Proof.
  induction n as [|n IH]; intros result b exp; cbn [expt_loop];
    [discriminate|].
  destruct (exp >? 0); [|discriminate].
  destruct (_ && _); [discriminate|]. destruct (_ && _); [discriminate|].
  apply IH.
Qed.

Lemma Hok_liftR {A} (r : Res A) s :
  r <> Undef -> wf s -> Hok (fun _ _ => True) (liftR r) s.
Proof.
  intros Hr W. split; [apply frame_refl|]. split; [assumption|].
  cbn. now destruct r.
Qed.

Lemma Hok_Expt s v1 v2 :
  wf s -> valid s v1 -> valid s v2 -> Hok valid (Expt_evalRator v1 v2) s.
Proof.
  intros W V1 V2. unfold Expt_evalRator, IntegerV.
  apply Hok_bind_deref; [assumption..|intros o1 _].
  apply Hok_bind_deref; [assumption..|intros o2 _].
  destruct o1; try (now apply Hok_throw);
    destruct o2; try (now apply Hok_throw).
  destruct (_ <? _); [now apply Hok_throw|].
  destruct (_ && _); [now apply Hok_throw|].
  eapply Hok_bind; [apply Hok_liftR; [apply expt_loop_defined|assumption]|].
  intros r s1 _ W1 _. now apply Hok_alloc.
Qed.

Lemma Hok_Modulo s v1 v2 :
  wf s -> valid s v1 -> valid s v2 -> Hok valid (Modulo_evalRator v1 v2) s.
Proof.
  intros W V1 V2. unfold Modulo_evalRator, IntegerV.
  apply Hok_bind_deref; [assumption..|intros o1 _].
  apply Hok_bind_deref; [assumption..|intros o2 _]. hok W.
Qed.

Lemma Hok_IsEq s v1 v2 :
  wf s -> valid s v1 -> valid s v2 -> Hok valid (IsEq_evalRator v1 v2) s.
Proof.
  intros W V1 V2. unfold IsEq_evalRator, BooleanV.
  apply Hok_bind_deref; [assumption..|intros o1 _].
  apply Hok_bind_deref; [assumption..|intros o2 _]. hok W.
Qed.

Lemma Hok_Binary op s v1 v2 :
  wf s -> valid s v1 -> valid s v2 -> Hok valid (Binary_evalRator op v1 v2) s.
Proof.
  intros W V1 V2. destruct op; cbn [Binary_evalRator];
    first [ now apply Hok_addValues | now apply Hok_subtractValues
          | now apply Hok_multiplyValues | now apply Hok_divideValues
          | now apply Hok_Modulo | now apply Hok_Expt
          | now apply Hok_compare_with
          | now apply Hok_SetCar | now apply Hok_SetCdr | now apply Hok_IsEq
          | idtac ].
  unfold PairV. apply Hok_alloc; [assumption|now split].
Qed.

Lemma Hok_Variadic op s args :
  wf s -> Forall (valid s) args -> Hok valid (Variadic_evalRator op args) s.
Proof.
  intros W Vs. destruct op; cbn [Variadic_evalRator];
    try (now apply Hok_compare_chain).
  - unfold PlusVar_evalRator, IntegerV.
    destruct args as [|a0 rest]; [now apply Hok_alloc|].
    apply Forall_cons in Vs as [V0 Vs].
    apply Hok_fold_args; try assumption. apply Hok_addValues.
  - unfold MinusVar_evalRator, IntegerV, RationalV.
    destruct args as [|a0 [|a1 rest]]; [now apply Hok_throw| |].
    + apply Forall_cons in Vs as [V0 _].
      apply Hok_bind_deref; [assumption..|intros o _]. hok W.
    + apply Forall_cons in Vs as [V0 Vs].
      apply Hok_fold_args; try assumption. apply Hok_subtractValues.
  - unfold MultVar_evalRator, IntegerV.
    destruct args as [|a0 rest]; [now apply Hok_alloc|].
    apply Forall_cons in Vs as [V0 Vs].
    apply Hok_fold_args; try assumption. apply Hok_multiplyValues.
  - unfold DivVar_evalRator, IntegerV.
    destruct args as [|a0 [|a1 rest]]; [now apply Hok_throw| |].
    + apply Forall_cons in Vs as [V0 _].
      apply Hok_bind with valid; [now apply Hok_alloc|].
      intros one s1 Hfr W1 V1. apply Hok_divideValues; try assumption.
      now apply (valid_frame s).
    + apply Forall_cons in Vs as [V0 Vs].
      apply Hok_fold_args; try assumption. apply Hok_divideValues.
  - unfold ListFunc_evalRator, NullV.
    apply Hok_bind with valid; [now apply Hok_alloc|].
    intros r s1 Hfr W1 Vr. apply Hok_cons_all; try assumption.
    apply (Forall_valid_frame s); [assumption|]. now apply Forall_rev.
Qed.

Lemma Hok_syntaxToValue stx : forall s, wf s -> Hok valid (syntaxToValue stx) s.
Proof.
  induction stx as [n|p q|x|x| | |stxs IH] using Syntax_nested_ind; intros s W;
    try (now apply Hok_alloc).
  cbn [syntaxToValue]. revert s W.
  induction IH as [|x rest Hx Hrest IHrest]; intros s W.
  - now apply Hok_alloc.
  - apply Hok_bind with valid; [now apply IHrest|].
    intros result s1 Hf1 W1 Vr.
    apply Hok_bind with valid; [now apply Hx|].
    intros v s2 Hf2 W2 Vv. unfold PairV.
    apply Hok_alloc; [assumption|]. split; [assumption|].
    now apply (valid_frame s1).
Qed.

(** *** The environment *)

Lemma lookup_cell_wf s env x c :
  wf_env s env -> lookup_cell x env = Some c -> (c < length (cells s))%nat.
Proof.
  induction 1 as [|[y c'] env Hc Henv IH]; cbn; [discriminate|].
  destruct (String.eqb x y); [now intros [= <-]|exact IH].
Qed.

Lemma Hok_find s x env :
  wf s -> wf_env s env ->
  Hok (fun s' v => s' = s /\ wf_cell s v) (find x env) s.
Proof.
  intros W We.
  assert (Hfind : exists v, find x env s = (Ret v, s) /\ wf_cell s v).
  { unfold find. destruct (lookup_cell x env) as [c|] eqn:Hc.
    - destruct (lookup_lt_is_Some_2 (cells s) c) as [v Hv];
        [now apply (lookup_cell_wf s env x)|].
      exists v. assert (Hv' : cells s !! c = Some v) by exact Hv.
      rewrite Hv'. split; [reflexivity|].
      destruct W as [_ Wc]. eapply Forall_lookup_1; eassumption.
    - exists None. split; [reflexivity|now left]. }
  destruct Hfind as (v & Hfind & Wv). unfold Hok. rewrite Hfind. cbn.
  split; [apply frame_refl|]. split; [assumption|]. now split.
Qed.

Lemma Hok_extend s x v env :
  wf s -> wf_cell s v -> wf_env s env -> Hok wf_env (extend x v env) s.
Proof.
  intros W Wv We. pose proof (Hinv_extend x v env s) as Hf.
  split; [exact Hf|]. destruct W as [Wo Wc]. split; [split|]; cbn.
  - eapply Forall_impl; [exact Wo|]. intros o. now apply wf_obj_frame.
  - apply Forall_app. split.
    + eapply Forall_impl; [exact Wc|]. intros v'. now apply wf_cell_frame.
    + constructor; [|constructor]. now apply (wf_cell_frame s).
  - constructor.
    + cbn. rewrite length_app. cbn. lia.
    + now apply (wf_env_frame s).
Qed.

Lemma Hok_modify s x v env :
  wf s -> wf_cell s v -> Hok (fun _ _ => True) (modify x v env) s.
Proof.
  intros W Wv. pose proof (Hinv_modify x v env s) as Hf.
  split; [exact Hf|]. split; [|unfold modify; now destruct (lookup_cell x env)].
  revert Hf. unfold modify. destruct (lookup_cell x env) as [c|]; [|easy].
  cbn [snd]. intros Hf. destruct W as [Wo Wc]. split; cbn.
  - eapply Forall_impl; [exact Wo|]. intros o. now apply wf_obj_frame.
  - apply Forall_insert.
    + eapply Forall_impl; [exact Wc|]. intros v'. now apply wf_cell_frame.
    + now apply (wf_cell_frame s).
Qed.

Lemma Hok_extend_all names : forall s vals env,
  wf s -> Forall (valid s) vals -> wf_env s env ->
  Hok wf_env (extend_all names vals env) s.
Proof.
  induction names as [|x names IH]; intros s [|v vals] env W Vs We;
    cbn [extend_all]; try (now apply Hok_ret).
  apply Forall_cons in Vs as [Vv Vs].
  apply Hok_bind with wf_env; [apply Hok_extend; [assumption|now right|assumption]|].
  intros env' s1 Hf W1 We1. apply IH; try assumption.
  now apply (Forall_valid_frame s).
Qed.

Lemma Hok_letrec_placeholders bind : forall s env,
  wf s -> wf_env s env -> Hok wf_env (letrec_placeholders bind env) s.
Proof.
  induction bind as [|b bind IH]; intros s env W We;
    cbn [letrec_placeholders]; [now apply Hok_ret|].
  apply Hok_bind with wf_env; [apply Hok_extend; [assumption|now left|assumption]|].
  intros env' s1 Hf W1 We1. now apply IH.
Qed.

(** *** Rules of the evaluator monad *)

Lemma Eok_ret {A} (P : Store -> A -> Prop) a e s :
  wf s -> wf_env s e -> P s a -> Eok P (retE a) e s.
Proof.
  intros W We HP. split; [apply frame_refl|]. split; [assumption|]. now split.
Qed.

Lemma Eok_throw {A} (P : Store -> A -> Prop) msg e s :
  wf s -> wf_env s e -> Eok P (throwE msg) e s.
Proof.
  intros W We. split; [apply frame_refl|]. split; [assumption|]. now split.
Qed.

Lemma Eok_liftH {A} (P : Store -> A -> Prop) (m : H A) e s :
  Hok P m s -> wf_env s e -> Eok P (liftH m) e s.
Proof.
  unfold Hok, Eok, liftH. intros (Hf & W & HP) We.
  destruct (m s) as [r s1]. cbn [fst snd] in *.
  split; [assumption|]. split; [assumption|]. split; [|assumption].
  now apply (wf_env_frame s).
Qed.

Lemma Eok_bind {A B} (P : Store -> A -> Prop) (Q : Store -> B -> Prop)
    (m : E A) (k : A -> E B) e s :
  Eok P m e s ->
  (forall a e1 s1, frame s s1 -> wf s1 -> wf_env s1 e1 -> P s1 a ->
                   Eok Q (k a) e1 s1) ->
  Eok Q (x <~ m ;; k x) e s.
Proof.
  unfold Eok at 1 3, bindE. intros (Hf & W & We & HP) Hk.
  destruct (m e s) as [[[a|msg| |] e1] s1]; cbn [fst snd] in *;
    try (split; [assumption|split; [assumption|now split]]).
  destruct (Hk a e1 s1 Hf W We HP) as (Hf' & W' & We' & HQ).
  split; [now apply (frame_trans s s1)|]. split; [assumption|]. now split.
Qed.

Lemma Eok_in_env {A} (P : Store -> A -> Prop) local (m : E A) e s :
  Eok P m local s -> wf_env s e -> Eok P (in_env local m) e s.
Proof.
  unfold Eok, in_env. intros (Hf & W & _ & HP) We.
  destruct (m local s) as [[r e1] s1]. cbn [fst snd] in *.
  split; [assumption|]. split; [assumption|]. split; [|assumption].
  now apply (wf_env_frame s).
Qed.

Lemma Eok_bind_get_env {B} (Q : Store -> B -> Prop) (k : Assoc -> E B) e s :
  Eok Q (k e) e s -> Eok Q (x <~ get_env ;; k x) e s.
Proof. intros Hk. exact Hk. Qed.

Lemma Eok_set_env e' e s :
  wf s -> wf_env s e' -> Eok (fun _ _ => True) (set_env e') e s.
Proof.
  intros W We. split; [apply frame_refl|]. split; [assumption|]. now split.
Qed.

Lemma Eok_bind_deref {B} (Q : Store -> B -> Prop) v (k : ValueBase -> E B) e s :
  wf s -> valid s v ->
  (forall o, wf_obj s o -> Eok Q (k o) e s) ->
  Eok Q (o <~ liftH (deref v) ;; k o) e s.
Proof.
  intros W V Hk. destruct (valid_deref s v V W) as (o & Hd & Wo).
  unfold Eok, bindE, liftH. rewrite Hd. now apply Hk.
Qed.

Section Safe.

Variable primitives : gmap string ExprType.
Variable reserved_words : gmap string ExprType.
Variable ev : Expr -> E Value.
Hypothesis Hev : forall ex e s, wf s -> wf_env s e -> Eok valid (ev ex) e s.

Lemma Eok_eval_args rands : forall e s,
  wf s -> wf_env s e ->
  Eok (fun s' vs => Forall (valid s') vs) (eval_args ev rands) e s.
Proof.
  induction rands as [|x rest IH]; intros e s W We; cbn [eval_args].
  - now apply Eok_ret.
  - apply Eok_bind with valid; [now apply Hev|].
    intros v e1 s1 Hf1 W1 We1 Vv.
    eapply Eok_bind; [now apply IH|].
    intros vs e2 s2 Hf2 W2 We2 Vvs. apply Eok_ret; try assumption.
    constructor; [now apply (valid_frame s1)|assumption].
Qed.

Lemma Eok_eval_body es : forall result e s,
  wf s -> wf_env s e -> valid s result ->
  Eok valid (eval_body ev result es) e s.
Proof.
  induction es as [|x rest IH]; intros result e s W We V; cbn [eval_body].
  - now apply Eok_ret.
  - apply Eok_bind with valid; [now apply Hev|].
    intros r e1 s1 _ W1 We1 Vr. now apply IH.
Qed.

Lemma Eok_and_loop rands : forall result e s,
  wf s -> wf_env s e -> valid s result ->
  Eok valid (and_loop ev result rands) e s.
Proof.
  induction rands as [|x rest IH]; intros result e s W We V; cbn [and_loop].
  - now apply Eok_ret.
  - apply Eok_bind with valid; [now apply Hev|].
    intros r e1 s1 _ W1 We1 Vr.
    apply Eok_bind_deref; [assumption..|intros o _].
    destruct (is_false o); [|now apply IH].
    apply Eok_liftH; [now apply Hok_alloc|assumption].
Qed.

Lemma Eok_or_loop rands : forall e s,
  wf s -> wf_env s e -> Eok valid (or_loop ev rands) e s.
Proof.
  induction rands as [|x rest IH]; intros e s W We; cbn [or_loop].
  - apply Eok_liftH; [now apply Hok_alloc|assumption].
  - apply Eok_bind with valid; [now apply Hev|].
    intros r e1 s1 _ W1 We1 Vr.
    apply Eok_bind_deref; [assumption..|intros o _].
    destruct (is_false o); [now apply IH|now apply Eok_ret].
Qed.

Lemma Eok_clause_body rest e s :
  wf s -> wf_env s e -> Eok valid (clause_body ev rest) e s.
Proof.
  intros W We. unfold clause_body, VoidV.
  apply Eok_bind with valid;
    [apply Eok_liftH; [now apply Hok_alloc|assumption]|].
  intros r e1 s1 _ W1 We1 Vr. now apply Eok_eval_body.
Qed.

Lemma Eok_Cond_eval clauses : forall e s,
  wf s -> wf_env s e -> Eok valid (Cond_eval ev clauses) e s.
Proof.
  induction clauses as [|[|test rest] more IH]; intros e s W We;
    cbn [Cond_eval].
  - apply Eok_liftH; [now apply Hok_alloc|assumption].
  - now apply IH.
  - destruct (is_else test); [now apply Eok_clause_body|].
    apply Eok_bind with valid; [now apply Hev|].
    intros cond_val e1 s1 _ W1 We1 Vc.
    apply Eok_bind_deref; [assumption..|intros o _].
    destruct (is_false o); [now apply IH|].
    destruct rest; [now apply Eok_ret|now apply Eok_clause_body].
Qed.

Lemma Eok_letrec_assign bind : forall e s,
  wf s -> wf_env s e -> Eok (fun _ _ => True) (letrec_assign ev bind) e s.
Proof.
  induction bind as [|b bind IH]; intros e s W We; cbn [letrec_assign].
  - now apply Eok_ret.
  - apply Eok_bind with valid; [now apply Hev|].
    intros val e1 s1 _ W1 We1 Vv. apply Eok_bind_get_env.
    eapply Eok_bind;
      [apply Eok_liftH; [apply Hok_modify; [assumption|now right]|assumption]|].
    intros _ e2 s2 _ W2 We2 _. now apply IH.
Qed.

Lemma Eok_eval_node ex e s :
  wf s -> wf_env s e -> Eok valid (eval_node primitives reserved_words ev ex) e s.
Proof.
  intros W We. destruct ex; cbn [eval_node];
    try (apply Eok_liftH; [now apply Hok_alloc|assumption]).
  - (* Var *)
    unfold Var_eval. apply Eok_bind_get_env.
    eapply Eok_bind; [apply Eok_liftH; [now apply Hok_find|assumption]|].
    intros [l|] e1 s1 _ W1 We1 [-> Wc].
    + apply Eok_ret; try assumption. now destruct Wc.
    + destruct (count primitives x); [|now apply Eok_throw].
      apply Eok_liftH; [|assumption]. now apply Hok_alloc.
  - (* Unary *)
    apply Eok_bind with valid; [now apply Hev|].
    intros v e1 s1 _ W1 We1 V. apply Eok_liftH; [|assumption].
    now apply Hok_Unary.
  - (* Binary *)
    apply Eok_bind with valid; [now apply Hev|].
    intros v1 e1 s1 _ W1 We1 V1.
    apply Eok_bind with valid; [now apply Hev|].
    intros v2 e2 s2 Hf2 W2 We2 V2. apply Eok_liftH; [|assumption].
    apply Hok_Binary; try assumption. now apply (valid_frame s1).
  - (* Variadic *)
    eapply Eok_bind; [now apply Eok_eval_args|].
    intros args e1 s1 _ W1 We1 Vs. apply Eok_liftH; [|assumption].
    now apply Hok_Variadic.
  - (* AndVar *)
    unfold AndVar_eval, BooleanV.
    destruct rands; [apply Eok_liftH; [now apply Hok_alloc|assumption]|].
    apply Eok_bind with valid;
      [apply Eok_liftH; [now apply Hok_alloc|assumption]|].
    intros r e1 s1 _ W1 We1 Vr. now apply Eok_and_loop.
  - now apply Eok_or_loop.
  - (* Begin *)
    unfold Begin_eval, VoidV.
    destruct es; [apply Eok_liftH; [now apply Hok_alloc|assumption]|].
    apply Eok_bind with valid;
      [apply Eok_liftH; [now apply Hok_alloc|assumption]|].
    intros r e1 s1 _ W1 We1 Vr. now apply Eok_eval_body.
  - (* Quote *)
    apply Eok_liftH; [now apply Hok_syntaxToValue|assumption].
  - (* If *)
    unfold If_eval. apply Eok_bind with valid; [now apply Hev|].
    intros v e1 s1 _ W1 We1 V.
    apply Eok_bind_deref; [assumption..|intros o _].
    destruct (is_false o); now apply Hev.
  - now apply Eok_Cond_eval.
  - (* Apply *)
    unfold Apply_eval. apply Eok_bind with valid; [now apply Hev|].
    intros f e1 s1 _ W1 We1 Vf.
    apply Eok_bind_deref; [assumption..|intros o Wo].
    destruct o; try (now apply Eok_throw).
    eapply Eok_bind; [now apply Eok_eval_args|].
    intros args e2 s2 Hf2 W2 We2 Vs.
    destruct (negb _); [now apply Eok_throw|].
    apply Eok_bind with wf_env.
    + apply Eok_liftH; [|assumption]. apply Hok_extend_all; try assumption.
      now apply (wf_env_frame s1).
    + intros param_env e3 s3 _ W3 We3 Wp. apply Eok_in_env; [|assumption].
      now apply Hev.
  - (* Define *)
    unfold Define_eval. destruct (_ || _); [now apply Eok_throw|].
    apply Eok_bind with valid; [now apply Hev|].
    intros val e1 s1 _ W1 We1 Vv. apply Eok_bind_get_env.
    eapply Eok_bind; [apply Eok_liftH; [now apply Hok_find|assumption]|].
    intros existing e2 s2 _ W2 We2 [-> _].
    apply Eok_bind with (fun _ _ => True).
    + destruct existing.
      * apply Eok_liftH; [|assumption]. apply Hok_modify; [assumption|now right].
      * apply Eok_bind with wf_env.
        -- apply Eok_liftH; [|assumption].
           apply Hok_extend; [assumption|now right|assumption].
        -- intros env' e3 s3 _ W3 _ We'. now apply Eok_set_env.
    + intros _ e3 s3 _ W3 We3 _. apply Eok_liftH; [|assumption].
      now apply Hok_alloc.
  - (* Let *)
    unfold Let_eval. eapply Eok_bind; [now apply Eok_eval_args|].
    intros vals e1 s1 _ W1 We1 Vs. apply Eok_bind_get_env.
    apply Eok_bind with wf_env.
    + apply Eok_liftH; [|assumption]. now apply Hok_extend_all.
    + intros new_env e2 s2 _ W2 We2 Wn. apply Eok_in_env; [|assumption].
      now apply Hev.
  - (* Letrec *)
    unfold Letrec_eval. apply Eok_bind_get_env.
    apply Eok_bind with wf_env.
    + apply Eok_liftH; [|assumption]. now apply Hok_letrec_placeholders.
    + intros new_env e1 s1 _ W1 We1 Wn. apply Eok_in_env; [|assumption].
      eapply Eok_bind; [now apply Eok_letrec_assign|].
      intros _ e2 s2 _ W2 We2 _. now apply Hev.
  - (* Set *)
    unfold Set_eval. apply Eok_bind with valid; [now apply Hev|].
    intros val e1 s1 _ W1 We1 Vv. apply Eok_bind_get_env.
    eapply Eok_bind; [apply Eok_liftH; [now apply Hok_find|assumption]|].
    intros existing e2 s2 _ W2 We2 [-> _].
    destruct existing; [|now apply Eok_throw].
    eapply Eok_bind.
    + apply Eok_liftH; [|assumption]. apply Hok_modify; [assumption|now right].
    + intros _ e3 s3 _ W3 We3 _. apply Eok_liftH; [|assumption].
      now apply Hok_alloc.
Qed.

End Safe.

Lemma Eok_eval primitives reserved_words fuel : forall ex e s,
  wf s -> wf_env s e -> Eok valid (eval primitives reserved_words fuel ex) e s.
Proof.
  induction fuel as [|fuel IH]; intros ex e s W We.
  - split; [apply frame_refl|]. split; [assumption|]. now split.
  - cbn [eval]. now apply Eok_eval_node.
Qed.

(** X25.  Evaluation is memory safe.  Take a store in which the fields of
    every pair point to live objects, every cell holds the null pointer or a
    pointer to a live object, and every environment captured by a closure
    has its cells, and an environment that has its cells.  Then evaluation
    never dereferences a null or dangling pointer, it leaves such a store
    and such an environment, and a value it returns points to a live
    object. *)
Theorem eval_safe primitives reserved_words fuel ex e s :
  wf s -> wf_env s e ->
  let '(r, e', s') := eval primitives reserved_words fuel ex e s in
  wf s' /\ wf_env s' e' /\ r <> Undef /\ (forall v, r = Ret v -> valid s' v).
Proof.
  intros W We. destruct (Eok_eval primitives reserved_words fuel ex e s W We)
    as (_ & W' & We' & HP).
  destruct (eval primitives reserved_words fuel ex e s) as [[r e'] s'].
  cbn [fst snd] in *. split; [assumption|]. split; [assumption|].
  split.
  - intros ->. exact HP.
  - intros v ->. exact HP.
Qed.

(** (car (quote (1))) from the empty store and environment. *)
Lemma eval_safe_witness :
  let '(r, e', s') :=
    eval sample_primitives sample_reserved_words 3
      (Unary Car (Quote (List [Number 1]))) [] empty_store in
  wf s' /\ wf_env s' e' /\ r <> Undef /\ (forall v, r = Ret v -> valid s' v).
Proof.
  apply (eval_safe sample_primitives sample_reserved_words 3
           (Unary Car (Quote (List [Number 1]))) [] empty_store).
  - split; constructor.
  - constructor.
Defined.

(** ** The conditional and the type predicates *)

(** X26.  if evaluates its test once and then exactly one branch, in the
    environment and store the test left: the alternative when the value of
    the test is the Boolean #f, the consequent for any other object (0 and
    the empty list count as true); an error of the test is the error of the
    if.  not answers #t on exactly the object #f. *)
Theorem If_Not_spec primitives reserved_words fuel cond conseq alter e s r e1 s1 :
  eval primitives reserved_words fuel cond e s = (r, e1, s1) ->
  match r with
  | Ret v =>
      forall o, deref v s1 = (Ret o, s1) ->
        eval primitives reserved_words (S fuel) (If cond conseq alter) e s
        = eval primitives reserved_words fuel
            (if is_false o then alter else conseq) e1 s1 /\
        Unary_evalRator Not v s1 = alloc (Boolean (is_false o)) s1 /\
        (is_false o = true <-> o = Boolean false)
  | _ =>
      eval primitives reserved_words (S fuel) (If cond conseq alter) e s
      = (r, e1, s1)
  end.
Proof.
  intros Hc.
  assert (Hstart : eval primitives reserved_words (S fuel)
                     (If cond conseq alter) e s
                   = match r with
                     | Ret v =>
                         (o <~ liftH (deref v) ;;
                          if is_false o
                          then eval primitives reserved_words fuel alter
                          else eval primitives reserved_words fuel conseq) e1 s1
                     | _ => (r, e1, s1)
                     end).
  { rewrite eval_S. cbn [eval_node]. unfold If_eval, bindE at 1.
    rewrite Hc. now destruct r. }
  destruct r as [v|msg| |]; try exact Hstart.
  intros o Ho. split; [|split].
  - rewrite Hstart. unfold bindE, liftH. rewrite Ho. now destruct (is_false o).
  - cbn [Unary_evalRator]. unfold Not_evalRator.
    now rewrite (bindH_deref v o).
  - apply is_false_iff.
Qed.

(** (if 0 1 2) is 1: the Integer 0 is not #f. *)
Lemma If_Not_spec_witness :
  eval sample_primitives sample_reserved_words 2
    (If (Fixnum 0) (Fixnum 1) (Fixnum 2)) [] empty_store
  = (Ret (Some 1%nat), [], mkStore [Integer 0; Integer 1] [] []).
Proof.
  destruct (If_Not_spec sample_primitives sample_reserved_words 1
              (Fixnum 0) (Fixnum 1) (Fixnum 2) [] empty_store
              (Ret (Some 0%nat)) [] (mkStore [Integer 0] [] []) eq_refl
              (Integer 0) eq_refl) as [Hrun _].
  rewrite Hrun. reflexivity.
Defined.

(** X27.  boolean?, number?, null?, pair?, procedure?, symbol? and string?
    always return a Boolean and at most one of them answers #t on an object:
    exactly one, unless the object is a Rational, Void or Terminate, on which
    all seven answer #f (number? is #f on 1/2).  On a proper list null? is
    #t for the empty one and pair? for the others. *)
Theorem type_predicates_spec s rand o :
  deref rand s = (Ret o, s) ->
  exists bs : list bool,
    Forall2 (fun op b => Unary_evalRator op rand s = alloc (Boolean b) s)
      type_predicates bs /\
    length (filter (fun b => b = true) bs) = (if untyped o then 0 else 1)%nat /\
    forall vs, chain s rand vs Null ->
      Unary_evalRator IsNull rand s = alloc (Boolean (bool_decide (vs = []))) s /\
      Unary_evalRator IsPair rand s = alloc (Boolean (bool_decide (vs <> []))) s.
Proof.
  intros Ho.
  assert (Ht : forall test,
             type_test test rand s = alloc (Boolean (test o)) s).
  { intros test. unfold type_test. now rewrite (bindH_deref rand o). }
  eexists [_; _; _; _; _; _; _]. split; [|split].
  - unfold type_predicates. repeat constructor; cbn [Unary_evalRator]; apply Ht.
  - destruct o; reflexivity.
  - intros vs Hc. cbn [Unary_evalRator]. rewrite !Ht.
    inversion Hc as [v o' Hv Hn|v a d vs' o' Hv Hc']; subst;
      pose proof (deref_det _ _ _ _ Ho Hv) as ->; split; reflexivity.
Qed.

(** 1/2 is no number? for this interpreter. *)
Lemma type_predicates_spec_witness :
  exists bs : list bool,
    Forall2 (fun op b =>
               Unary_evalRator op (Some 0%nat) (mkStore [Rational 1 2] [] [])
               = alloc (Boolean b) (mkStore [Rational 1 2] [] []))
      type_predicates bs /\
    length (filter (fun b => b = true) bs) = 0%nat.
Proof.
  destruct (type_predicates_spec (mkStore [Rational 1 2] [] []) (Some 0%nat)
              (Rational 1 2) eq_refl) as (bs & Hall & Hcount & _).
  exists bs. split; assumption.
Defined.
